(** * OccMap: z-buffered pinhole projection (forward) and gradient routing (backward)

    Shallow embedding of [src/t3vip/occ_map/OccMap_cuda_kernel.cu].

    Conventions of the model:
    - a [float] of the source is an IEEE-754 binary32 value, modelled by
      [spec_float] with [prec = 24], [emax = 128]; every arithmetic
      operator of the source is one correctly rounded (round to nearest,
      ties to even) operation, without fused multiply-add contraction; the
      one expression that contains [pow(z, 2)] is evaluated in binary64
      ([prec = 53], [emax = 1024]) and rounded to binary32 by its store;
    - device memory holds 32-bit words; a [float*] access decodes or
      encodes the word, [atomicMin] works on the word itself, exactly as
      the cast to [unsigned int*] in the source does; [spec_float] has one
      NaN, which is stored as the default quiet pattern, so that what is
      said of a stored value that may be a NaN is said of the float read
      back ([reads_as]), never of its word;
    - an [int] is a 32-bit two's complement integer (arithmetic wraps);
    - a buffer is addressed by an offset of any size; that the accesses of
      the kernels stay within the tensors is what the theorems of the
      section on accesses establish, under the conditions they state;
    - a kernel launch runs its threads one after another in some order
      (a schedule); a thread's body is not interleaved with another's. On
      the device the plain stores of two threads of pass 2 that win one
      cell with equal depths can interleave: what is stated of the
      coordinates of a cell together with its index map entry assumes
      that no two points that land on one cell have equal depths;
    - a host function hands back the value it returns, or the failure it
      reports when an assertion does not hold. *)

From Stdlib Require Import ZArith List Bool Lia Permutation.
From Stdlib Require Import Floats.SpecFloat.
Import ListNotations.
Local Open Scope Z_scope.

(** ** Binary32 *)

Module F32.

Definition prec : Z := 24.
Definition emax : Z := 128.

Definition float := spec_float.

Definition zero : float := S754_zero false.
Definition HUGE_VALF : float := S754_infinity false.

Definition add : float -> float -> float := SFadd prec emax.
Definition mul : float -> float -> float := SFmul prec emax.
Definition div : float -> float -> float := SFdiv prec emax.
Definition neg : float -> float := SFopp.

Definition eqb : float -> float -> bool := SFeqb.
Definition ltb : float -> float -> bool := SFltb.
Definition leb : float -> float -> bool := SFleb.

(** Conversion of an integer ([int] or [long]) to [float]. *)
Definition of_int (n : Z) : float := binary_normalize prec emax n 0 false.

(** [round] of the C library: nearest integer, halfway cases away from
    zero, the sign of the argument kept. *)
Definition round (f : float) : float :=
  match f with
  | S754_finite s m e =>
      if 0 <=? e then f
      else
        let n := (Z.pos m + 2 ^ (- e - 1)) / 2 ^ (- e) in
        if n =? 0 then S754_zero s
        else binary_normalize prec emax (if s then - n else n) 0 false
  | _ => f
  end.

(** Conversion [(long) f]: truncation toward zero, saturating at the
    ends of the 64-bit range, a NaN giving 0 (the device's [cvt.rzi]). *)
Definition to_long (f : float) : Z :=
  match f with
  | S754_zero _ => 0
  | S754_nan => 0
  | S754_infinity s => if s then - 2 ^ 63 else 2 ^ 63 - 1
  | S754_finite s m e =>
      let a := if 0 <=? e then Z.pos m * 2 ^ e else Z.pos m / 2 ^ (- e) in
      let v := if s then - a else a in
      Z.max (- 2 ^ 63) (Z.min (2 ^ 63 - 1) v)
  end.

(** *** Bit patterns *)

(** The 32-bit word of a float, as an unsigned number. The one NaN of
    [spec_float] is given the default quiet pattern; the word a device
    stores for a NaN can have another sign or payload, which [spec_float]
    does not keep. Every NaN word is read back as the NaN. *)
Definition bits_of_float (f : float) : Z :=
  match f with
  | S754_zero s => if s then 2 ^ 31 else 0
  | S754_infinity s => (if s then 2 ^ 31 else 0) + 255 * 2 ^ 23
  | S754_nan => 255 * 2 ^ 23 + 2 ^ 22
  | S754_finite s m e =>
      (if s then 2 ^ 31 else 0) +
      (if 2 ^ 23 <=? Z.pos m
       then (e + 150) * 2 ^ 23 + (Z.pos m - 2 ^ 23)
       else Z.pos m)
  end.

(** The float of a 32-bit word. *)
Definition float_of_bits (w : Z) : float :=
  let s := Z.testbit w 31 in
  let ex := (w / 2 ^ 23) mod 2 ^ 8 in
  let mx := w mod 2 ^ 23 in
  if ex =? 0 then
    match mx with
    | Z.pos m => S754_finite s m (-149)
    | _ => S754_zero s
    end
  else if ex =? 255 then
    (if mx =? 0 then S754_infinity s else S754_nan)
  else
    match mx + 2 ^ 23 with
    | Z.pos m => S754_finite s m (ex - 150)
    | _ => S754_nan
    end.

(** [__float_as_int]: the word read as a signed [int]. *)
Definition float_as_int (f : float) : Z :=
  let w := bits_of_float f in
  if w <? 2 ^ 31 then w else w - 2 ^ 32.

End F32.

(** ** Binary64 *)

(** [pow(z, 2)] with [z] a [float] and the exponent an [int] is the
    [double] overload of [pow]: the expression of the third gradient
    channel is evaluated in [double] and converted to [float] by the
    store. *)
Module F64.

Definition prec : Z := 53.
Definition emax : Z := 1024.

Definition float := spec_float.

Definition add : float -> float -> float := SFadd prec emax.
Definition mul : float -> float -> float := SFmul prec emax.
Definition div : float -> float -> float := SFdiv prec emax.

(** The promotion of a [float] to [double]: the same number. *)
Definition of_float (f : F32.float) : float :=
  match f with
  | S754_finite s m e => binary_round prec emax s m e
  | _ => f
  end.

(** The conversion of a [double] to [float], rounding to nearest. *)
Definition to_float (d : float) : F32.float :=
  match d with
  | S754_finite s m e => binary_round F32.prec F32.emax s m e
  | _ => d
  end.

(** [pow(z, 2)]: the square of [z], which a [double] holds without
    rounding for every [z] that came from a [float]. *)
Definition pow2 (z : float) : float := mul z z.

End F64.

(** ** Machine integers *)

(** A value brought into the range of [int]. *)
Definition wrap32 (x : Z) : Z := (x + 2 ^ 31) mod 2 ^ 32 - 2 ^ 31.

(** Conversion of an [int] to [unsigned int]. *)
Definition to_uint32 (x : Z) : Z := x mod 2 ^ 32.

(** ** Device memory and the kernel monad *)

Inductive buffer := InputBuf | OutputBuf | IndexMapBuf | GradOutputBuf | GradInputBuf.

Definition buffer_eqb (a b : buffer) : bool :=
  match a, b with
  | InputBuf, InputBuf | OutputBuf, OutputBuf | IndexMapBuf, IndexMapBuf
  | GradOutputBuf, GradOutputBuf | GradInputBuf, GradInputBuf => true
  | _, _ => false
  end.

(** A pointer: a buffer and an offset counted in 32-bit elements. *)
Definition ptr : Type := buffer * Z.

Definition padd (p : ptr) (k : Z) : ptr := (fst p, snd p + k).
Infix "+p" := padd (at level 50, left associativity).

Definition ptr_eqb (p q : ptr) : bool :=
  buffer_eqb (fst p) (fst q) && (snd p =? snd q).

Definition memory := ptr -> Z.

Definition upd (m : memory) (p : ptr) (w : Z) : memory :=
  fun q => if ptr_eqb q p then w else m q.

(** What a thread did to memory, most recent first. *)
Inductive access :=
| Load (p : ptr)
| Store (p : ptr) (w : Z)
| AtomicMin (p : ptr) (w : Z).

Record device := { mem : memory; trace : list access }.

Definition M (A : Type) : Type := device -> A * device.

Definition ret {A} (a : A) : M A := fun d => (a, d).
Definition bind {A B} (c : M A) (k : A -> M B) : M B :=
  fun d => let (a, d') := c d in k a d'.

Notation "x <- c ;; k" := (bind c (fun x => k))
  (at level 61, c at next level, right associativity).
Notation "c ;;; k" := (bind c (fun _ => k))
  (at level 61, right associativity).

(** [*p] read as a float. *)
Definition load (p : ptr) : M F32.float :=
  fun d => (F32.float_of_bits (mem d p),
            {| mem := mem d; trace := Load p :: trace d |}).

(** [*p = f]. *)
Definition store (p : ptr) (f : F32.float) : M unit :=
  fun d => (tt, {| mem := upd (mem d) p (F32.bits_of_float f);
                   trace := Store p (F32.bits_of_float f) :: trace d |}).

(** [atomicMin((unsigned int* )p, v)]: one indivisible read-modify-write of
    the word at [p]; the old word is returned. *)
Definition atomicMin (p : ptr) (v : Z) : M Z :=
  fun d => (mem d p,
            {| mem := upd (mem d) p (Z.min (mem d p) (to_uint32 v));
               trace := AtomicMin p (to_uint32 v) :: trace d |}).

(** ** The kernels *)

(** The (batch, row, col) of a thread index. [/] and [%] on [int]
    truncate toward zero. *)
Definition getCoordinates_1 (tid nrows ncols : Z) : Z * Z * Z :=
  let id := tid in
  let col := Z.rem id ncols in
  let id := Z.quot id ncols in
  let row := Z.rem id nrows in
  let id := Z.quot id nrows in
  let batch := id in
  (batch, row, col).

(** The thread coordinates of a 1D launch. *)
Record thread := { blockIdx : Z; blockDim : Z; threadIdx : Z }.

Definition thread_id (t : thread) : Z :=
  wrap32 (to_uint32 (blockIdx t * blockDim t + threadIdx t)).

(** [b*is0 + r*is2 + c*is3] on [int]. *)
Definition int_offset (b r c s0 s2 s3 : Z) : Z :=
  wrap32 (wrap32 (wrap32 (b * s0) + wrap32 (r * s2)) + wrap32 (c * s3)).

(** [b*is0 + ypixr*is2 + xpixr*is3] with [ypixr], [xpixr] of type [float]:
    the usual arithmetic conversions make both products and both sums
    single-precision operations; the result is converted to [long]. *)
Definition float_offset (b : Z) (ypixr xpixr : F32.float) (s0 s2 s3 : Z) : Z :=
  F32.to_long
    (F32.add (F32.add (F32.of_int (wrap32 (b * s0)))
                      (F32.mul ypixr (F32.of_int s2)))
             (F32.mul xpixr (F32.of_int s3))).

Definition projectPointsAndDepthTest
    (input_data output_data : ptr) (fy fx cy cx : F32.float)
    (batchSize nrows ncols npoints is0 is1 is2 is3 : Z) (t : thread) : M unit :=
  let id := thread_id t in
  if npoints <=? id then ret tt else
  let '(b, r, c) := getCoordinates_1 id nrows ncols in
  let vali := int_offset b r c is0 is2 is3 in
  x <- load (input_data +p wrap32 (0 * is1) +p vali) ;;
  y <- load (input_data +p wrap32 (1 * is1) +p vali) ;;
  z <- load (input_data +p wrap32 (2 * is1) +p vali) ;;
  if F32.leb z (F32.of_int 0) then ret tt else
  let xpix := F32.add (F32.mul (F32.div x z) fx) cx in
  let ypix := F32.add (F32.mul (F32.div y z) fy) cy in
  let xpixr := F32.round xpix in
  let ypixr := F32.round ypix in
  if F32.leb (F32.of_int 0) xpixr && F32.ltb xpixr (F32.of_int ncols) &&
     F32.leb (F32.of_int 0) ypixr && F32.ltb ypixr (F32.of_int nrows)
  then
    let valo := float_offset b ypixr xpixr is0 is2 is3 in
    atomicMin (output_data +p wrap32 (2 * is1) +p valo) (F32.float_as_int z) ;;;
    ret tt
  else ret tt.

Definition refineOutput
    (input_data output_data indexMap_data : ptr) (fy fx cy cx : F32.float)
    (batchSize nrows ncols npoints is0 is1 is2 is3 iMs0 iMs1 iMs2 iMs3 : Z)
    (t : thread) : M unit :=
  let id := thread_id t in
  if npoints <=? id then ret tt else
  let '(b, r, c) := getCoordinates_1 id nrows ncols in
  let vali := int_offset b r c is0 is2 is3 in
  d <- load (output_data +p wrap32 (2 * is1) +p vali) ;;
  (if F32.eqb d F32.HUGE_VALF
   then store (output_data +p wrap32 (2 * is1) +p vali) (F32.of_int 0)
   else ret tt) ;;;
  x <- load (input_data +p wrap32 (0 * is1) +p vali) ;;
  y <- load (input_data +p wrap32 (1 * is1) +p vali) ;;
  z <- load (input_data +p wrap32 (2 * is1) +p vali) ;;
  if F32.leb z (F32.of_int 0) then ret tt else
  let xpix := F32.add (F32.mul (F32.div x z) fx) cx in
  let ypix := F32.add (F32.mul (F32.div y z) fy) cy in
  let xpixr := F32.round xpix in
  let ypixr := F32.round ypix in
  if F32.leb (F32.of_int 0) xpixr && F32.ltb xpixr (F32.of_int ncols) &&
     F32.leb (F32.of_int 0) ypixr && F32.ltb ypixr (F32.of_int nrows)
  then
    let valo := float_offset b ypixr xpixr is0 is2 is3 in
    zo <- load (output_data +p wrap32 (2 * is1) +p valo) ;;
    if F32.eqb zo z then
      store (output_data +p wrap32 (0 * is1) +p valo) xpix ;;;
      store (output_data +p wrap32 (1 * is1) +p valo) ypix ;;;
      let valim := float_offset b ypixr xpixr iMs0 iMs2 iMs3 in
      store (indexMap_data +p valim) (F32.of_int vali)
    else ret tt
  else ret tt.

Definition projectionGradient
    (input_data gradOutput_data indexMap_data gradInput_data : ptr)
    (fy fx : F32.float)
    (batchSize nrows ncols npoints is0 is1 is2 is3 iMs0 iMs1 iMs2 iMs3 : Z)
    (t : thread) : M unit :=
  let id := thread_id t in
  if npoints <=? id then ret tt else
  let '(b, r, c) := getCoordinates_1 id nrows ncols in
  let valim := int_offset b r c iMs0 iMs2 iMs3 in
  im <- load (indexMap_data +p valim) ;;
  let vali := F32.to_long im in
  if vali =? -1 then ret tt else
  x <- load (input_data +p wrap32 (0 * is1) +p vali) ;;
  y <- load (input_data +p wrap32 (1 * is1) +p vali) ;;
  z <- load (input_data +p wrap32 (2 * is1) +p vali) ;;
  let valgo := int_offset b r c is0 is2 is3 in
  gx <- load (gradOutput_data +p wrap32 (0 * is1) +p valgo) ;;
  gy <- load (gradOutput_data +p wrap32 (1 * is1) +p valgo) ;;
  gz <- load (gradOutput_data +p wrap32 (2 * is1) +p valgo) ;;
  store (gradInput_data +p wrap32 (0 * is1) +p vali) (F32.mul (F32.div fx z) gx) ;;;
  store (gradInput_data +p wrap32 (1 * is1) +p vali) (F32.mul (F32.div fy z) gy) ;;;
  store (gradInput_data +p wrap32 (2 * is1) +p vali)
    (F64.to_float
       (F64.add
          (F64.add
             (F64.mul (F64.mul (F64.div (F64.of_float (F32.neg x))
                                        (F64.pow2 (F64.of_float z)))
                               (F64.of_float fx))
                      (F64.of_float gx))
             (F64.mul (F64.mul (F64.div (F64.of_float (F32.neg y))
                                        (F64.pow2 (F64.of_float z)))
                               (F64.of_float fy))
                      (F64.of_float gy)))
          (F64.of_float gz))).

(** ** Launches and the host functions *)

(** The threads of a launch [<<<blocks, threads>>>], block after block. *)
Definition block_threads (bdim bidx : Z) : list thread :=
  map (fun i => {| blockIdx := bidx; blockDim := bdim; threadIdx := Z.of_nat i |})
      (seq 0 (Z.to_nat bdim)).

Definition grid_threads (blocks bdim : Z) : list thread :=
  flat_map (fun j => block_threads bdim (Z.of_nat j)) (seq 0 (Z.to_nat blocks)).

(** The order in which the threads of a launch run is not fixed by the
    platform: a scheduler picks one. A fair scheduler runs every thread
    of the launch once. *)
Definition scheduler := list thread -> list thread.

Definition fair (s : scheduler) : Prop := forall l, Permutation (s l) l.

Definition in_order : scheduler := fun l => l.
Definition reversed : scheduler := fun l => rev l.

Fixpoint run_threads (k : thread -> M unit) (l : list thread) : M unit :=
  match l with
  | [] => ret tt
  | t :: rest => k t ;;; run_threads k rest
  end.

(** [k<<<blocks, threads>>>(...)] under a scheduler. *)
Definition launch (k : thread -> M unit) (blocks bdim : Z) (s : scheduler) : M unit :=
  run_threads k (s (grid_threads blocks bdim)).

Definition exec {A} (c : M A) (d : device) : device := snd (c d).

(** A tensor as the host sees it: the data pointer, the sizes and the
    strides (in elements) of its four axes. *)
Record tensor := { data : ptr; sizes : list Z; strides : list Z }.

Definition size (t : tensor) (i : nat) : Z := wrap32 (nth i (sizes t) 0).
Definition stride (t : tensor) (i : nat) : Z := nth i (strides t) 0.

(** [ceil(npoints * (1.0/256))]: the factor is a power of two, so the
    double-precision product is exact for every [int] and the result is
    the integer ceiling of [npoints / 256]. *)
Definition numBlocks_of (npoints : Z) : Z := - ((- npoints) / 256).

(** What a host function hands back: the value it returns, or [Failed]
    when it reaches an assertion that does not hold, [assert(ndim == 3)] or
    the [assert(false)] that follows the message printed for an error of
    the device. Assertions are taken as compiled in. *)
Inductive outcome := Returned (v : Z) | Failed.

(** [cudaGetLastError] after the launches. The error the model knows is
    that of the launch itself: [dim3 blocks(numBlocks)] with [numBlocks]
    not positive is no valid grid (0 blocks, or the huge unsigned value of
    a negative [int]), the launch is refused and runs no thread. *)
Definition launch_refused (blocks : Z) : bool := blocks <=? 0.

Definition OccMap_cuda_forward (input indexmap output : tensor)
    (fy fx cy cx : F32.float) (sched1 sched2 : scheduler) : M outcome :=
  let batchSize := size input 0 in
  let ndim := size input 1 in
  let nrows := size input 2 in
  let ncols := size input 3 in
  if negb (ndim =? 3) then ret Failed else
  let input_data := data input in
  let indexmap_data := data indexmap in
  let output_data := data output in
  let is_ := (stride input 0, stride input 1, stride input 2, stride input 3) in
  let iMs := (stride indexmap 0, stride indexmap 1, stride indexmap 2, stride indexmap 3) in
  let '(is0, is1, is2, is3) := is_ in
  let '(iMs0, iMs1, iMs2, iMs3) := iMs in
  let npoints := wrap32 (wrap32 (batchSize * nrows) * ncols) in
  let numBlocks := numBlocks_of npoints in
  launch (projectPointsAndDepthTest input_data output_data fy fx cy cx
            batchSize nrows ncols npoints
            (wrap32 is0) (wrap32 is1) (wrap32 is2) (wrap32 is3))
         numBlocks 256 sched1 ;;;
  launch (refineOutput input_data output_data indexmap_data fy fx cy cx
            batchSize nrows ncols npoints
            (wrap32 is0) (wrap32 is1) (wrap32 is2) (wrap32 is3)
            (wrap32 iMs0) (wrap32 iMs1) (wrap32 iMs2) (wrap32 iMs3))
         numBlocks 256 sched2 ;;;
  if launch_refused numBlocks then ret Failed else ret (Returned 1).

Definition OccMap_cuda_backward (input indexmap gradInput gradOutput : tensor)
    (fy fx cy cx : F32.float) (sched : scheduler) : M outcome :=
  let batchSize := size input 0 in
  let ndim := size input 1 in
  let nrows := size input 2 in
  let ncols := size input 3 in
  if negb (ndim =? 3) then ret Failed else
  let input_data := data input in
  let indexmap_data := data indexmap in
  let gradInput_data := data gradInput in
  let gradOutput_data := data gradOutput in
  let is_ := (stride input 0, stride input 1, stride input 2, stride input 3) in
  let iMs := (stride indexmap 0, stride indexmap 1, stride indexmap 2, stride indexmap 3) in
  let '(is0, is1, is2, is3) := is_ in
  let '(iMs0, iMs1, iMs2, iMs3) := iMs in
  let npoints := wrap32 (wrap32 (batchSize * nrows) * ncols) in
  let numBlocks := numBlocks_of npoints in
  launch (projectionGradient input_data gradOutput_data indexmap_data gradInput_data
            fy fx batchSize nrows ncols npoints
            (wrap32 is0) (wrap32 is1) (wrap32 is2) (wrap32 is3)
            (wrap32 iMs0) (wrap32 iMs1) (wrap32 iMs2) (wrap32 iMs3))
         numBlocks 256 sched ;;;
  if launch_refused numBlocks then ret Failed else ret (Returned 1).

(** ** Vocabulary of the specification *)

(** One call: the intrinsics, the extents of the grid and the strides of
    the point grid and of the index map. *)
Record grid := {
  fy : F32.float; fx : F32.float; cy : F32.float; cx : F32.float;
  batchSize : Z; nrows : Z; ncols : Z;
  is0 : Z; is1 : Z; is2 : Z; is3 : Z;
  iMs0 : Z; iMs1 : Z; iMs2 : Z; iMs3 : Z
}.

Definition input_t (g : grid) : tensor :=
  {| data := (InputBuf, 0);
     sizes := [batchSize g; 3; nrows g; ncols g];
     strides := [is0 g; is1 g; is2 g; is3 g] |}.
Definition output_t (g : grid) : tensor :=
  {| data := (OutputBuf, 0);
     sizes := [batchSize g; 3; nrows g; ncols g];
     strides := [is0 g; is1 g; is2 g; is3 g] |}.
Definition indexmap_t (g : grid) : tensor :=
  {| data := (IndexMapBuf, 0);
     sizes := [batchSize g; 1; nrows g; ncols g];
     strides := [iMs0 g; iMs1 g; iMs2 g; iMs3 g] |}.
Definition gradOutput_t (g : grid) : tensor :=
  {| data := (GradOutputBuf, 0);
     sizes := [batchSize g; 3; nrows g; ncols g];
     strides := [is0 g; is1 g; is2 g; is3 g] |}.
Definition gradInput_t (g : grid) : tensor :=
  {| data := (GradInputBuf, 0);
     sizes := [batchSize g; 3; nrows g; ncols g];
     strides := [is0 g; is1 g; is2 g; is3 g] |}.

Definition npoints (g : grid) : Z := batchSize g * nrows g * ncols g.

(** A cell of the grid: batch, row, column. *)
Definition cell : Type := Z * Z * Z.

Definition in_grid (g : grid) (x : cell) : Prop :=
  let '(b, r, c) := x in
  0 <= b < batchSize g /\ 0 <= r < nrows g /\ 0 <= c < ncols g.

(** Offset of a cell in a three-channel tensor and in the index map. *)
Definition cell_off (g : grid) (x : cell) : Z :=
  let '(b, r, c) := x in b * is0 g + r * is2 g + c * is3 g.
Definition imap_off (g : grid) (x : cell) : Z :=
  let '(b, r, c) := x in b * iMs0 g + r * iMs2 g + c * iMs3 g.

(** Address of channel [k] of a cell in a three-channel buffer. *)
Definition chan (g : grid) (buf : buffer) (k : Z) (x : cell) : ptr :=
  (buf, k * is1 g + cell_off g x).
Definition imap_at (g : grid) (x : cell) : ptr := (IndexMapBuf, imap_off g x).

(** The input point of a cell. *)
Definition point_x (g : grid) (m : memory) (x : cell) : F32.float :=
  F32.float_of_bits (m (chan g InputBuf 0 x)).
Definition point_y (g : grid) (m : memory) (x : cell) : F32.float :=
  F32.float_of_bits (m (chan g InputBuf 1 x)).
Definition point_z (g : grid) (m : memory) (x : cell) : F32.float :=
  F32.float_of_bits (m (chan g InputBuf 2 x)).

(** The pinhole projection of the input point of a cell. *)
Definition xpix (g : grid) (m : memory) (x : cell) : F32.float :=
  F32.add (F32.mul (F32.div (point_x g m x) (point_z g m x)) (fx g)) (cx g).
Definition ypix (g : grid) (m : memory) (x : cell) : F32.float :=
  F32.add (F32.mul (F32.div (point_y g m x) (point_z g m x)) (fy g)) (cy g).

(** The rounded projection lies within [0, cols) x [0, rows). *)
Definition in_bounds (g : grid) (xpixr ypixr : F32.float) : bool :=
  F32.leb (F32.of_int 0) xpixr && F32.ltb xpixr (F32.of_int (ncols g)) &&
  F32.leb (F32.of_int 0) ypixr && F32.ltb ypixr (F32.of_int (nrows g)).

(** The input point of cell [x] has [z > 0] and its rounded projection
    lies within the bounds of the grid. *)
Definition projects (g : grid) (m : memory) (x : cell) : bool :=
  F32.ltb (F32.of_int 0) (point_z g m x) &&
  in_bounds g (F32.round (xpix g m x)) (F32.round (ypix g m x)).

(** The cell the rounded projection names, in the batch of the point. *)
Definition target (g : grid) (m : memory) (x : cell) : cell :=
  let '(b, _, _) := x in
  (b, F32.to_long (F32.round (ypix g m x)), F32.to_long (F32.round (xpix g m x))).

(** The input point of cell [x] is a candidate for output cell [o]. *)
Definition lands_on (g : grid) (m : memory) (x o : cell) : Prop :=
  projects g m x = true /\ target g m x = o.

(** The offsets the kernels compute for the rounded projection of the
    point of cell [x]: into the output grid and into the index map. *)
Definition valo (g : grid) (m : memory) (x : cell) : Z :=
  let '(b, _, _) := x in
  float_offset b (F32.round (ypix g m x)) (F32.round (xpix g m x)) (is0 g) (is2 g) (is3 g).
Definition valim (g : grid) (m : memory) (x : cell) : Z :=
  let '(b, _, _) := x in
  float_offset b (F32.round (ypix g m x)) (F32.round (xpix g m x)) (iMs0 g) (iMs2 g) (iMs3 g).

(** The guards of the kernels, as they are written: not [z <= 0], then
    the bounds test. *)
Definition fires (g : grid) (m : memory) (x : cell) : bool :=
  negb (F32.leb (point_z g m x) (F32.of_int 0)) &&
  in_bounds g (F32.round (xpix g m x)) (F32.round (ypix g m x)).

(** The kernels with the arguments the host functions pass for [g]. *)
Definition pass1 (g : grid) : thread -> M unit :=
  projectPointsAndDepthTest (InputBuf, 0) (OutputBuf, 0) (fy g) (fx g) (cy g) (cx g)
    (batchSize g) (nrows g) (ncols g) (npoints g) (is0 g) (is1 g) (is2 g) (is3 g).
Definition pass2 (g : grid) : thread -> M unit :=
  refineOutput (InputBuf, 0) (OutputBuf, 0) (IndexMapBuf, 0) (fy g) (fx g) (cy g) (cx g)
    (batchSize g) (nrows g) (ncols g) (npoints g) (is0 g) (is1 g) (is2 g) (is3 g)
    (iMs0 g) (iMs1 g) (iMs2 g) (iMs3 g).
Definition backward (g : grid) : thread -> M unit :=
  projectionGradient (InputBuf, 0) (GradOutputBuf, 0) (IndexMapBuf, 0) (GradInputBuf, 0)
    (fy g) (fx g)
    (batchSize g) (nrows g) (ncols g) (npoints g) (is0 g) (is1 g) (is2 g) (is3 g)
    (iMs0 g) (iMs1 g) (iMs2 g) (iMs3 g).

(** The cell a thread works for. *)
Definition cell_of (g : grid) (t : thread) : cell :=
  getCoordinates_1 (thread_id t) (nrows g) (ncols g).

(** The thread of the launch that works for a cell. *)
Definition flat_id (g : grid) (x : cell) : Z :=
  let '(b, r, c) := x in (b * nrows g + r) * ncols g + c.
Definition thread_of (g : grid) (x : cell) : thread :=
  {| blockIdx := flat_id g x / 256; blockDim := 256; threadIdx := flat_id g x mod 256 |}.

(** *** What the caller owes *)

Definition fits_int (x : Z) : Prop := - 2 ^ 31 <= x < 2 ^ 31.

(** The shape and the strides describe a grid the kernels can address:
    the extents and every offset fit an [int], no offset is negative, and
    distinct channels of distinct cells do not share an element. *)
Record layout_ok (g : grid) : Prop := {
  lo_batch : 0 <= batchSize g < 2 ^ 31;
  lo_rows : 0 < nrows g < 2 ^ 31;
  lo_cols : 0 < ncols g < 2 ^ 31;
  lo_npoints : npoints g + 255 < 2 ^ 31;
  lo_strides : fits_int (is0 g) /\ fits_int (is1 g) /\ fits_int (is2 g) /\ fits_int (is3 g) /\
               fits_int (iMs0 g) /\ fits_int (iMs1 g) /\ fits_int (iMs2 g) /\ fits_int (iMs3 g);
  lo_chan : fits_int (2 * is1 g) /\ 0 <= is1 g;
  lo_cell : forall b r c, in_grid g (b, r, c) ->
            fits_int (b * is0 g) /\ fits_int (r * is2 g) /\ fits_int (c * is3 g) /\
            fits_int (b * is0 g + r * is2 g) /\ fits_int (cell_off g (b, r, c)) /\
            0 <= cell_off g (b, r, c);
  lo_imap : forall b r c, in_grid g (b, r, c) ->
            fits_int (b * iMs0 g) /\ fits_int (r * iMs2 g) /\ fits_int (c * iMs3 g) /\
            fits_int (b * iMs0 g + r * iMs2 g) /\ fits_int (imap_off g (b, r, c));
  lo_inj : forall x x' k k', in_grid g x -> in_grid g x' -> 0 <= k <= 2 -> 0 <= k' <= 2 ->
           k * is1 g + cell_off g x = k' * is1 g + cell_off g x' -> k = k' /\ x = x';
  lo_imap_inj : forall x x', in_grid g x -> in_grid g x' ->
           imap_off g x = imap_off g x' -> x = x'
}.

(** The usual dense layout of a [batch x 3 x rows x cols] point grid and
    of a [batch x 1 x rows x cols] index map. *)
Definition contiguous (B R C : Z) (fy fx cy cx : F32.float) : grid :=
  {| fy := fy; fx := fx; cy := cy; cx := cx;
     batchSize := B; nrows := R; ncols := C;
     is0 := 3 * R * C; is1 := R * C; is2 := C; is3 := 1;
     iMs0 := R * C; iMs1 := R * C; iMs2 := C; iMs3 := 1 |}.

(** The depth channel of the output grid holds the sentinel in every
    cell. *)
Definition depth_prefilled (g : grid) (m : memory) : Prop :=
  forall x, in_grid g x -> m (chan g OutputBuf 2 x) = F32.bits_of_float F32.HUGE_VALF.

(** The index map holds the value that stands for no winner, -1, in
    every cell. *)
Definition no_winner : Z := F32.bits_of_float (F32.of_int (-1)).

Definition indexmap_prefilled (g : grid) (m : memory) : Prop :=
  forall x, in_grid g x -> m (imap_at g x) = no_winner.

(** No depth of the input reaches the sentinel. *)
Definition depths_below_sentinel (g : grid) (m : memory) : Prop :=
  forall x, in_grid g x -> point_z g m x <> F32.HUGE_VALF.

(** The single-precision arithmetic on offsets is exact for this input:
    the offsets computed for every projecting point are those of the
    cell its rounded projection names, which is a cell of the grid. *)
Definition targets_exact (g : grid) (m : memory) : Prop :=
  forall x, in_grid g x -> fires g m x = true ->
    in_grid g (target g m x) /\
    valo g m x = cell_off g (target g m x) /\
    valim g m x = imap_off g (target g m x).

(** The offset of every cell survives the conversion to [float] made when
    it is stored into the index map and the conversion back to [long]. *)
Definition stored_offset (v : Z) : Z :=
  F32.to_long (F32.float_of_bits (F32.bits_of_float (F32.of_int v))).

Definition offsets_exact (g : grid) : Prop :=
  forall x, in_grid g x -> stored_offset (cell_off g x) = cell_off g x.

(** ** Runs of the kernels and of the host functions *)

(** The threads the host functions launch for [g], and the passes run on a
    device under a scheduler. *)
Definition threads_of (g : grid) : list thread :=
  grid_threads (numBlocks_of (npoints g)) 256.

Definition run_pass1 (g : grid) (s : scheduler) (d : device) : device :=
  exec (launch (pass1 g) (numBlocks_of (npoints g)) 256 s) d.
Definition run_pass2 (g : grid) (s : scheduler) (d : device) : device :=
  exec (launch (pass2 g) (numBlocks_of (npoints g)) 256 s) d.
Definition Forward (g : grid) (s1 s2 : scheduler) (d : device) : device :=
  exec (OccMap_cuda_forward (input_t g) (indexmap_t g) (output_t g)
          (fy g) (fx g) (cy g) (cx g) s1 s2) d.
Definition Backward (g : grid) (s : scheduler) (d : device) : device :=
  exec (OccMap_cuda_backward (input_t g) (indexmap_t g) (gradInput_t g) (gradOutput_t g)
          (fy g) (fx g) (cy g) (cx g) s) d.

(** A device with the memory [m] and no access made yet. *)
Definition start (m : memory) : device := {| mem := m; trace := [] |}.

(** Two devices hold the same words. *)
Definition same_memory (d d' : device) : Prop := forall p, mem d p = mem d' p.

(** ** The memory effect of one thread *)

(** The word of +infinity. *)
Definition infbits : Z := 2139095040.

(** The update [atomicMin] makes. *)
Definition min_at (m : memory) (p : ptr) (w : Z) : memory := upd m p (Z.min (m p) w).

(** Where the thread of cell [x] applies [atomicMin], and the word it
    offers. *)
Definition depth_ptr (g : grid) (m : memory) (x : cell) : ptr :=
  (OutputBuf, 2 * is1 g + valo g m x).
Definition depth_word (g : grid) (m : memory) (x : cell) : Z :=
  to_uint32 (F32.float_as_int (point_z g m x)).

(** What a thread of pass 1 does to memory. *)
Definition p1_step (g : grid) (m : memory) (t : thread) : memory :=
  let x := cell_of g t in
  if (thread_id t <? npoints g) && fires g m x
  then min_at m (depth_ptr g m x) (depth_word g m x)
  else m.

(** Pass 2, first part: the depth channel of the thread's own cell is set
    to 0 if it holds the sentinel. *)
Definition reset_own (g : grid) (m : memory) (x : cell) : memory :=
  if F32.eqb (F32.float_of_bits (m (chan g OutputBuf 2 x))) F32.HUGE_VALF
  then upd m (chan g OutputBuf 2 x) (F32.bits_of_float (F32.of_int 0))
  else m.

(** Pass 2, second part: the point passes the guards and its depth is the
    one found at the offset computed for its target. *)
Definition wins (g : grid) (m : memory) (x : cell) : bool :=
  fires g m x &&
  F32.eqb (F32.float_of_bits (m (depth_ptr g m x))) (point_z g m x).

(** Pass 2, third part: the three stores of a winner. *)
Definition commit (g : grid) (m : memory) (x : cell) : memory :=
  upd (upd (upd m (OutputBuf, 0 * is1 g + valo g m x) (F32.bits_of_float (xpix g m x)))
           (OutputBuf, 1 * is1 g + valo g m x) (F32.bits_of_float (ypix g m x)))
      (IndexMapBuf, valim g m x) (F32.bits_of_float (F32.of_int (cell_off g x))).

(** What a thread of pass 2 does to memory. *)
Definition p2_step (g : grid) (m : memory) (t : thread) : memory :=
  let x := cell_of g t in
  if thread_id t <? npoints g then
    let m1 := reset_own g m x in
    if wins g m1 x then commit g m1 x else m1
  else m.

(** The offset Backward reads for a cell from the index map, the point
    it finds there and the incoming gradient of the cell. *)
Definition routed (g : grid) (m : memory) (x : cell) : Z :=
  F32.to_long (F32.float_of_bits (m (imap_at g x))).
Definition in_at (g : grid) (m : memory) (k v : Z) : F32.float :=
  F32.float_of_bits (m (InputBuf, k * is1 g + v)).
Definition gout (g : grid) (m : memory) (k : Z) (x : cell) : F32.float :=
  F32.float_of_bits (m (chan g GradOutputBuf k x)).

(** The third component of the gradient as the kernel evaluates it:
    [((-x/pow(z,2))*fx*gx) + ((-y/pow(z,2))*fy*gy) + gz] in [double],
    rounded to [float] once, by the store. *)
Definition grad_z (fx fy x y z gx gy gz : F32.float) : F32.float :=
  F64.to_float
    (F64.add
       (F64.add
          (F64.mul (F64.mul (F64.div (F64.of_float (F32.neg x))
                                     (F64.pow2 (F64.of_float z)))
                            (F64.of_float fx))
                   (F64.of_float gx))
          (F64.mul (F64.mul (F64.div (F64.of_float (F32.neg y))
                                     (F64.pow2 (F64.of_float z)))
                            (F64.of_float fy))
                   (F64.of_float gy)))
       (F64.of_float gz)).

(** The three components Backward writes for a cell. *)
Definition grad0 (g : grid) (m : memory) (x : cell) : F32.float :=
  F32.mul (F32.div (fx g) (in_at g m 2 (routed g m x))) (gout g m 0 x).
Definition grad1 (g : grid) (m : memory) (x : cell) : F32.float :=
  F32.mul (F32.div (fy g) (in_at g m 2 (routed g m x))) (gout g m 1 x).
Definition grad2 (g : grid) (m : memory) (x : cell) : F32.float :=
  let v := routed g m x in
  grad_z (fx g) (fy g) (in_at g m 0 v) (in_at g m 1 v) (in_at g m 2 v)
         (gout g m 0 x) (gout g m 1 x) (gout g m 2 x).

(** The three stores of Backward for a cell, and what a thread of Backward
    does to memory. *)
Definition route (g : grid) (m : memory) (x : cell) : memory :=
  let v := routed g m x in
  upd (upd (upd m (GradInputBuf, 0 * is1 g + v) (F32.bits_of_float (grad0 g m x)))
           (GradInputBuf, 1 * is1 g + v) (F32.bits_of_float (grad1 g m x)))
      (GradInputBuf, 2 * is1 g + v) (F32.bits_of_float (grad2 g m x)).

Definition bw_step (g : grid) (m : memory) (t : thread) : memory :=
  let x := cell_of g t in
  if thread_id t <? npoints g then
    if routed g m x =? -1 then m else route g m x
  else m.

(** ** What the claims speak of *)

(** What the caller owes to Forward. The last two conditions hold on
    every grid with [small_offsets], whatever the input (lemmas
    [small_offsets_targets_exact] and [small_offsets_offsets_exact]
    below). *)
Record forward_ready (g : grid) (m : memory) : Prop := {
  fr_layout : layout_ok g;
  fr_depth : depth_prefilled g m;
  fr_index : indexmap_prefilled g m;
  fr_below : depths_below_sentinel g m;
  fr_targets : targets_exact g m;
  fr_offsets : offsets_exact g
}.

(** Every offset of the grid, every stride converted to [float] and both
    extents are small enough for single-precision arithmetic on them to be
    exact. *)
Record small_offsets (g : grid) : Prop := {
  so_rows : nrows g < 2 ^ 23;
  so_cols : ncols g < 2 ^ 23;
  so_strides : 0 <= is2 g < 2 ^ 24 /\ 0 <= is3 g < 2 ^ 24 /\
               0 <= iMs2 g < 2 ^ 24 /\ 0 <= iMs3 g < 2 ^ 24;
  so_cell : forall b r c, in_grid g (b, r, c) ->
            0 <= b * is0 g /\ cell_off g (b, r, c) < 2 ^ 24 /\
            0 <= b * iMs0 g /\ imap_off g (b, r, c) < 2 ^ 24
}.

(** The index map names, for every cell, no point or a point of the
    grid, and no point twice. *)
Definition routes_ok (g : grid) (m : memory) : Prop :=
  (forall o, in_grid g o ->
     routed g m o = -1 \/ exists x, in_grid g x /\ routed g m o = cell_off g x) /\
  (forall o o', in_grid g o -> in_grid g o' ->
     routed g m o <> -1 -> routed g m o = routed g m o' -> o = o').


(** Every thread of the launch has an index below the number of points. *)
Definition launch_exact (g : grid) : Prop :=
  forall t, In t (threads_of g) -> 0 <= thread_id t < npoints g.

(** A single-precision number above 0, finite or infinite. *)
Definition positive_float (z : F32.float) : Prop :=
  valid_binary F32.prec F32.emax z = true /\ F32.ltb (F32.of_int 0) z = true.

(** The depth channel of cell [o] holds the sentinel. *)
Definition sentinel_at (g : grid) (m : memory) (o : cell) : Prop :=
  F32.eqb (F32.float_of_bits (m (chan g OutputBuf 2 o))) F32.HUGE_VALF = true.







(** The point of cell [x] is named by no cell of the index map [m2], and
    Backward, run from [m2], leaves its gradient as it was. *)
Definition never_routed (g : grid) (m2 m3 : memory) (x : cell) : Prop :=
  (forall o, in_grid g o -> routed g m2 o <> cell_off g x) /\
  (forall k, 0 <= k <= 2 -> m3 (chan g GradInputBuf k x) = m2 (chan g GradInputBuf k x)).

(** The point of cell [x] has [z <= 0], or its rounded projection lies
    out of bounds. *)
Definition excluded (g : grid) (m : memory) (x : cell) : Prop :=
  F32.leb (point_z g m x) (F32.of_int 0) = true \/
  in_bounds g (F32.round (xpix g m x)) (F32.round (ypix g m x)) = false.

(** The access is a read. *)
Definition is_load (a : access) : bool :=
  match a with Load _ => true | _ => false end.

(** Going from [d] to [d'] the memory was only read. *)
Definition only_read (d d' : device) : Prop :=
  mem d' = mem d /\
  exists acc, trace d' = acc ++ trace d /\ forallb is_load acc = true.

(** Going from [d] to [d'] nothing was written but, possibly, 0 into the
    depth channel of cell [x]. *)
Definition only_reset (g : grid) (x : cell) (d d' : device) : Prop :=
  mem d' = reset_own g (mem d) x /\
  exists acc, trace d' = acc ++ trace d /\
    forall a, In a acc -> is_load a = true \/ a = Store (chan g OutputBuf 2 x) 0.

(** ** Invariants of the passes *)

(** Two memories with the same input grid. *)
Definition same_input (m m' : memory) : Prop :=
  forall a, m (InputBuf, a) = m' (InputBuf, a).

(** The point of cell [x] passes the guards, is aimed at cell [o] and has
    the depth that the depth channel of [o] holds. *)
Definition winner (g : grid) (m : memory) (x o : cell) : Prop :=
  fires g m x = true /\ target g m x = o /\
  F32.eqb (F32.float_of_bits (m (chan g OutputBuf 2 o))) (point_z g m x) = true.

(** No two points that land on one cell both match its depth. *)
Definition no_ties (g : grid) (m : memory) : Prop :=
  forall x x' o, in_grid g x -> in_grid g x' ->
    winner g m x o -> winner g m x' o -> x = x'.

(** The shape of the float of a word between +0 and +infinity. *)
Inductive decoded_pos (w : Z) : F32.float -> Prop :=
| dec_zero : w = 0 -> decoded_pos w (S754_zero false)
| dec_sub m : 0 < w < 2 ^ 23 -> Z.pos m = w -> decoded_pos w (S754_finite false m (-149))
| dec_norm m e : 2 ^ 23 <= w < infbits -> Z.pos m = w mod 2 ^ 23 + 2 ^ 23 ->
                 e = w / 2 ^ 23 - 150 -> 1 <= w / 2 ^ 23 <= 254 ->
                 decoded_pos w (S754_finite false m e)
| dec_inf : w = infbits -> decoded_pos w (S754_infinity false).

(** Thread [t] of pass 1 offers the word [w] to the element [p]. *)
Definition offers (g : grid) (m : memory) (t : thread) (p : ptr) (w : Z) : Prop :=
  thread_id t < npoints g /\ fires g m (cell_of g t) = true /\
  depth_ptr g m (cell_of g t) = p /\ depth_word g m (cell_of g t) = w.

(** During pass 2 a depth cell holds what pass 1 left, or 0 once it has
    been reset. *)
Definition dep_ok (g : grid) (m1 m : memory) : Prop :=
  forall o, in_grid g o ->
    m (chan g OutputBuf 2 o) = m1 (chan g OutputBuf 2 o) \/
    (sentinel_at g m1 o /\ m (chan g OutputBuf 2 o) = 0).

(** The state of pass 2, started on [m1], after the threads [S] ran. *)
Record inv (g : grid) (m1 : memory) (S : list thread) (m : memory) : Prop := {
  inv_threads : forall t, In t S -> In t (grid_threads (numBlocks_of (npoints g)) 256);
  inv_in : same_input m1 m;
  inv_dep : dep_ok g m1 m;
  inv_done : forall t, In t S -> thread_id t < npoints g ->
             sentinel_at g m1 (cell_of g t) -> m (chan g OutputBuf 2 (cell_of g t)) = 0;
  inv_idx : forall o, in_grid g o ->
    (m (imap_at g o) = m1 (imap_at g o) /\
     m (chan g OutputBuf 0 o) = m1 (chan g OutputBuf 0 o) /\
     m (chan g OutputBuf 1 o) = m1 (chan g OutputBuf 1 o) /\
     forall t, In t S -> thread_id t < npoints g -> ~ winner g m1 (cell_of g t) o)
    \/
    (exists t, In t S /\ thread_id t < npoints g /\ winner g m1 (cell_of g t) o /\
       m (imap_at g o) = F32.bits_of_float (F32.of_int (cell_off g (cell_of g t))) /\
       m (chan g OutputBuf 0 o) = F32.bits_of_float (xpix g m1 (cell_of g t)) /\
       m (chan g OutputBuf 1 o) = F32.bits_of_float (ypix g m1 (cell_of g t)));
  inv_frame : forall p,
    m p = m1 p \/
    exists o, in_grid g o /\
      (p = chan g OutputBuf 2 o \/ p = imap_at g o \/
       p = chan g OutputBuf 0 o \/ p = chan g OutputBuf 1 o)
}.

(** After Forward, an output cell that no point claimed: [m0], [m1] and
    [m2] are the memories before pass 1, between the passes and after
    pass 2. *)
Definition unclaimed (g : grid) (m0 m1 m2 : memory) (o : cell) : Prop :=
  m1 (chan g OutputBuf 2 o) = F32.bits_of_float F32.HUGE_VALF /\
  m2 (chan g OutputBuf 2 o) = 0 /\
  m2 (imap_at g o) = m0 (imap_at g o) /\
  m2 (chan g OutputBuf 0 o) = m0 (chan g OutputBuf 0 o) /\
  m2 (chan g OutputBuf 1 o) = m0 (chan g OutputBuf 1 o) /\
  forall x, in_grid g x -> ~ lands_on g m0 x o.

(** After Forward, an output cell claimed by the point of cell [x]. *)
Definition claimed_by (g : grid) (m0 m1 m2 : memory) (o x : cell) : Prop :=
  in_grid g x /\ lands_on g m0 x o /\
  m1 (chan g OutputBuf 2 o) = F32.bits_of_float (point_z g m0 x) /\
  m2 (chan g OutputBuf 2 o) = F32.bits_of_float (point_z g m0 x) /\
  F32.float_of_bits (m2 (chan g OutputBuf 2 o)) = point_z g m0 x /\
  (forall x', in_grid g x' -> lands_on g m0 x' o ->
     F32.leb (point_z g m0 x) (point_z g m0 x') = true) /\
  m2 (imap_at g o) = F32.bits_of_float (F32.of_int (cell_off g x)) /\
  m2 (chan g OutputBuf 0 o) = F32.bits_of_float (xpix g m0 x) /\
  m2 (chan g OutputBuf 1 o) = F32.bits_of_float (ypix g m0 x).

(** Two memories that differ in the input gradient only. *)
Definition same_sources (m m' : memory) : Prop :=
  forall p, fst p <> GradInputBuf -> m p = m' p.

(** The word Backward writes into channel [k] for output cell [o]. *)
Definition grad_word (g : grid) (m : memory) (k : Z) (o : cell) : Z :=
  F32.bits_of_float
    (if k =? 0 then grad0 g m o else if k =? 1 then grad1 g m o else grad2 g m o).

(** Where Backward writes channel [k] for output cell [o]. *)
Definition grad_ptr (g : grid) (m : memory) (k : Z) (o : cell) : ptr :=
  (GradInputBuf, k * is1 g + routed g m o).

(** The state of Backward, started on [m0], after the threads [S] ran. *)
Record bw_inv (g : grid) (m0 : memory) (S : list thread) (m : memory) : Prop := {
  bw_threads : forall t, In t S -> In t (grid_threads (numBlocks_of (npoints g)) 256);
  bw_src : same_sources m0 m;
  bw_done : forall t k, In t S -> thread_id t < npoints g ->
            routed g m0 (cell_of g t) <> -1 -> 0 <= k <= 2 ->
            m (grad_ptr g m0 k (cell_of g t)) = grad_word g m0 k (cell_of g t);
  bw_frame : forall p,
    m p = m0 p \/
    exists o k, in_grid g o /\ routed g m0 o <> -1 /\ 0 <= k <= 2 /\
      p = grad_ptr g m0 k o /\ m p = grad_word g m0 k o
}.

(** [f] holds the integer [n], which is not negative and has at most 24
    bits, in the form the conversion from [int] gives it. *)
Definition holds_int (f : F32.float) (n : Z) : Prop :=
  (n = 0 /\ exists s, f = S754_zero s) \/ (0 < n < 2 ^ 24 /\ f = F32.of_int n).

(** ** Concrete inputs *)

(** A memory given by the few elements that differ from the fill value
    of their buffer. *)
Definition sparse (l : list (ptr * Z)) (fill : buffer -> Z) : memory :=
  fun p =>
    match find (fun e => ptr_eqb (fst e) p) l with
    | Some e => snd e
    | None => fill (fst p)
    end.

(** The caller's fill: the sentinel in the output grid, -1 in the index
    map, an incoming gradient of ones, zeros elsewhere. *)
Definition caller_fill (b : buffer) : Z :=
  match b with
  | OutputBuf => F32.bits_of_float F32.HUGE_VALF
  | IndexMapBuf => no_winner
  | GradOutputBuf => F32.bits_of_float (F32.of_int 1)
  | _ => 0
  end.

(** The floats 0, 1 and 0.5. *)
Definition zero_intrinsics : F32.float := F32.of_int 0.
Definition one : F32.float := F32.of_int 1.
Definition half : F32.float := F32.div one (F32.of_int 2).

(** A grid of a single cell. *)
Definition g_one : grid := contiguous 1 1 1 zero_intrinsics zero_intrinsics zero_intrinsics zero_intrinsics.

(** The input of the one-cell grid [g_one] whose only point has depth 0. *)
Definition m_one : memory := sparse [] caller_fill.



(** One batch of 2 x 2 cells, unit focal lengths, the principal point at the
    origin. The points of cells (0, 0, 0) and (0, 0, 1), (0, 0, 1) and
    (0, 0, 0.5), both project onto cell (0, 0, 0); the point of cell
    (0, 1, 0) has depth 0; the point of cell (0, 1, 1), (1, 1, 1), projects
    onto its own cell. *)
Definition g_small : grid := contiguous 1 2 2 one one zero_intrinsics zero_intrinsics.

Definition m_small : memory :=
  sparse [ ((InputBuf, 8), F32.bits_of_float one);
           ((InputBuf, 9), F32.bits_of_float half);
           ((InputBuf, 3), F32.bits_of_float one);
           ((InputBuf, 7), F32.bits_of_float one);
           ((InputBuf, 11), F32.bits_of_float one) ] caller_fill.

(** A 4097 x 4097 grid, a single batch, unit focal lengths, the
    principal point at the origin. *)
Definition g_large : grid := contiguous 1 4097 4097 one one zero_intrinsics zero_intrinsics.

(** One point with a projection, stored in cell (0, 0, 0): (1, 4096, 1),
    which projects onto column 1 of row 4096. *)
Definition m_large_a : memory :=
  sparse [ ((InputBuf, 0), F32.bits_of_float (F32.of_int 1));
           ((InputBuf, 16785409), F32.bits_of_float (F32.of_int 4096));
           ((InputBuf, 33570818), F32.bits_of_float (F32.of_int 1)) ] caller_fill.

(** One point with a projection, stored in cell (0, 4095, 2), whose
    offset is 2^24 + 1: (0, 0, 1), which projects onto cell (0, 0, 0). *)
Definition m_large_b : memory :=
  sparse [ ((InputBuf, 50348035), F32.bits_of_float (F32.of_int 1)) ] caller_fill.

(** Two batches of 2365 x 2367 cells. The offset of the first cell of
    the second batch, 16793865, is not a single-precision number. The one
    point with a projection, (1, 0, 4), is stored in that cell and projects
    onto it. *)
Definition g_stray : grid := contiguous 2 2365 2367 one one zero_intrinsics zero_intrinsics.

Definition m_stray : memory :=
  sparse [ ((InputBuf, 16793865), F32.bits_of_float (F32.of_int 1));
           ((InputBuf, 27989775), F32.bits_of_float (F32.of_int 4)) ] caller_fill.

(** What pass 2 keeps true on the input [m_stray]: the input is untouched,
    the element pass 1 wrote the depth into still holds it, and the depth of
    cell (0, 2364, 2366) is the sentinel, 0, or the column coordinate of the
    point. *)
Definition stray_inv (m : memory) : Prop :=
  same_input m_stray m /\
  m (OutputBuf, 27989774) = F32.bits_of_float (F32.of_int 4) /\
  (m (OutputBuf, 16793864) = F32.bits_of_float F32.HUGE_VALF \/
   m (OutputBuf, 16793864) = 0 \/
   m (OutputBuf, 16793864) = F32.bits_of_float (xpix g_stray m_stray (1, 0, 0))).

(** The depth of cell (0, 2364, 2366) is the column coordinate of the
    point. *)
Definition stray_done (m : memory) : Prop :=
  m (OutputBuf, 16793864) = F32.bits_of_float (xpix g_stray m_stray (1, 0, 0)).

(** ** Access disciplines *)







(** The buffers a run of pass 1, of pass 2 and of the gradient kernel
    leaves as they were; pass 1 raises no word. *)
Definition p1_effect (d d' : device) : Prop :=
  (forall p, mem d' p <= mem d p) /\
  (forall p, fst p <> OutputBuf -> mem d' p = mem d p).

Definition p2_effect (d d' : device) : Prop :=
  forall p, fst p <> OutputBuf -> fst p <> IndexMapBuf -> mem d' p = mem d p.

Definition bw_effect (d d' : device) : Prop :=
  forall p, fst p <> GradInputBuf -> mem d' p = mem d p.

(** An input of the 2 x 2 grid in which the depth of the point of cell
    (0, 0, 0) is not a number. *)
Definition m_nan : memory :=
  sparse [ ((InputBuf, 8), F32.bits_of_float S754_nan) ] caller_fill.

(** * Proofs *)

Import F32.

Lemma digits2_pos_bounds (m : positive) :
  2 ^ (Z.pos (digits2_pos m) - 1) <= Z.pos m < 2 ^ Z.pos (digits2_pos m).
Proof.
  induction m as [p IH | p IH | ]; cbn [digits2_pos].
  - rewrite Pos2Z.inj_succ.
    replace (Z.succ (Z.pos (digits2_pos p)) - 1) with (Z.succ (Z.pos (digits2_pos p) - 1)) by lia.
    rewrite !Z.pow_succ_r by lia. lia.
  - rewrite Pos2Z.inj_succ.
    replace (Z.succ (Z.pos (digits2_pos p)) - 1) with (Z.succ (Z.pos (digits2_pos p) - 1)) by lia.
    rewrite !Z.pow_succ_r by lia. lia.
  - cbn. lia.
Qed.

Lemma digits2_pos_unique (m : positive) (d : Z) :
  2 ^ (d - 1) <= Z.pos m < 2 ^ d -> Z.pos (digits2_pos m) = d.
Proof.
  intros H. pose proof (digits2_pos_bounds m) as B.
  assert (0 < d). { destruct (Z_lt_le_dec 0 d); auto. rewrite (Z.pow_neg_r 2 (d - 1)) in H by lia.
    assert (2 ^ d <= 1). { destruct (Z.eq_dec d 0); subst; [cbn; lia|]. rewrite Z.pow_neg_r by lia. lia. } lia. }
  destruct (Z.lt_trichotomy (Z.pos (digits2_pos m)) d) as [L | [E | G]]; auto.
  - assert (2 ^ Z.pos (digits2_pos m) <= 2 ^ (d - 1)) by (apply Z.pow_le_mono_r; lia). lia.
  - assert (2 ^ d <= 2 ^ (Z.pos (digits2_pos m) - 1)) by (apply Z.pow_le_mono_r; lia). lia.
Qed.

Lemma testbit31_small w : 0 <= w < 2 ^ 31 -> Z.testbit w 31 = false.
Proof.
  intros H. apply Z.testbit_false; [lia|].
  rewrite Z.div_small by lia. reflexivity.
Qed.

Lemma word_fields w :
  0 <= w <= infbits ->
  let q := w / 2 ^ 23 in let r := w mod 2 ^ 23 in
  w = 2 ^ 23 * q + r /\ 0 <= r < 2 ^ 23 /\ 0 <= q <= 255 /\ q mod 2 ^ 8 = q /\
  (q = 255 -> r = 0).
Proof.
  intros H q r.
  pose proof (Z.div_mod w (2 ^ 23) ltac:(lia)) as E.
  pose proof (Z.mod_pos_bound w (2 ^ 23) ltac:(lia)) as Br.
  fold q r in E, Br.
  assert (0 <= q) by (apply Z.div_pos; lia).
  assert (q <= 255).
  { unfold q. replace 255 with (infbits / 2 ^ 23) by reflexivity.
    apply Z.div_le_mono; lia. }
  repeat split; try lia.
  - apply Z.mod_small. change (2 ^ 8) with 256. lia.
  - intros ->. unfold infbits in H. change (2 ^ 23) with 8388608 in *. lia.
Qed.

Lemma float_of_bits_pos w :
  0 <= w <= infbits -> decoded_pos w (float_of_bits w).
Proof.
  intros H. destruct (word_fields w H) as (E & Br & Bq & Mq & Q255).
  unfold float_of_bits. rewrite testbit31_small by (unfold infbits in H; lia).
  rewrite Mq.
  destruct (Z.eqb_spec (w / 2 ^ 23) 0) as [q0 | q0].
  - rewrite q0 in E. destruct (w mod 2 ^ 23) as [ | m | m] eqn:R.
    + apply dec_zero. lia.
    + apply dec_sub; lia.
    + lia.
  - destruct (Z.eqb_spec (w / 2 ^ 23) 255) as [q1 | q1].
    + rewrite (Q255 q1) in *. cbn. apply dec_inf. rewrite q1 in E. rewrite E. reflexivity.
    + destruct (w mod 2 ^ 23 + 2 ^ 23) as [ | m | m] eqn:R; try lia.
      apply dec_norm; try lia.
      unfold infbits. change (2 ^ 23) with 8388608 in *. lia.
Qed.

Lemma bits_of_decoded_pos w f : decoded_pos w f -> bits_of_float f = w.
Proof.
  intros D. destruct D as [-> | m Hw Hm | m e Hw Hm He Hq | ->]; cbn [bits_of_float]; try reflexivity.
  - destruct (Z.leb_spec (2 ^ 23) (Z.pos m)); lia.
  - pose proof (Z.mod_pos_bound w (2 ^ 23) ltac:(lia)).
    pose proof (Z.div_mod w (2 ^ 23) ltac:(lia)).
    destruct (Z.leb_spec (2 ^ 23) (Z.pos m)); lia.
Qed.

Lemma compare_cont_Eq (p q : positive) :
  Pos.compare_cont Eq p q = (Z.pos p ?= Z.pos q).
Proof.
  rewrite Pos.compare_cont_spec. change (Z.pos p ?= Z.pos q) with (p ?= q)%positive.
  destruct (p ?= q)%positive; reflexivity.
Qed.

Lemma compare_decoded a b fa fb :
  decoded_pos a fa -> decoded_pos b fb -> SFcompare fa fb = Some (a ?= b).
Proof.
  intros Da Db.
  destruct Da as [-> | ma Ha Hma | ma ea Ha Hma Hea Hqa | ->];
  destruct Db as [-> | mb Hb Hmb | mb eb Hb Hmb Heb Hqb | ->];
  cbn [SFcompare]; f_equal; symmetry;
  try reflexivity;
  try (apply Z.compare_lt_iff; unfold infbits in *; lia);
  try (apply Z.compare_gt_iff; unfold infbits in *; lia).
  - rewrite Z.compare_refl, compare_cont_Eq, Hma, Hmb. reflexivity.
  - rewrite (proj2 (Z.compare_lt_iff a b)) by lia.
    pose proof (Z.mod_pos_bound b (2 ^ 23) ltac:(lia)).
    destruct (Z.compare_spec (-149) eb) as [E | L | G]; try reflexivity; try lia.
    rewrite compare_cont_Eq. symmetry. apply Z.compare_lt_iff. lia.
  - rewrite (proj2 (Z.compare_gt_iff a b)) by lia.
    pose proof (Z.mod_pos_bound a (2 ^ 23) ltac:(lia)).
    destruct (Z.compare_spec ea (-149)) as [E | L | G]; try reflexivity; try lia.
    rewrite compare_cont_Eq. symmetry. apply Z.compare_gt_iff. lia.
  - pose proof (Z.mod_pos_bound a (2 ^ 23) ltac:(lia)).
    pose proof (Z.mod_pos_bound b (2 ^ 23) ltac:(lia)).
    pose proof (Z.div_mod a (2 ^ 23) ltac:(lia)).
    pose proof (Z.div_mod b (2 ^ 23) ltac:(lia)).
    change (2 ^ 23) with 8388608 in *.
    destruct (Z.compare_spec ea eb) as [E | L | G].
    + rewrite compare_cont_Eq.
      destruct (Z.compare_spec (Z.pos ma) (Z.pos mb));
        [apply Z.compare_eq_iff | apply Z.compare_lt_iff | apply Z.compare_gt_iff]; lia.
    + apply Z.compare_lt_iff. lia.
    + apply Z.compare_gt_iff. lia.
Qed.

Lemma float_of_bits_valid w : valid_binary prec emax (float_of_bits w) = true.
Proof.
  unfold float_of_bits.
  pose proof (Z.mod_pos_bound w (2 ^ 23) ltac:(lia)) as Br.
  pose proof (Z.mod_pos_bound (w / 2 ^ 23) (2 ^ 8) ltac:(lia)) as Bq.
  destruct (Z.eqb_spec ((w / 2 ^ 23) mod 2 ^ 8) 0) as [q0 | q0].
  - destruct (w mod 2 ^ 23) as [ | m | m] eqn:R; try reflexivity.
    cbn [valid_binary]. unfold bounded, canonical_mantissa, fexp, SpecFloat.emin, prec, emax.
    pose proof (digits2_pos_bounds m) as D.
    assert (Z.pos (digits2_pos m) <= 23).
    { destruct (Z_le_gt_dec (Z.pos (digits2_pos m)) 23); auto.
      assert (2 ^ 23 <= 2 ^ (Z.pos (digits2_pos m) - 1)) by (apply Z.pow_le_mono_r; lia). lia. }
    apply andb_true_intro; split; [apply Z.eqb_eq | apply Z.leb_le]; lia.
  - destruct (Z.eqb_spec ((w / 2 ^ 23) mod 2 ^ 8) 255) as [q1 | q1].
    + destruct (w mod 2 ^ 23 =? 0); reflexivity.
    + destruct (w mod 2 ^ 23 + 2 ^ 23) as [ | m | m] eqn:R; try reflexivity.
      cbn [valid_binary]. unfold bounded, canonical_mantissa, fexp, SpecFloat.emin, prec, emax.
      rewrite (digits2_pos_unique m 24) by (change (2 ^ (24 - 1)) with (2 ^ 23); change (2 ^ 24) with (2 * 2 ^ 23); lia).
      change (2 ^ 8) with 256 in *.
      apply andb_true_intro; split; [apply Z.eqb_eq | apply Z.leb_le]; lia.
Qed.

(** A valid float above zero is the float of its own word, which lies
    between the words of the least subnormal and of +infinity. *)
Lemma valid_pos_decoded z :
  valid_binary prec emax z = true -> ltb (of_int 0) z = true ->
  decoded_pos (bits_of_float z) z.
Proof.
  intros V P. destruct z as [s | s | | s m e]; try discriminate.
  - destruct s; try discriminate. apply dec_inf. reflexivity.
  - destruct s; try discriminate.
    cbn [valid_binary] in V. unfold bounded, canonical_mantissa, fexp, SpecFloat.emin, prec, emax in V.
    apply andb_prop in V. destruct V as [V1 V2].
    apply Z.eqb_eq in V1. apply Z.leb_le in V2.
    pose proof (digits2_pos_bounds m) as D.
    cbn [bits_of_float]. change (2 ^ 23) with 8388608 in *.
    assert (Hd : Z.pos (digits2_pos m) <= 24) by lia.
    assert (Hm : Z.pos m < 2 * 8388608).
    { assert (2 ^ Z.pos (digits2_pos m) <= 2 ^ 24) by (apply Z.pow_le_mono_r; lia).
      change (2 ^ 24) with 16777216 in *. lia. }
    destruct (Z.leb_spec 8388608 (Z.pos m)) as [N | S].
    + assert (Z.pos (digits2_pos m) = 24).
      { apply digits2_pos_unique. change (2 ^ (24 - 1)) with 8388608. change (2 ^ 24) with 16777216. lia. }
      assert (-149 <= e <= 104) by lia.
      assert (Q : (0 + ((e + 150) * 8388608 + (Z.pos m - 8388608))) / 8388608 = e + 150).
      { symmetry. apply (Z.div_unique _ _ _ (Z.pos m - 8388608)); lia. }
      assert (R : (0 + ((e + 150) * 8388608 + (Z.pos m - 8388608))) mod 8388608 = Z.pos m - 8388608).
      { symmetry. apply (Z.mod_unique _ _ (e + 150)); lia. }
      apply dec_norm; change (2 ^ 23) with 8388608; rewrite ?Q, ?R; unfold infbits; lia.
    + assert (e = -149).
      { destruct (Z.max_spec (Z.pos (digits2_pos m) + e - 24) (3 - 128 - 24)) as [[_ E] | [L E]]; rewrite E in V1; try lia.
        assert (Z.pos (digits2_pos m) = 24) by lia.
        assert (2 ^ (24 - 1) <= Z.pos m) by (rewrite <- H; apply D).
        change (2 ^ (24 - 1)) with 8388608 in *. lia. }
      subst e. apply dec_sub; change (2 ^ 23) with 8388608; lia.
Qed.

(** *** Machine integers *)

Lemma wrap32_fits x : fits_int x -> wrap32 x = x.
Proof.
  unfold fits_int, wrap32. intros H. rewrite Z.mod_small; lia.
Qed.

Lemma to_uint32_small x : 0 <= x < 2 ^ 32 -> to_uint32 x = x.
Proof. intros H. unfold to_uint32. apply Z.mod_small; lia. Qed.

Lemma getCoordinates_1_spec (R C b r c : Z) :
  0 < R -> 0 < C -> 0 <= b -> 0 <= r < R -> 0 <= c < C ->
  getCoordinates_1 ((b * R + r) * C + c) R C = (b, r, c).
Proof.
  intros HR HC Hb Hr Hc. unfold getCoordinates_1.
  assert (0 <= b * R + r) by nia.
  assert (0 <= (b * R + r) * C + c) by nia.
  cbv zeta.
  rewrite (Z.rem_mod_nonneg ((b * R + r) * C + c) C),
          (Z.quot_div_nonneg ((b * R + r) * C + c) C) by lia.
  assert (Q1 : ((b * R + r) * C + c) / C = b * R + r)
    by (symmetry; apply (Z.div_unique _ _ _ c); lia).
  assert (M1 : ((b * R + r) * C + c) mod C = c)
    by (symmetry; apply (Z.mod_unique _ _ (b * R + r)); lia).
  rewrite Q1, M1.
  rewrite (Z.rem_mod_nonneg (b * R + r) R), (Z.quot_div_nonneg (b * R + r) R) by lia.
  assert (Q2 : (b * R + r) / R = b) by (symmetry; apply (Z.div_unique _ _ _ r); lia).
  assert (M2 : (b * R + r) mod R = r) by (symmetry; apply (Z.mod_unique _ _ b); lia).
  rewrite Q2, M2. reflexivity.
Qed.

Lemma getCoordinates_1_inv (B R C id : Z) :
  0 < R -> 0 < C -> 0 <= id < B * R * C ->
  exists b r c, getCoordinates_1 id R C = (b, r, c) /\
    0 <= b < B /\ 0 <= r < R /\ 0 <= c < C /\ id = (b * R + r) * C + c.
Proof.
  intros HR HC Hid.
  exists (id / C / R), ((id / C) mod R), (id mod C).
  pose proof (Z.div_mod id C ltac:(lia)) as E1.
  pose proof (Z.mod_pos_bound id C ltac:(lia)) as B1.
  pose proof (Z.div_mod (id / C) R ltac:(lia)) as E2.
  pose proof (Z.mod_pos_bound (id / C) R ltac:(lia)) as B2.
  assert (0 <= id / C) by (apply Z.div_pos; lia).
  assert (0 <= id / C / R) by (apply Z.div_pos; lia).
  assert (id / C / R < B).
  { apply Z.div_lt_upper_bound; [lia|]. apply Z.div_lt_upper_bound; [lia|]. nia. }
  assert (E : id = (id / C / R * R + (id / C) mod R) * C + id mod C) by nia.
  split; [|repeat split; try lia].
  rewrite E at 1. apply getCoordinates_1_spec; lia.
Qed.

(** *** Threads of a launch *)

Lemma in_block_threads bd bi t :
  In t (block_threads bd bi) <->
  blockDim t = bd /\ blockIdx t = bi /\ 0 <= threadIdx t < bd.
Proof.
  unfold block_threads. rewrite in_map_iff. split.
  - intros (i & <- & Hi). apply in_seq in Hi. cbn. lia.
  - intros (Hd & Hb & Hi). exists (Z.to_nat (threadIdx t)). split.
    + destruct t as [bi' bd' ti]. cbn in *. subst. f_equal. lia.
    + apply in_seq. lia.
Qed.

Lemma in_grid_threads nb bd t :
  In t (grid_threads nb bd) <->
  blockDim t = bd /\ 0 <= blockIdx t < nb /\ 0 <= threadIdx t < bd.
Proof.
  unfold grid_threads. rewrite in_flat_map. split.
  - intros (j & Hj & Ht). apply in_seq in Hj. apply in_block_threads in Ht. lia.
  - intros (Hd & Hb & Hi). exists (Z.to_nat (blockIdx t)). split.
    + apply in_seq. lia.
    + apply in_block_threads. lia.
Qed.

Lemma numBlocks_of_bounds n :
  0 <= n -> n <= numBlocks_of n * 256 < n + 256 /\ 0 <= numBlocks_of n.
Proof.
  intros H. unfold numBlocks_of.
  pose proof (Z.div_mod (- n) 256 ltac:(lia)).
  pose proof (Z.mod_pos_bound (- n) 256 ltac:(lia)). lia.
Qed.

Lemma thread_id_grid nb t :
  nb * 256 <= 2 ^ 31 -> In t (grid_threads nb 256) ->
  thread_id t = blockIdx t * 256 + threadIdx t /\ 0 <= thread_id t < nb * 256.
Proof.
  intros Hnb Ht. apply in_grid_threads in Ht. destruct Ht as (Hd & Hb & Hi).
  unfold thread_id. rewrite Hd.
  assert (0 <= blockIdx t * 256 + threadIdx t < nb * 256) by lia.
  rewrite to_uint32_small by lia.
  rewrite wrap32_fits by (unfold fits_int; lia). lia.
Qed.

Section Threads.
Variable g : grid.
Hypothesis L : layout_ok g.

Let nb := numBlocks_of (npoints g).

Lemma npoints_nonneg : 0 <= npoints g.
Proof.
  destruct L. unfold npoints.
  apply Z.mul_nonneg_nonneg; [apply Z.mul_nonneg_nonneg|]; lia.
Qed.

Lemma nb_bound : nb * 256 <= 2 ^ 31 /\ npoints g <= nb * 256.
Proof.
  pose proof (numBlocks_of_bounds _ npoints_nonneg). destruct L. fold nb in H. lia.
Qed.

Lemma flat_id_bound x : in_grid g x -> 0 <= flat_id g x < npoints g.
Proof.
  destruct x as [[b r] c]. unfold in_grid, flat_id, npoints. intros (Hb & Hr & Hc).
  destruct L.
  assert (0 <= b * nrows g + r) by nia.
  split; [nia|].
  assert (b * nrows g + r <= batchSize g * nrows g - 1) by nia.
  nia.
Qed.

Lemma thread_of_spec x :
  in_grid g x ->
  In (thread_of g x) (grid_threads nb 256) /\
  thread_id (thread_of g x) = flat_id g x /\
  cell_of g (thread_of g x) = x.
Proof.
  intros Hx. pose proof (flat_id_bound x Hx) as Hid.
  pose proof nb_bound as [Hnb Hn].
  pose proof (Z.div_mod (flat_id g x) 256 ltac:(lia)) as E.
  pose proof (Z.mod_pos_bound (flat_id g x) 256 ltac:(lia)) as Bm.
  assert (HIn : In (thread_of g x) (grid_threads nb 256)).
  { apply in_grid_threads. unfold thread_of. cbn [blockIdx blockDim threadIdx].
    split; [reflexivity|].
    split; [split; [apply Z.div_pos; lia | apply Z.div_lt_upper_bound; lia] | lia]. }
  assert (Hid' : thread_id (thread_of g x) = flat_id g x).
  { destruct (thread_id_grid nb _ Hnb HIn) as [-> _].
    unfold thread_of. cbn [blockIdx blockDim threadIdx]. lia. }
  repeat split; auto.
  unfold cell_of. rewrite Hid'. destruct x as [[b r] c]. destruct L.
  unfold in_grid in Hx. apply getCoordinates_1_spec; lia.
Qed.

Lemma active_thread t :
  In t (grid_threads nb 256) -> thread_id t < npoints g ->
  in_grid g (cell_of g t) /\ flat_id g (cell_of g t) = thread_id t.
Proof.
  intros Ht Ha. pose proof nb_bound as [Hnb Hn].
  destruct (thread_id_grid nb t Hnb Ht) as [E B]. destruct L.
  destruct (getCoordinates_1_inv (batchSize g) (nrows g) (ncols g) (thread_id t))
    as (b & r & c & Hc & Hb & Hr & Hcc & Hid); try lia.
  { unfold npoints in Ha. lia. }
  unfold cell_of. rewrite Hc. unfold in_grid, flat_id. lia.
Qed.

Lemma int_offset_cell b r c :
  in_grid g (b, r, c) ->
  int_offset b r c (is0 g) (is2 g) (is3 g) = cell_off g (b, r, c).
Proof.
  intros Hx. destruct (lo_cell g L b r c Hx) as (F1 & F2 & F3 & F4 & F5 & _).
  unfold int_offset, cell_off in *.
  rewrite (wrap32_fits _ F1), (wrap32_fits _ F2), (wrap32_fits _ F3).
  rewrite (wrap32_fits _ F4). apply wrap32_fits. exact F5.
Qed.

Lemma int_offset_imap b r c :
  in_grid g (b, r, c) ->
  int_offset b r c (iMs0 g) (iMs2 g) (iMs3 g) = imap_off g (b, r, c).
Proof.
  intros Hx. destruct (lo_imap g L b r c Hx) as (F1 & F2 & F3 & F4 & F5).
  unfold int_offset, imap_off in *.
  rewrite (wrap32_fits _ F1), (wrap32_fits _ F2), (wrap32_fits _ F3).
  rewrite (wrap32_fits _ F4). apply wrap32_fits. exact F5.
Qed.

Lemma ptr_chan buf k off :
  0 <= k <= 2 -> (buf, 0) +p wrap32 (k * is1 g) +p off = (buf, k * is1 g + off).
Proof.
  intros Hk. destruct (lo_chan g L) as [F H0].
  unfold padd. cbn [fst snd]. rewrite wrap32_fits; [f_equal; lia|].
  unfold fits_int in *. nia.
Qed.
End Threads.

(** *** Pure steps *)

Arguments F32.add : simpl never.
Arguments F32.mul : simpl never.
Arguments F32.div : simpl never.
Arguments F32.round : simpl never.
Arguments F32.of_int : simpl never.
Arguments F32.to_long : simpl never.
Arguments F32.float_of_bits : simpl never.
Arguments F32.bits_of_float : simpl never.
Arguments F32.leb : simpl never.
Arguments F32.ltb : simpl never.
Arguments F32.eqb : simpl never.
Arguments wrap32 : simpl never.

Section Steps.
Variable g : grid.
Hypothesis L : layout_ok g.
Let nb := numBlocks_of (npoints g).

Lemma pass1_mem t d :
  In t (grid_threads nb 256) ->
  mem (exec (pass1 g t) d) = p1_step g (mem d) t.
Proof.
  intros Ht. unfold pass1, projectPointsAndDepthTest, p1_step, exec.
  destruct (Z.leb_spec (npoints g) (thread_id t)) as [A | A].
  { rewrite (proj2 (Z.ltb_ge _ _)) by lia. reflexivity. }
  rewrite (proj2 (Z.ltb_lt _ _)) by lia.
  destruct (active_thread g L t Ht A) as [Hx _].
  fold (cell_of g t). destruct (cell_of g t) as [[b r] c] eqn:Ec.
  rewrite (int_offset_cell g L b r c Hx).
  rewrite !(ptr_chan g L) by lia.
  unfold bind, load, ret, atomicMin. cbn [fst snd mem andb].
  unfold fires.
  change (F32.float_of_bits (mem d (InputBuf, 2 * is1 g + cell_off g (b, r, c))))
    with (point_z g (mem d) (b, r, c)).
  destruct (F32.leb (point_z g (mem d) (b, r, c)) (F32.of_int 0)); [reflexivity|].
  cbn [negb andb snd].
  change (F32.add (F32.mul (F32.div (F32.float_of_bits (mem d (InputBuf, 0 * is1 g + cell_off g (b, r, c))))
           (point_z g (mem d) (b, r, c))) (fx g)) (cx g)) with (xpix g (mem d) (b, r, c)).
  change (F32.add (F32.mul (F32.div (F32.float_of_bits (mem d (InputBuf, 1 * is1 g + cell_off g (b, r, c))))
           (point_z g (mem d) (b, r, c))) (fy g)) (cy g)) with (ypix g (mem d) (b, r, c)).
  fold (in_bounds g (F32.round (xpix g (mem d) (b, r, c))) (F32.round (ypix g (mem d) (b, r, c)))).
  destruct (in_bounds g _ _); [|reflexivity].
  cbn [snd mem]. rewrite (ptr_chan g L) by lia. reflexivity.
Qed.

Lemma pass2_mem t d :
  In t (grid_threads nb 256) ->
  mem (exec (pass2 g t) d) = p2_step g (mem d) t.
Proof.
  intros Ht. unfold pass2, refineOutput, p2_step, exec.
  destruct (Z.leb_spec (npoints g) (thread_id t)) as [A | A].
  { rewrite (proj2 (Z.ltb_ge _ _)) by lia. reflexivity. }
  rewrite (proj2 (Z.ltb_lt _ _)) by lia.
  destruct (active_thread g L t Ht A) as [Hx _].
  fold (cell_of g t). destruct (cell_of g t) as [[b r] c] eqn:Ec.
  rewrite (int_offset_cell g L b r c Hx).
  rewrite !(ptr_chan g L) by lia.
  unfold bind at 1. unfold load at 1. cbn [fst snd mem].
  unfold bind at 1. unfold reset_own.
  change (OutputBuf, 2 * is1 g + cell_off g (b, r, c)) with (chan g OutputBuf 2 (b, r, c)).
  set (m1 := if F32.eqb (F32.float_of_bits (mem d (chan g OutputBuf 2 (b, r, c)))) F32.HUGE_VALF
             then upd (mem d) (chan g OutputBuf 2 (b, r, c)) (F32.bits_of_float (F32.of_int 0))
             else mem d).
  match goal with
  | |- mem (snd (let (_, d') := ?c ?d0 in _)) = _ =>
      assert (E : mem (snd (c d0)) = m1)
        by (subst m1; destruct (F32.eqb _ _); reflexivity);
      destruct (c d0) as [u d1]
  end.
  cbn [snd] in E.
  unfold bind, load, ret, store. cbn [fst snd mem].
  rewrite E. unfold wins, fires.
  change (F32.float_of_bits (m1 (InputBuf, 2 * is1 g + cell_off g (b, r, c))))
    with (point_z g m1 (b, r, c)).
  destruct (F32.leb (point_z g m1 (b, r, c)) (F32.of_int 0)); [reflexivity|].
  cbn [negb andb snd].
  change (F32.add (F32.mul (F32.div (F32.float_of_bits (m1 (InputBuf, 0 * is1 g + cell_off g (b, r, c))))
           (point_z g m1 (b, r, c))) (fx g)) (cx g)) with (xpix g m1 (b, r, c)).
  change (F32.add (F32.mul (F32.div (F32.float_of_bits (m1 (InputBuf, 1 * is1 g + cell_off g (b, r, c))))
           (point_z g m1 (b, r, c))) (fy g)) (cy g)) with (ypix g m1 (b, r, c)).
  fold (in_bounds g (F32.round (xpix g m1 (b, r, c))) (F32.round (ypix g m1 (b, r, c)))).
  destruct (in_bounds g _ _); [|reflexivity].
  cbn [snd mem andb]. rewrite !(ptr_chan g L) by lia.
  fold (valo g m1 (b, r, c)). fold (depth_ptr g m1 (b, r, c)).
  destruct (F32.eqb (F32.float_of_bits (m1 (depth_ptr g m1 (b, r, c)))) (point_z g m1 (b, r, c)));
    [|reflexivity].
  cbn [snd mem]. unfold commit. unfold padd. cbn [fst snd].
  rewrite Z.add_0_l. reflexivity.
Qed.

Lemma backward_mem t d :
  In t (grid_threads nb 256) ->
  mem (exec (backward g t) d) = bw_step g (mem d) t.
Proof.
  intros Ht. unfold backward, projectionGradient, bw_step, exec.
  destruct (Z.leb_spec (npoints g) (thread_id t)) as [A | A].
  { rewrite (proj2 (Z.ltb_ge _ _)) by lia. reflexivity. }
  rewrite (proj2 (Z.ltb_lt _ _)) by lia.
  destruct (active_thread g L t Ht A) as [Hx _].
  fold (cell_of g t). destruct (cell_of g t) as [[b r] c] eqn:Ec.
  rewrite (int_offset_cell g L b r c Hx), (int_offset_imap g L b r c Hx).
  unfold bind, load, ret, store. cbn [fst snd mem].
  change ((IndexMapBuf, 0) +p imap_off g (b, r, c)) with (imap_at g (b, r, c)).
  fold (routed g (mem d) (b, r, c)).
  destruct (routed g (mem d) (b, r, c) =? -1); [reflexivity|].
  cbn [snd mem]. rewrite !(ptr_chan g L) by lia. reflexivity.
Qed.

Lemma run_threads_mem (k : thread -> M unit) (step : memory -> thread -> memory) l :
  (forall t d, In t l -> mem (exec (k t) d) = step (mem d) t) ->
  forall d, mem (exec (run_threads k l) d) = fold_left step l (mem d).
Proof.
  induction l as [ | t l IH]; intros H d.
  - reflexivity.
  - cbn [run_threads fold_left]. unfold exec, bind.
    pose proof (H t d (or_introl eq_refl)) as E. unfold exec in E.
    destruct (k t d) as [u d1]. cbn [snd] in E. rewrite <- E.
    apply IH. intros t' d' Ht'. apply H. right. exact Ht'.
Qed.

Lemma launch_mem (k : thread -> M unit) (step : memory -> thread -> memory) (s : scheduler) :
  fair s ->
  (forall t d, In t (grid_threads nb 256) -> mem (exec (k t) d) = step (mem d) t) ->
  forall d, mem (exec (launch k nb 256 s) d) =
            fold_left step (s (grid_threads nb 256)) (mem d).
Proof.
  intros F H d. unfold launch. apply run_threads_mem.
  intros t d' Ht. apply H. eapply Permutation_in; [apply F | exact Ht].
Qed.
End Steps.

(** *** Memory updates *)

Lemma buffer_eqb_eq a b : buffer_eqb a b = true <-> a = b.
Proof. destruct a, b; cbn; split; congruence. Qed.

Lemma ptr_eqb_eq p q : ptr_eqb p q = true <-> p = q.
Proof.
  destruct p as [a i], q as [b j]. unfold ptr_eqb. cbn [fst snd].
  rewrite andb_true_iff, buffer_eqb_eq, Z.eqb_eq. split.
  - intros [-> ->]. reflexivity.
  - intros E. inversion E. auto.
Qed.

Lemma upd_same m p w : upd m p w p = w.
Proof. unfold upd. rewrite (proj2 (ptr_eqb_eq p p) eq_refl). reflexivity. Qed.

Lemma upd_other m p w q : q <> p -> upd m p w q = m q.
Proof.
  intros N. unfold upd. destruct (ptr_eqb q p) eqn:E; [|reflexivity].
  apply ptr_eqb_eq in E. contradiction.
Qed.

Lemma upd_buf m p w q : fst q <> fst p -> upd m p w q = m q.
Proof. intros N. apply upd_other. intros ->. contradiction. Qed.

Lemma ptr_eq_dec (p q : ptr) : {p = q} + {p <> q}.
Proof.
  destruct (ptr_eqb p q) eqn:E.
  - left. apply ptr_eqb_eq. exact E.
  - right. intros H. apply ptr_eqb_eq in H. congruence.
Qed.

Section SameInput.
Variables (g : grid) (m m' : memory).
Hypothesis S : same_input m m'.

Lemma same_point_x x : point_x g m x = point_x g m' x.
Proof. unfold point_x, chan. rewrite S. reflexivity. Qed.
Lemma same_point_y x : point_y g m x = point_y g m' x.
Proof. unfold point_y, chan. rewrite S. reflexivity. Qed.
Lemma same_point_z x : point_z g m x = point_z g m' x.
Proof. unfold point_z, chan. rewrite S. reflexivity. Qed.
Lemma same_xpix x : xpix g m x = xpix g m' x.
Proof. unfold xpix. rewrite same_point_x, same_point_z. reflexivity. Qed.
Lemma same_ypix x : ypix g m x = ypix g m' x.
Proof. unfold ypix. rewrite same_point_y, same_point_z. reflexivity. Qed.
Lemma same_fires x : fires g m x = fires g m' x.
Proof. unfold fires. rewrite same_point_z, same_xpix, same_ypix. reflexivity. Qed.
Lemma same_projects x : projects g m x = projects g m' x.
Proof. unfold projects. rewrite same_point_z, same_xpix, same_ypix. reflexivity. Qed.
Lemma same_target x : target g m x = target g m' x.
Proof. unfold target. destruct x as [[b r] c]. rewrite same_xpix, same_ypix. reflexivity. Qed.
Lemma same_valo x : valo g m x = valo g m' x.
Proof. unfold valo. destruct x as [[b r] c]. rewrite same_xpix, same_ypix. reflexivity. Qed.
Lemma same_valim x : valim g m x = valim g m' x.
Proof. unfold valim. destruct x as [[b r] c]. rewrite same_xpix, same_ypix. reflexivity. Qed.
Lemma same_depth_ptr x : depth_ptr g m x = depth_ptr g m' x.
Proof. unfold depth_ptr. rewrite same_valo. reflexivity. Qed.
Lemma same_depth_word x : depth_word g m x = depth_word g m' x.
Proof. unfold depth_word. rewrite same_point_z. reflexivity. Qed.
End SameInput.

Lemma same_input_refl m : same_input m m.
Proof. intros a. reflexivity. Qed.

Lemma same_input_trans m1 m2 m3 : same_input m1 m2 -> same_input m2 m3 -> same_input m1 m3.
Proof. intros A B a. rewrite A. apply B. Qed.

Lemma same_input_upd m p w : fst p <> InputBuf -> same_input m (upd m p w).
Proof. intros N a. rewrite upd_buf; [reflexivity|]. cbn. congruence. Qed.

(** *** Pass 1: every word of the output is the least of what it held and
    of the words offered to it *)

Section Pass1.
Variable g : grid.

Lemma p1_step_cases m t :
  (p1_step g m t = m /\ forall p w, ~ offers g m t p w) \/
  (exists p w, offers g m t p w /\ p1_step g m t = min_at m p w).
Proof.
  unfold p1_step, offers.
  destruct (Z.ltb_spec (thread_id t) (npoints g)) as [A | A]; cbn [andb].
  - destruct (fires g m (cell_of g t)) eqn:F.
    + right. eexists _, _. repeat split; auto.
    + left. split; [reflexivity|]. intros p w (_ & F' & _). congruence.
  - left. split; [reflexivity|]. intros p w (A' & _). lia.
Qed.

Lemma depth_ptr_buf m x : fst (depth_ptr g m x) = OutputBuf.
Proof. reflexivity. Qed.

Lemma p1_step_same_input m t : same_input m (p1_step g m t).
Proof.
  destruct (p1_step_cases m t) as [[-> _] | (p & w & (_ & _ & <- & _) & ->)].
  - apply same_input_refl.
  - unfold min_at. apply same_input_upd. cbn. congruence.
Qed.

Lemma offers_same m m' t p w : same_input m m' -> offers g m t p w -> offers g m' t p w.
Proof.
  intros S (A & F & P & W). unfold offers.
  rewrite <- (same_fires g m m' S), <- (same_depth_ptr g m m' S), <- (same_depth_word g m m' S).
  auto.
Qed.

Lemma same_input_sym m m' : same_input m m' -> same_input m' m.
Proof. intros S a. symmetry. apply S. Qed.

Lemma pass1_fold l : forall m,
  let m' := fold_left (p1_step g) l m in
  same_input m m' /\
  (forall p, fst p <> OutputBuf -> m' p = m p) /\
  (forall p, m' p <= m p) /\
  (forall t p w, In t l -> offers g m t p w -> m' p <= w) /\
  (forall p, m' p = m p \/ exists t w, In t l /\ offers g m t p w /\ m' p = w).
Proof.
  induction l as [ | t l IH]; intros m; cbn [fold_left]; cbv zeta.
  - split; [apply same_input_refl|]. split; [reflexivity|]. split; [intros; lia|].
    split; [intros t p w []|]. left. reflexivity.
  - destruct (IH (p1_step g m t)) as (S & Fr & Le & Of & Ex).
    pose proof (p1_step_same_input m t) as S1.
    set (m1 := p1_step g m t) in *. set (m' := fold_left (p1_step g) l m1) in *.
    assert (Le1 : forall p, m1 p <= m p).
    { intros p. subst m1.
      destruct (p1_step_cases m t) as [[-> _] | (q & w & _ & ->)]; [lia|].
      unfold min_at. destruct (ptr_eq_dec p q) as [-> | N].
      - rewrite upd_same. lia.
      - rewrite upd_other by auto. lia. }
    split; [eapply same_input_trans; eauto|].
    split.
    { intros p Hp. rewrite Fr by auto. subst m1.
      destruct (p1_step_cases m t) as [[-> _] | (q & w & (_ & _ & <- & _) & ->)]; [reflexivity|].
      unfold min_at. apply upd_buf. cbn. exact Hp. }
    split; [intros p; specialize (Le p); specialize (Le1 p); lia|].
    split.
    { intros t' p w [<- | Ht'] O.
      - specialize (Le p). subst m1.
        destruct (p1_step_cases m t) as [[_ N] | (q & w' & O' & E)].
        + exfalso. exact (N p w O).
        + destruct O as (_ & _ & Pp & Ww), O' as (_ & _ & Pq & Ww'). subst.
          rewrite E in Le. unfold min_at in Le. rewrite upd_same in Le. lia.
      - apply (Of t' p w Ht'). apply (offers_same m m1); auto. }
    intros p. destruct (Ex p) as [E | (t' & w & Ht' & O & E)].
    + rewrite E. subst m1.
      destruct (p1_step_cases m t) as [[-> _] | (q & w & O & ->)]; [left; reflexivity|].
      unfold min_at. destruct (ptr_eq_dec p q) as [-> | N].
      * rewrite upd_same. destruct (Z.min_spec (m q) w) as [[_ ->] | [_ ->]]; [left; reflexivity|].
        right. exists t, w. split; [left; reflexivity|]. split; auto.
      * rewrite upd_other by auto. left. reflexivity.
    + right. exists t', w. split; [right; exact Ht'|]. split; [|exact E].
      apply (offers_same m1 m); auto. apply same_input_sym. exact S1.
Qed.
End Pass1.

(** *** Float facts used by the passes *)

Lemma eqb_HUGE f : F32.eqb f F32.HUGE_VALF = true <-> f = F32.HUGE_VALF.
Proof.
  split.
  - destruct f as [s | s | | s m e]; try destruct s; cbn; try discriminate; reflexivity.
  - intros ->. reflexivity.
Qed.

Lemma eqb_HUGE_l z : F32.eqb F32.HUGE_VALF z = true <-> z = F32.HUGE_VALF.
Proof.
  split.
  - destruct z as [s | s | | s m e]; try destruct s; cbn; try discriminate; reflexivity.
  - intros ->. reflexivity.
Qed.

Lemma bits_zero : F32.bits_of_float (F32.of_int 0) = 0.
Proof. reflexivity. Qed.

Lemma decode_zero : F32.float_of_bits 0 = S754_zero false.
Proof. reflexivity. Qed.

Lemma nan_projection x fx cx :
  F32.round (F32.add (F32.mul (F32.div x S754_nan) fx) cx) = S754_nan.
Proof. destruct x; reflexivity. Qed.

Lemma in_bounds_nan g y : in_bounds g S754_nan y = false.
Proof. reflexivity. Qed.

(** The guards of the kernels select exactly the points with [z > 0]
    whose rounded projection is within bounds. *)
Lemma fires_projects g m x : fires g m x = projects g m x.
Proof.
  unfold fires, projects, xpix.
  destruct (point_z g m x) as [s | s | | s mz e] eqn:Z.
  - destruct s; reflexivity.
  - destruct s; reflexivity.
  - rewrite nan_projection, in_bounds_nan. reflexivity.
  - destruct s; reflexivity.
Qed.

Lemma fires_positive g m x :
  fires g m x = true -> F32.ltb (F32.of_int 0) (point_z g m x) = true.
Proof.
  rewrite fires_projects. unfold projects. intros H.
  apply andb_prop in H. tauto.
Qed.

Lemma positive_not_zero z :
  F32.ltb (F32.of_int 0) z = true -> F32.eqb (S754_zero false) z = false.
Proof. intros H. destruct z as [s | s | | s m e]; try destruct s; try discriminate H; reflexivity. Qed.

Lemma positive_not_le z :
  F32.ltb (F32.of_int 0) z = true -> F32.leb z (F32.of_int 0) = false.
Proof. intros H. destruct z as [s | s | | s m e]; try destruct s; try discriminate H; reflexivity. Qed.

(** *** Pass 2 *)

Lemma chan_inj g (L : layout_ok g) buf buf' k k' o o' :
  in_grid g o -> in_grid g o' -> 0 <= k <= 2 -> 0 <= k' <= 2 ->
  chan g buf k o = chan g buf' k' o' -> buf = buf' /\ k = k' /\ o = o'.
Proof.
  intros Ho Ho' Hk Hk' E. unfold chan in E. inversion E as [[Eb Ea]].
  destruct (lo_inj g L o o' k k' Ho Ho' Hk Hk' Ea). auto.
Qed.

Lemma imap_inj g (L : layout_ok g) o o' :
  in_grid g o -> in_grid g o' -> imap_at g o = imap_at g o' -> o = o'.
Proof.
  intros Ho Ho' E. unfold imap_at in E. inversion E as [Ea].
  apply (lo_imap_inj g L o o' Ho Ho' Ea).
Qed.

Section Pass2.
Variables (g : grid) (m1 : memory).
Hypothesis L : layout_ok g.
Hypothesis E1 : targets_exact g m1.
Hypothesis NI : depths_below_sentinel g m1.
Let nb := numBlocks_of (npoints g).

Lemma depth_ptr_target m x :
  same_input m1 m -> in_grid g x -> fires g m1 x = true ->
  depth_ptr g m x = chan g OutputBuf 2 (target g m1 x).
Proof.
  intros S Hx F. destruct (E1 x Hx F) as (_ & Ev & _).
  unfold depth_ptr. rewrite <- (same_valo g m1 m S), Ev. reflexivity.
Qed.

Lemma wins_iff m x :
  same_input m1 m -> dep_ok g m1 m -> in_grid g x ->
  wins g m x = true <-> winner g m1 x (target g m1 x).
Proof.
  intros S D Hx. unfold wins, winner.
  rewrite <- (same_fires g m1 m S), <- (same_point_z g m1 m S).
  destruct (fires g m1 x) eqn:F; cbn [andb].
  2:{ split; [discriminate | intros (A & _); discriminate]. }
  rewrite (depth_ptr_target m x S Hx F).
  destruct (E1 x Hx F) as (Ho & _).
  pose proof (fires_positive g m1 x F) as P.
  destruct (D _ Ho) as [-> | [Sn ->]].
  - tauto.
  - rewrite decode_zero, (positive_not_zero _ P).
    split; [discriminate|]. intros (_ & _ & W). exfalso.
    apply eqb_HUGE in Sn. rewrite Sn in W. apply eqb_HUGE_l in W.
    exact (NI x Hx W).
Qed.

Lemma reset_own_cases m x :
  dep_ok g m1 m -> in_grid g x ->
  let m' := reset_own g m x in
  (sentinel_at g m1 x -> m' (chan g OutputBuf 2 x) = 0) /\
  (m' = m \/ (sentinel_at g m1 x /\ m' = upd m (chan g OutputBuf 2 x) 0)).
Proof.
  intros D Hx. unfold reset_own. rewrite bits_zero.
  destruct (F32.eqb (F32.float_of_bits (m (chan g OutputBuf 2 x))) F32.HUGE_VALF) eqn:T.
  - destruct (D x Hx) as [E | [Sn E]].
    + assert (sentinel_at g m1 x) by (unfold sentinel_at; rewrite <- E; exact T).
      split; [intros _; apply upd_same | right; auto].
    + rewrite E, decode_zero in T. discriminate.
  - split; [|left; reflexivity].
    intros Sn. destruct (D x Hx) as [E | [_ E]]; [|exact E].
    unfold sentinel_at in Sn. rewrite <- E in Sn. congruence.
Qed.

Lemma inv_start : inv g m1 [] m1.
Proof.
  constructor.
  - intros t [].
  - apply same_input_refl.
  - intros o Ho. left. reflexivity.
  - intros t [].
  - intros o Ho. left. repeat split; auto.
  - intros p. left. reflexivity.
Qed.

(** Adding a thread that changes nothing but possibly its own depth cell. *)
Lemma inv_reset S m t :
  inv g m1 S m -> In t (grid_threads nb 256) -> thread_id t < npoints g ->
  let m' := reset_own g m (cell_of g t) in
  same_input m1 m' /\ dep_ok g m1 m' /\
  (forall t', In t' (t :: S) -> thread_id t' < npoints g ->
     sentinel_at g m1 (cell_of g t') -> m' (chan g OutputBuf 2 (cell_of g t')) = 0) /\
  (forall p, fst p <> OutputBuf -> m' p = m p) /\
  (forall o k, in_grid g o -> 0 <= k <= 1 -> m' (chan g OutputBuf k o) = m (chan g OutputBuf k o)) /\
  (forall p, m' p = m p \/ p = chan g OutputBuf 2 (cell_of g t)).
Proof.
  intros I Ht A m'. destruct (active_thread g L t Ht A) as [Hx _].
  destruct (reset_own_cases m (cell_of g t) (inv_dep g m1 _ _ I) Hx) as [Z C]. fold m' in Z, C.
  destruct C as [C | [Sn C]]; rewrite C in *.
  - split; [apply (inv_in g m1 _ _ I)|]. split; [apply (inv_dep g m1 _ _ I)|].
    split; [|auto].
    intros t' [<- | Ht'] A' Sn'; [auto | apply (inv_done g m1 _ _ I); auto].
  - split.
    { eapply same_input_trans; [apply (inv_in g m1 _ _ I)|]. apply same_input_upd. cbn. discriminate. }
    split.
    { intros o Ho. destruct (ptr_eq_dec (chan g OutputBuf 2 o) (chan g OutputBuf 2 (cell_of g t))) as [E | N].
      - rewrite E, upd_same. right. split; auto.
        apply chan_inj in E; auto; try lia. destruct E as (_ & _ & ->). exact Sn.
      - rewrite upd_other by auto. apply (inv_dep g m1 _ _ I); auto. }
    split.
    { intros t' [<- | Ht'] A' Sn'; [apply upd_same|].
      destruct (ptr_eq_dec (chan g OutputBuf 2 (cell_of g t')) (chan g OutputBuf 2 (cell_of g t))) as [E | N].
      - rewrite E. apply upd_same.
      - rewrite upd_other by auto. apply (inv_done g m1 _ _ I); auto. }
    split; [intros p Hp; apply upd_buf; cbn; exact Hp|].
    split.
    { intros o k Ho Hk. apply upd_other. intros E.
      apply chan_inj in E; auto; lia. }
    intros p. destruct (ptr_eq_dec p (chan g OutputBuf 2 (cell_of g t))) as [-> | N]; [right; reflexivity|].
    left. apply upd_other. exact N.
Qed.

Lemma cell_eq_dec (o o' : cell) : {o = o'} + {o <> o'}.
Proof. repeat decide equality. Qed.

Lemma commit_eq m x :
  same_input m1 m -> in_grid g x -> fires g m1 x = true ->
  commit g m x =
  upd (upd (upd m (chan g OutputBuf 0 (target g m1 x)) (F32.bits_of_float (xpix g m1 x)))
           (chan g OutputBuf 1 (target g m1 x)) (F32.bits_of_float (ypix g m1 x)))
      (imap_at g (target g m1 x)) (F32.bits_of_float (F32.of_int (cell_off g x))).
Proof.
  intros S Hx F. destruct (E1 x Hx F) as (_ & Ev & Ei).
  unfold commit.
  rewrite <- (same_valo g m1 m S), <- (same_valim g m1 m S),
          <- (same_xpix g m1 m S), <- (same_ypix g m1 m S), Ev, Ei.
  reflexivity.
Qed.

Lemma inv_step S m t :
  inv g m1 S m -> In t (grid_threads nb 256) -> inv g m1 (t :: S) (p2_step g m t).
Proof.
  intros I Ht. unfold p2_step.
  assert (HS : forall t', In t' (t :: S) -> In t' (grid_threads nb 256)).
  { intros t' [<- | Ht']; [exact Ht | apply (inv_threads g m1 _ _ I); exact Ht']. }
  destruct (Z.ltb_spec (thread_id t) (npoints g)) as [A | A].
  2:{ constructor.
      - exact HS.
      - apply (inv_in g m1 _ _ I).
      - apply (inv_dep g m1 _ _ I).
      - intros t' [<- | Ht'] A' Sn; [lia | apply (inv_done g m1 _ _ I); auto].
      - intros o Ho. destruct (inv_idx g m1 _ _ I o Ho) as [(Ei & E0 & E1' & N) | (t' & Ht' & R)].
        + left. repeat split; auto. intros t' [<- | Ht'] A'; [lia | auto].
        + right. exists t'. split; [right; exact Ht' | exact R].
      - apply (inv_frame g m1 _ _ I). }
  destruct (active_thread g L t Ht A) as [Hx _].
  destruct (inv_reset S m t I Ht A) as (Sa & Da & Za & Fa & Ca & Ra).
  set (x := cell_of g t) in *. set (ma := reset_own g m x) in *.
  pose proof (wins_iff ma x Sa Da Hx) as W.
  destruct (wins g ma x) eqn:Wn.
  - (* the thread commits *)
    assert (Wx : winner g m1 x (target g m1 x)) by (apply W; reflexivity).
    assert (F : fires g m1 x = true) by apply Wx.
    destruct (E1 x Hx F) as (Ho' & _).
    rewrite (commit_eq ma x Sa Hx F).
    set (o' := target g m1 x) in *.
    constructor.
    + exact HS.
    + eapply same_input_trans; [exact Sa|].
      eapply same_input_trans; [|apply same_input_upd; cbn; discriminate].
      eapply same_input_trans; [|apply same_input_upd; cbn; discriminate].
      apply same_input_upd; cbn; discriminate.
    + intros o Ho. rewrite upd_buf by (cbn; discriminate).
      rewrite !upd_other by (intros E; apply chan_inj in E; auto; lia).
      apply Da; auto.
    + intros t' Ht' A' Sn. rewrite upd_buf by (cbn; discriminate).
      destruct (active_thread g L t' (HS t' Ht') A') as [Hx' _].
      rewrite !upd_other by (intros E; apply chan_inj in E; auto; lia).
      apply Za; auto.
    + intros o Ho. destruct (cell_eq_dec o o') as [-> | N].
      * right. exists t. split; [left; reflexivity|]. split; [exact A|]. split; [exact Wx|].
        split; [apply upd_same|].
        split.
        -- rewrite upd_buf by (cbn; discriminate).
           rewrite upd_other by (intros E; apply chan_inj in E; auto; lia).
           apply upd_same.
        -- rewrite upd_buf by (cbn; discriminate). apply upd_same.
      * assert (Ki : forall w, upd (upd (upd ma (chan g OutputBuf 0 o') (F32.bits_of_float (xpix g m1 x)))
                   (chan g OutputBuf 1 o') (F32.bits_of_float (ypix g m1 x))) (imap_at g o') w (imap_at g o) = m (imap_at g o)).
        { intros w. rewrite upd_other by (intros E; apply imap_inj in E; auto).
          rewrite !upd_buf by (cbn; discriminate). apply Fa. cbn. discriminate. }
        assert (Kc : forall w k, 0 <= k <= 1 ->
                   upd (upd (upd ma (chan g OutputBuf 0 o') (F32.bits_of_float (xpix g m1 x)))
                   (chan g OutputBuf 1 o') (F32.bits_of_float (ypix g m1 x))) (imap_at g o') w (chan g OutputBuf k o) = m (chan g OutputBuf k o)).
        { intros w k Hk. rewrite upd_buf by (cbn; discriminate).
          rewrite !upd_other by (intros E; apply chan_inj in E; auto; try lia; destruct E as (_ & _ & E); auto).
          apply Ca; auto. }
        rewrite Ki, !Kc by lia.
        destruct (inv_idx g m1 _ _ I o Ho) as [(Ei & E0 & E1' & Nw) | (t' & Ht' & R)].
        -- left. repeat split; auto. intros t' [<- | Ht'] A'; [|auto].
           intros (_ & T & _). apply N. symmetry. exact T.
        -- right. exists t'. split; [right; exact Ht' | exact R].
    + intros p.
      destruct (ptr_eq_dec p (imap_at g o')) as [-> | Ni];
        [right; exists o'; auto|].
      destruct (ptr_eq_dec p (chan g OutputBuf 1 o')) as [-> | N1];
        [right; exists o'; auto|].
      destruct (ptr_eq_dec p (chan g OutputBuf 0 o')) as [-> | N0];
        [right; exists o'; auto|].
      rewrite !upd_other by auto.
      destruct (Ra p) as [-> | ->]; [apply (inv_frame g m1 _ _ I) | right; exists x; auto].
  - (* the thread does not commit *)
    constructor.
    + exact HS.
    + exact Sa.
    + exact Da.
    + exact Za.
    + intros o Ho. rewrite (Fa (imap_at g o)) by (cbn; discriminate).
      rewrite !Ca by (auto; lia).
      destruct (inv_idx g m1 _ _ I o Ho) as [(Ei & E0 & E1' & Nw) | (t' & Ht' & R)].
      * left. repeat split; auto. intros t' [<- | Ht'] A'; [|auto].
        intros Wo. assert (T : target g m1 x = o) by apply Wo. rewrite <- T in Wo.
        apply W in Wo. discriminate.
      * right. exists t'. split; [right; exact Ht' | exact R].
    + intros p. destruct (Ra p) as [-> | ->]; [apply (inv_frame g m1 _ _ I) | right; exists x; auto].
Qed.

Lemma inv_fold l : forall S m,
  (forall t, In t l -> In t (grid_threads nb 256)) ->
  inv g m1 S m -> inv g m1 (rev l ++ S) (fold_left (p2_step g) l m).
Proof.
  induction l as [ | t l IH]; intros S m Hl I; cbn [fold_left rev app].
  - exact I.
  - rewrite <- app_assoc. cbn [app]. apply IH.
    + intros t' Ht'. apply Hl. right. exact Ht'.
    + apply inv_step; [exact I | apply Hl; left; reflexivity].
Qed.
End Pass2.
(** *** The host functions on a well-formed grid *)

Section Host.
Variable g : grid.
Hypothesis L : layout_ok g.
Let nb := numBlocks_of (npoints g).

Lemma npoints_wrap :
  wrap32 (wrap32 (wrap32 (batchSize g) * wrap32 (nrows g)) * wrap32 (ncols g)) = npoints g.
Proof.
  pose proof (npoints_nonneg g L) as N. destruct L. unfold npoints in *.
  rewrite (wrap32_fits (batchSize g)), (wrap32_fits (nrows g)), (wrap32_fits (ncols g))
    by (unfold fits_int; lia).
  assert (0 <= batchSize g * nrows g) by nia.
  assert (batchSize g * nrows g <= batchSize g * nrows g * ncols g) by nia.
  rewrite (wrap32_fits (batchSize g * nrows g)) by (unfold fits_int; lia).
  apply wrap32_fits. unfold fits_int. lia.
Qed.

Lemma forward_exec s1 s2 d :
  exec (OccMap_cuda_forward (input_t g) (indexmap_t g) (output_t g)
          (fy g) (fx g) (cy g) (cx g) s1 s2) d =
  exec (launch (pass2 g) nb 256 s2) (exec (launch (pass1 g) nb 256 s1) d).
Proof.
  unfold OccMap_cuda_forward, size, stride, input_t, indexmap_t, output_t.
  cbn [sizes strides data nth].
  rewrite npoints_wrap.
  destruct (lo_strides g L) as (F0 & F1 & F2 & F3 & G0 & G1 & G2 & G3).
  pose proof (lo_batch g L). pose proof (lo_rows g L). pose proof (lo_cols g L).
  rewrite !wrap32_fits by (assumption || (unfold fits_int; lia)).
  fold (pass1 g) (pass2 g). fold nb.
  change (negb (3 =? 3)) with false. cbv iota.
  unfold exec, bind, ret.
  destruct (launch (pass1 g) nb 256 s1 d) as [u d1]. cbn [snd].
  destruct (launch (pass2 g) nb 256 s2 d1) as [u' d2].
  destruct (launch_refused nb); reflexivity.
Qed.

Lemma backward_exec s d :
  exec (OccMap_cuda_backward (input_t g) (indexmap_t g) (gradInput_t g) (gradOutput_t g)
          (fy g) (fx g) (cy g) (cx g) s) d =
  exec (launch (backward g) nb 256 s) d.
Proof.
  unfold OccMap_cuda_backward, size, stride, input_t, indexmap_t, gradInput_t, gradOutput_t.
  cbn [sizes strides data nth].
  rewrite npoints_wrap.
  destruct (lo_strides g L) as (F0 & F1 & F2 & F3 & G0 & G1 & G2 & G3).
  pose proof (lo_batch g L). pose proof (lo_rows g L). pose proof (lo_cols g L).
  rewrite !wrap32_fits by (assumption || (unfold fits_int; lia)).
  fold (backward g). fold nb.
  change (negb (3 =? 3)) with false. cbv iota.
  unfold exec, bind, ret.
  destruct (launch (backward g) nb 256 s d) as [u d1].
  destruct (launch_refused nb); reflexivity.
Qed.
End Host.

Lemma decoded_pos_range w f : decoded_pos w f -> 0 <= w <= infbits.
Proof.
  intros D. destruct D; subst; unfold infbits in *; change (2 ^ 23) with 8388608 in *; lia.
Qed.

Lemma decoded_pos_fun w f : decoded_pos w f -> F32.float_of_bits w = f.
Proof.
  intros D. pose proof (float_of_bits_pos w (decoded_pos_range w f D)) as D'.
  destruct D as [-> | m Hw Hm | m e Hw Hm He Hq | ->].
  - reflexivity.
  - inversion D' as [E | m' Hw' Hm' | m' e' Hw' | E]; subst; try (unfold infbits in *; lia).
    f_equal. lia.
  - inversion D' as [E | m' Hw' Hm' | m' e' Hw' Hm' He' Hq' | E]; subst; try (unfold infbits in *; lia).
    f_equal; lia.
  - reflexivity.
Qed.

Lemma depth_word_decoded g m x :
  fires g m x = true -> decoded_pos (depth_word g m x) (point_z g m x).
Proof.
  intros F. pose proof (fires_positive g m x F) as P.
  assert (V : valid_binary F32.prec F32.emax (point_z g m x) = true)
    by apply float_of_bits_valid.
  pose proof (valid_pos_decoded _ V P) as D.
  pose proof (decoded_pos_range _ _ D) as R. unfold infbits in R.
  unfold depth_word, F32.float_as_int.
  rewrite (proj2 (Z.ltb_lt _ _)) by lia.
  rewrite to_uint32_small by lia. exact D.
Qed.

Lemma eqb_refl_decoded w f : decoded_pos w f -> F32.eqb f f = true.
Proof.
  intros D. unfold F32.eqb, SFeqb. rewrite (compare_decoded w w f f D D), Z.compare_refl.
  reflexivity.
Qed.

Lemma leb_decoded a b fa fb :
  decoded_pos a fa -> decoded_pos b fb -> F32.leb fa fb = (a <=? b).
Proof.
  intros Da Db. unfold F32.leb, SFleb. rewrite (compare_decoded a b fa fb Da Db).
  unfold Z.leb. destruct (a ?= b); reflexivity.
Qed.

Lemma eqb_decoded a b fa fb :
  decoded_pos a fa -> decoded_pos b fb -> F32.eqb fa fb = (a =? b).
Proof.
  intros Da Db. unfold F32.eqb, SFeqb. rewrite (compare_decoded a b fa fb Da Db).
  destruct (Z.compare_spec a b); destruct (Z.eqb_spec a b); try reflexivity; lia.
Qed.

Lemma fair_in (s : scheduler) l t : fair s -> In t l -> In t (s l).
Proof. intros F H. eapply Permutation_in; [apply Permutation_sym, F | exact H]. Qed.

Lemma fair_in_inv (s : scheduler) l t : fair s -> In t (s l) -> In t l.
Proof. intros F H. eapply Permutation_in; [apply F | exact H]. Qed.

Section Pass1Cells.
Variables (g : grid) (m0 : memory) (s1 : scheduler).
Hypothesis L : layout_ok g.
Hypothesis F1 : fair s1.
Hypothesis PD : depth_prefilled g m0.
Hypothesis E1 : targets_exact g m0.
Let nb := numBlocks_of (npoints g).
Let m1 := fold_left (p1_step g) (s1 (grid_threads nb 256)) m0.

Lemma lands_offers x o :
  in_grid g x -> lands_on g m0 x o ->
  offers g m0 (thread_of g x) (chan g OutputBuf 2 o) (depth_word g m0 x).
Proof.
  intros Hx [P T]. destruct (thread_of_spec g L x Hx) as (_ & Hid & Hc).
  rewrite <- fires_projects in P.
  unfold offers. rewrite Hc, Hid. split; [apply (flat_id_bound g L x Hx)|].
  split; [exact P|]. split; [|reflexivity].
  destruct (E1 x Hx P) as (_ & Ev & _). unfold depth_ptr. rewrite Ev, T. reflexivity.
Qed.

Lemma offers_lands t o w :
  In t (grid_threads nb 256) -> in_grid g o ->
  offers g m0 t (chan g OutputBuf 2 o) w ->
  in_grid g (cell_of g t) /\ lands_on g m0 (cell_of g t) o /\ w = depth_word g m0 (cell_of g t) /\
  fires g m0 (cell_of g t) = true.
Proof.
  intros Ht Ho (A & F & P & W). destruct (active_thread g L t Ht A) as [Hx _].
  destruct (E1 _ Hx F) as (Ho' & Ev & _).
  unfold depth_ptr in P. rewrite Ev in P.
  change (OutputBuf, 2 * is1 g + cell_off g (target g m0 (cell_of g t)))
    with (chan g OutputBuf 2 (target g m0 (cell_of g t))) in P.
  apply chan_inj in P; auto; try lia. destruct P as (_ & _ & T).
  split; [exact Hx|].
  split; [split; [rewrite <- fires_projects; exact F | exact T]|].
  split; [symmetry; exact W | exact F].
Qed.

Lemma pass1_cells o :
  in_grid g o ->
  let w := m1 (chan g OutputBuf 2 o) in
  decoded_pos w (F32.float_of_bits w) /\
  (forall x, in_grid g x -> lands_on g m0 x o ->
     F32.leb (F32.float_of_bits w) (point_z g m0 x) = true) /\
  (w = F32.bits_of_float F32.HUGE_VALF \/
   exists x, in_grid g x /\ lands_on g m0 x o /\ F32.float_of_bits w = point_z g m0 x).
Proof.
  intros Ho w.
  destruct (pass1_fold g (s1 (grid_threads nb 256)) m0) as (S & Fr & Le & Of & Ex).
  fold m1 in S, Fr, Le, Of, Ex.
  assert (Last : w = F32.bits_of_float F32.HUGE_VALF \/
            exists x, in_grid g x /\ lands_on g m0 x o /\ fires g m0 x = true /\
                      w = depth_word g m0 x).
  { destruct (Ex (chan g OutputBuf 2 o)) as [E | (t & w' & Ht & O & E)].
    - left. unfold w. rewrite E. apply PD. exact Ho.
    - right. apply (fair_in_inv s1 _ _ F1) in Ht.
      destruct (offers_lands t o w' Ht Ho O) as (Hx & Ld & -> & F).
      exists (cell_of g t). auto. }
  assert (D : decoded_pos w (F32.float_of_bits w)).
  { destruct Last as [-> | (x & Hx & Ld & F & ->)].
    - apply dec_inf. reflexivity.
    - pose proof (depth_word_decoded g m0 x F) as D.
      rewrite (decoded_pos_fun _ _ D). exact D. }
  split; [exact D|]. split.
  - intros x Hx Ld. pose proof (lands_offers x o Hx Ld) as O.
    assert (F : fires g m0 x = true) by (rewrite fires_projects; apply Ld).
    pose proof (Of (thread_of g x) _ _
                  (fair_in s1 _ _ F1 (proj1 (thread_of_spec g L x Hx))) O) as Hle.
    rewrite (leb_decoded _ _ _ _ D (depth_word_decoded g m0 x F)).
    apply Z.leb_le. exact Hle.
  - destruct Last as [E | (x & Hx & Ld & F & E)]; [left; exact E|].
    right. exists x. repeat split; auto; try apply Ld.
    rewrite E. apply decoded_pos_fun. apply depth_word_decoded. exact F.
Qed.
End Pass1Cells.

Lemma targets_exact_same g m m' : same_input m m' -> targets_exact g m -> targets_exact g m'.
Proof.
  intros S E x Hx F. rewrite <- (same_fires g m m' S) in F.
  rewrite <- (same_target g m m' S), <- (same_valo g m m' S), <- (same_valim g m m' S).
  apply E; auto.
Qed.

Lemma depths_below_same g m m' :
  same_input m m' -> depths_below_sentinel g m -> depths_below_sentinel g m'.
Proof.
  intros S N x Hx. rewrite <- (same_point_z g m m' S). apply N. exact Hx.
Qed.

Lemma lands_on_same g m m' x o : same_input m m' -> lands_on g m x o -> lands_on g m' x o.
Proof.
  intros S [P T]. split.
  - rewrite <- (same_projects g m m' S). exact P.
  - rewrite <- (same_target g m m' S). exact T.
Qed.

Lemma in_rev_iff {A} (l : list A) x : In x (rev l ++ []) <-> In x l.
Proof. rewrite app_nil_r. symmetry. apply in_rev. Qed.

(** *** Forward: the state after both passes *)

Section Forward.
Variables (g : grid) (m0 : memory) (s1 s2 : scheduler).
Hypothesis L : layout_ok g.
Hypothesis F1 : fair s1.
Hypothesis F2 : fair s2.
Hypothesis PD : depth_prefilled g m0.
Hypothesis E1 : targets_exact g m0.
Hypothesis NI : depths_below_sentinel g m0.
Let nb := numBlocks_of (npoints g).
Let m1 := fold_left (p1_step g) (s1 (grid_threads nb 256)) m0.
Let m2 := fold_left (p2_step g) (s2 (grid_threads nb 256)) m1.

Lemma forward_same_input : same_input m0 m1.
Proof. apply (pass1_fold g (s1 (grid_threads nb 256)) m0). Qed.

Lemma forward_inv : inv g m1 (rev (s2 (grid_threads nb 256)) ++ []) m2.
Proof.
  apply inv_fold.
  - exact L.
  - apply (targets_exact_same g m0 m1 forward_same_input E1).
  - apply (depths_below_same g m0 m1 forward_same_input NI).
  - intros t Ht. apply (fair_in_inv s2 _ _ F2 Ht).
  - apply inv_start.
Qed.

Lemma thread_ran x :
  in_grid g x -> In (thread_of g x) (rev (s2 (grid_threads nb 256)) ++ []).
Proof.
  intros Hx. apply in_rev_iff. apply fair_in; [exact F2|].
  apply (thread_of_spec g L x Hx).
Qed.

Lemma winner_lands x o : in_grid g x -> winner g m1 x o -> lands_on g m0 x o.
Proof.
  intros Hx (F & T & _). pose proof forward_same_input as S. split.
  - rewrite (same_projects g m0 m1 S), <- fires_projects. exact F.
  - rewrite (same_target g m0 m1 S). exact T.
Qed.

Lemma pass1_frame p :
  m1 p = m0 p \/ exists o, in_grid g o /\ p = chan g OutputBuf 2 o.
Proof.
  destruct (pass1_fold g (s1 (grid_threads nb 256)) m0) as (_ & _ & _ & _ & Ex).
  fold m1 in Ex. destruct (Ex p) as [E | (t & w & Ht & (A & F & P & W) & E)]; [left; exact E|].
  right. apply (fair_in_inv s1 _ _ F1) in Ht.
  destruct (active_thread g L t Ht A) as [Hx _].
  destruct (E1 _ Hx F) as (Ho & Ev & _).
  exists (target g m0 (cell_of g t)). split; [exact Ho|].
  rewrite <- P. unfold depth_ptr. rewrite Ev. reflexivity.
Qed.

Lemma pass1_keeps_coords o k :
  in_grid g o -> 0 <= k <= 1 -> m1 (chan g OutputBuf k o) = m0 (chan g OutputBuf k o).
Proof.
  intros Ho Hk. destruct (pass1_frame (chan g OutputBuf k o)) as [E | (o' & Ho' & E)]; [exact E|].
  apply chan_inj in E; auto; lia.
Qed.

Lemma forward_cells o :
  in_grid g o -> unclaimed g m0 m1 m2 o \/ exists x, claimed_by g m0 m1 m2 o x.
Proof.
  intros Ho. pose proof forward_same_input as S.
  pose proof forward_inv as I.
  destruct (pass1_fold g (s1 (grid_threads nb 256)) m0) as (_ & Fr & _).
  fold m1 in Fr.
  destruct (pass1_cells g m0 s1 L F1 PD E1 o Ho) as (D & Lb & Last).
  fold nb in D, Lb, Last. fold m1 in D, Lb, Last.
  set (w := m1 (chan g OutputBuf 2 o)) in *.
  destruct (Z.eq_dec w (F32.bits_of_float F32.HUGE_VALF)) as [Ew | Nw].
  - (* the sentinel survived pass 1 *)
    left.
    assert (Sn : sentinel_at g m1 o).
    { unfold sentinel_at. fold w. rewrite Ew. reflexivity. }
    assert (NoL : forall x, in_grid g x -> ~ lands_on g m0 x o).
    { intros x Hx Ld. pose proof (Lb x Hx Ld) as Hle.
      assert (F : fires g m0 x = true) by (rewrite fires_projects; apply Ld).
      pose proof (depth_word_decoded g m0 x F) as Dz.
      rewrite (leb_decoded _ _ _ _ D Dz) in Hle. apply Z.leb_le in Hle.
      pose proof (decoded_pos_range _ _ Dz) as R.
      assert (Eb : depth_word g m0 x = infbits)
        by (rewrite Ew in Hle; change (bits_of_float HUGE_VALF) with infbits in Hle; lia).
      apply (NI x Hx). rewrite <- (decoded_pos_fun _ _ Dz), Eb. reflexivity. }
    unfold unclaimed. fold w. split; [exact Ew|].
    split.
    { pose proof (inv_done g m1 _ _ I (thread_of g o) (thread_ran o Ho)) as Dn.
      destruct (thread_of_spec g L o Ho) as (_ & Hid & Hc).
      rewrite Hc, Hid in Dn. apply Dn; [apply (flat_id_bound g L o Ho) | exact Sn]. }
    destruct (inv_idx g m1 _ _ I o Ho) as [(Ei & E0 & E1' & _) | (t & Ht & A & W & _)].
    + rewrite Ei, E0, E1'. rewrite Fr by (cbn; discriminate).
      rewrite !pass1_keeps_coords by (auto; lia). auto.
    + exfalso. pose proof (inv_threads g m1 _ _ I t Ht) as HtG.
      destruct (active_thread g L t HtG A) as [Hx _].
      apply (NoL _ Hx). apply winner_lands; auto.
  - (* some point claimed the cell in pass 1 *)
    right. destruct Last as [Ew | (x0 & Hx0 & Ld0 & E0)]; [contradiction|].
    assert (F0 : fires g m0 x0 = true) by (rewrite fires_projects; apply Ld0).
    pose proof (depth_word_decoded g m0 x0 F0) as Dz0.
    assert (NSn : ~ sentinel_at g m1 o).
    { unfold sentinel_at. fold w. rewrite E0. intros Sn. apply eqb_HUGE in Sn.
      exact (NI x0 Hx0 Sn). }
    assert (W0 : winner g m1 x0 o).
    { split; [rewrite <- (same_fires g m0 m1 S); exact F0|].
      split; [rewrite <- (same_target g m0 m1 S); apply Ld0|].
      fold w. rewrite E0, <- (same_point_z g m0 m1 S).
      apply (eqb_refl_decoded _ _ Dz0). }
    destruct (inv_idx g m1 _ _ I o Ho) as [(_ & _ & _ & N) | (t & Ht & A & W & Ei & Ec0 & Ec1)].
    + exfalso. destruct (thread_of_spec g L x0 Hx0) as (_ & Hid & Hc).
      apply (N (thread_of g x0) (thread_ran x0 Hx0)).
      * rewrite Hid. apply (flat_id_bound g L x0 Hx0).
      * rewrite Hc. exact W0.
    + pose proof (inv_threads g m1 _ _ I t Ht) as HtG.
      destruct (active_thread g L t HtG A) as [Hx _].
      set (x := cell_of g t) in *. exists x.
      pose proof (winner_lands x o Hx W) as Ld.
      assert (F : fires g m0 x = true) by (rewrite fires_projects; apply Ld).
      pose proof (depth_word_decoded g m0 x F) as Dz.
      destruct W as (_ & _ & Weq). fold w in Weq.
      rewrite <- (same_point_z g m0 m1 S) in Weq.
      rewrite (eqb_decoded _ _ _ _ D Dz) in Weq. apply Z.eqb_eq in Weq.
      assert (Eb : w = bits_of_float (point_z g m0 x)).
      { rewrite Weq. symmetry. apply bits_of_decoded_pos. exact Dz. }
      assert (E2 : m2 (chan g OutputBuf 2 o) = w).
      { destruct (inv_dep g m1 _ _ I o Ho) as [E | [Sn _]]; [exact E | contradiction]. }
      unfold claimed_by. rewrite E2. fold w.
      split; [exact Hx|]. split; [exact Ld|]. split; [exact Eb|]. split; [exact Eb|].
      split; [rewrite Weq; apply (decoded_pos_fun _ _ Dz)|].
      split.
      { intros x' Hx' Ld'. pose proof (Lb x' Hx' Ld') as Hle.
        rewrite Weq, (decoded_pos_fun _ _ Dz) in Hle. exact Hle. }
      rewrite Ei, Ec0, Ec1.
      rewrite <- (same_xpix g m0 m1 S), <- (same_ypix g m0 m1 S). auto.
Qed.


Lemma forward_input_kept : same_input m0 m2.
Proof.
  eapply same_input_trans; [apply forward_same_input | apply (inv_in g m1 _ _ forward_inv)].
Qed.
End Forward.

(** *** Backward *)

Section Backward.
Variables (g : grid) (m0 : memory).
Hypothesis L : layout_ok g.
Hypothesis RO : routes_ok g m0.
Let nb := numBlocks_of (npoints g).

Lemma same_sources_routed m o : same_sources m0 m -> routed g m o = routed g m0 o.
Proof. intros S. unfold routed. rewrite <- S by (cbn; discriminate). reflexivity. Qed.

Lemma same_sources_grad m k o : same_sources m0 m -> grad_word g m k o = grad_word g m0 k o.
Proof.
  intros S. unfold grad_word, grad0, grad1, grad2, in_at, gout.
  rewrite (same_sources_routed m o S).
  rewrite <- !S by (cbn; discriminate). reflexivity.
Qed.

Lemma route_eq m o :
  same_sources m0 m ->
  route g m o =
  upd (upd (upd m (grad_ptr g m0 0 o) (grad_word g m0 0 o))
           (grad_ptr g m0 1 o) (grad_word g m0 1 o))
      (grad_ptr g m0 2 o) (grad_word g m0 2 o).
Proof.
  intros S. unfold route. cbv zeta.
  rewrite <- !(same_sources_grad m _ o S). unfold grad_ptr.
  rewrite (same_sources_routed m o S). reflexivity.
Qed.

Lemma grad_ptr_inj o o' k k' :
  in_grid g o -> in_grid g o' -> routed g m0 o <> -1 -> routed g m0 o' <> -1 ->
  0 <= k <= 2 -> 0 <= k' <= 2 ->
  grad_ptr g m0 k o = grad_ptr g m0 k' o' -> k = k' /\ o = o'.
Proof.
  intros Ho Ho' N N' Hk Hk' E. destruct RO as [R1 R2].
  destruct (R1 o Ho) as [? | (x & Hx & Ex)]; [contradiction|].
  destruct (R1 o' Ho') as [? | (x' & Hx' & Ex')]; [contradiction|].
  unfold grad_ptr in E. inversion E as [Ea]. rewrite Ex, Ex' in Ea.
  destruct (lo_inj g L x x' k k' Hx Hx' Hk Hk' Ea) as [-> ->].
  split; [reflexivity|]. apply R2; auto. congruence.
Qed.

Lemma bw_start : bw_inv g m0 [] m0.
Proof.
  constructor.
  - intros t [].
  - intros p _. reflexivity.
  - intros t k [].
  - intros p. left. reflexivity.
Qed.

Lemma bw_inv_step S m t :
  bw_inv g m0 S m -> In t (grid_threads nb 256) -> bw_inv g m0 (t :: S) (bw_step g m t).
Proof.
  intros I Ht. unfold bw_step.
  assert (HS : forall t', In t' (t :: S) -> In t' (grid_threads nb 256)).
  { intros t' [<- | Ht']; [exact Ht | apply (bw_threads _ _ _ _ I); exact Ht']. }
  pose proof (bw_src _ _ _ _ I) as Src.
  destruct (Z.ltb_spec (thread_id t) (npoints g)) as [A | A].
  2:{ constructor; auto.
      - intros t' k [<- | Ht'] A'; [lia | apply (bw_done _ _ _ _ I); auto].
      - apply (bw_frame _ _ _ _ I). }
  destruct (active_thread g L t Ht A) as [Hx _]. set (x := cell_of g t) in *.
  rewrite (same_sources_routed m x Src).
  destruct (Z.eqb_spec (routed g m0 x) (-1)) as [R | R].
  { constructor; auto.
    - intros t' k [<- | Ht'] A' N; [fold x in N; contradiction | apply (bw_done _ _ _ _ I); auto].
    - apply (bw_frame _ _ _ _ I). }
  rewrite (route_eq m x Src).
  assert (At : forall k, 0 <= k <= 2 ->
            upd (upd (upd m (grad_ptr g m0 0 x) (grad_word g m0 0 x))
                     (grad_ptr g m0 1 x) (grad_word g m0 1 x))
                (grad_ptr g m0 2 x) (grad_word g m0 2 x) (grad_ptr g m0 k x) = grad_word g m0 k x).
  { intros k Hk. assert (k = 0 \/ k = 1 \/ k = 2) as [-> | [-> | ->]] by lia.
    - rewrite !upd_other by (intros E; apply grad_ptr_inj in E; auto; lia). apply upd_same.
    - rewrite upd_other by (intros E; apply grad_ptr_inj in E; auto; lia). apply upd_same.
    - apply upd_same. }
  assert (Ot : forall p, (forall k, 0 <= k <= 2 -> p <> grad_ptr g m0 k x) ->
            upd (upd (upd m (grad_ptr g m0 0 x) (grad_word g m0 0 x))
                     (grad_ptr g m0 1 x) (grad_word g m0 1 x))
                (grad_ptr g m0 2 x) (grad_word g m0 2 x) p = m p).
  { intros p Hp. rewrite !upd_other by (apply Hp; lia). reflexivity. }
  constructor.
  - exact HS.
  - intros p Hp. rewrite Ot; [apply Src; exact Hp|].
    intros k _ ->. apply Hp. reflexivity.
  - intros t' k Ht' A' N Hk.
    destruct (active_thread g L t' (HS t' Ht') A') as [Hx' _].
    destruct (cell_eq_dec (cell_of g t') x) as [Ex | Nx]; [rewrite Ex; apply At; exact Hk|].
    rewrite Ot.
    + destruct Ht' as [<- | Ht']; [contradiction Nx; reflexivity|].
      apply (bw_done _ _ _ _ I); auto.
    + intros k' Hk' E. apply grad_ptr_inj in E; auto. destruct E as [_ E]. contradiction.
  - intros p.
    destruct (ptr_eq_dec p (grad_ptr g m0 0 x)) as [-> | N0];
      [right; exists x, 0; split; [exact Hx|]; split; [exact R|]; split; [lia|]; split; [reflexivity | apply At; lia]|].
    destruct (ptr_eq_dec p (grad_ptr g m0 1 x)) as [-> | N1];
      [right; exists x, 1; split; [exact Hx|]; split; [exact R|]; split; [lia|]; split; [reflexivity | apply At; lia]|].
    destruct (ptr_eq_dec p (grad_ptr g m0 2 x)) as [-> | N2];
      [right; exists x, 2; split; [exact Hx|]; split; [exact R|]; split; [lia|]; split; [reflexivity | apply At; lia]|].
    rewrite Ot.
    + apply (bw_frame _ _ _ _ I).
    + intros k Hk. assert (k = 0 \/ k = 1 \/ k = 2) as [-> | [-> | ->]] by lia; assumption.
Qed.

Lemma bw_inv_fold l : forall S m,
  (forall t, In t l -> In t (grid_threads nb 256)) ->
  bw_inv g m0 S m -> bw_inv g m0 (rev l ++ S) (fold_left (bw_step g) l m).
Proof.
  induction l as [ | t l IH]; intros S m Hl I; cbn [fold_left rev app].
  - exact I.
  - rewrite <- app_assoc. cbn [app]. apply IH.
    + intros t' Ht'. apply Hl. right. exact Ht'.
    + apply bw_inv_step; [exact I | apply Hl; left; reflexivity].
Qed.
End Backward.

(** *** Small integers are floats *)

Lemma iter_xO_spec (p : positive) (k : positive) :
  Z.pos (Pos.iter xO p k) = Z.pos p * 2 ^ Z.pos k.
Proof.
  revert p. induction k using Pos.peano_ind; intros p.
  - rewrite Pos.iter_succ_r || cbn. cbn. lia.
  - rewrite Pos.iter_succ. rewrite Pos2Z.inj_xO, IHk, Pos2Z.inj_succ, Z.pow_succ_r by lia. lia.
Qed.

Lemma binary_round_aux_canonical s m e :
  Z.pos (digits2_pos m) = 24 -> -149 <= e <= 104 ->
  binary_round_aux prec emax s (Z.pos m) e loc_Exact = S754_finite s m e.
Proof.
  intros Hd He.
  unfold binary_round_aux, shr_fexp, fexp, SpecFloat.emin, prec, emax, Zdigits2.
  cbn [shr_record_of_loc]. rewrite Hd.
  replace (Z.max (24 + e - 24) (3 - 128 - 24) - e) with 0 by lia.
  cbn [shr shr_m loc_of_shr_record round_nearest_even Zdigits2]. rewrite Hd.
  replace (Z.max (24 + e - 24) (3 - 128 - 24) - e) with 0 by lia.
  cbn [shr shr_m shr_record_of_loc].
  rewrite (proj2 (Z.leb_le e (128 - 24))) by lia. reflexivity.
Qed.

(** The float of an integer of at most 24 bits. *)
Lemma of_int_small (n : positive) :
  Z.pos n < 2 ^ 24 ->
  let d := Z.pos (digits2_pos n) in
  exists m, of_int (Z.pos n) = S754_finite false m (d - 24) /\
            Z.pos m = Z.pos n * 2 ^ (24 - d) /\ Z.pos (digits2_pos m) = 24.
Proof.
  intros Hn d. pose proof (digits2_pos_bounds n) as B. fold d in B.
  assert (Hd : 1 <= d <= 24).
  { split; [unfold d; lia|]. destruct (Z_le_gt_dec d 24); auto.
    assert (2 ^ 24 <= 2 ^ (d - 1)) by (apply Z.pow_le_mono_r; lia). lia. }
  unfold of_int, binary_normalize, binary_round.
  unfold shl_align, fexp, SpecFloat.emin, prec, emax. fold d.
  replace (Z.max (d + 0 - 24) (3 - 128 - 24)) with (d - 24) by lia.
  replace (d - 24 - 0) with (d - 24) by lia.
  destruct (d - 24) as [ | k | k] eqn:K; try lia.
  - exists n. replace (24 - d) with 0 by lia.
    split; [apply binary_round_aux_canonical; unfold d in *; lia|].
    split; [lia | unfold d in *; lia].
  - exists (Pos.iter xO n k).
    assert (Dm : Z.pos (digits2_pos (Pos.iter xO n k)) = 24).
    { apply digits2_pos_unique. rewrite iter_xO_spec.
      replace (Z.pos k) with (24 - d) by lia.
      replace (2 ^ (24 - 1)) with (2 ^ (d - 1) * 2 ^ (24 - d))
        by (rewrite <- Z.pow_add_r by lia; f_equal; lia).
      replace (2 ^ 24) with (2 ^ d * 2 ^ (24 - d))
        by (rewrite <- Z.pow_add_r by lia; f_equal; lia).
      assert (0 < 2 ^ (24 - d)) by (apply Z.pow_pos_nonneg; lia). nia. }
    split; [apply binary_round_aux_canonical; [exact Dm | lia]|].
    split; [rewrite iter_xO_spec; f_equal; f_equal; lia | exact Dm].
Qed.

Lemma stored_offset_small v : 0 <= v <= 2 ^ 24 -> stored_offset v = v.
Proof.
  intros Hv. destruct (Z.eq_dec v 0) as [-> | N0]; [reflexivity|].
  destruct (Z.eq_dec v (2 ^ 24)) as [-> | N1]; [reflexivity|].
  destruct v as [ | n | n]; try lia.
  destruct (of_int_small n ltac:(lia)) as (m & E & Hm & Dm).
  set (d := Z.pos (digits2_pos n)) in *.
  pose proof (digits2_pos_bounds n) as Bn. fold d in Bn.
  pose proof (digits2_pos_bounds m) as Bm. rewrite Dm in Bm.
  assert (Hd : 1 <= d <= 24).
  { split; [unfold d; lia|]. destruct (Z_le_gt_dec d 24); auto.
    assert (2 ^ 24 <= 2 ^ (d - 1)) by (apply Z.pow_le_mono_r; lia). lia. }
  unfold stored_offset. rewrite E.
  assert (V : valid_binary prec emax (S754_finite false m (d - 24)) = true).
  { cbn [valid_binary]. unfold bounded, canonical_mantissa, fexp, SpecFloat.emin, prec, emax.
    rewrite Dm. apply andb_true_intro. split; [apply Z.eqb_eq | apply Z.leb_le]; lia. }
  rewrite (decoded_pos_fun _ _ (valid_pos_decoded _ V eq_refl)).
  unfold to_long. destruct (Z.leb_spec 0 (d - 24)) as [G | G].
  - assert (Ed : d = 24) by lia. rewrite Ed in *. change (24 - 24) with 0 in *.
    rewrite Hm. change (2 ^ 0) with 1. change (2 ^ 63) with 9223372036854775808.
    change (2 ^ 24) with 16777216 in *. lia.
  - replace (- (d - 24)) with (24 - d) by lia. rewrite Hm.
    rewrite Z.div_mul by (apply Z.pow_nonzero; lia).
    change (2 ^ 63) with 9223372036854775808. change (2 ^ 24) with 16777216 in *. lia.
Qed.

(** *** Integers held by floats *)

Lemma iter_pos_iter {A} (f : A -> A) (p : positive) (x : A) :
  iter_pos f p x = Pos.iter f x p.
Proof.
  revert x. induction p as [p IH | p IH | ]; intros x; cbn [iter_pos Pos.iter].
  - rewrite !IH. rewrite <- !Pos.iter_swap. reflexivity.
  - rewrite !IH. reflexivity.
  - reflexivity.
Qed.

Lemma shr_1_even (m : positive) :
  shr_1 {| shr_m := Z.pos m~0; shr_r := false; shr_s := false |} =
  {| shr_m := Z.pos m; shr_r := false; shr_s := false |}.
Proof. reflexivity. Qed.

(** Shifting out bits that are all zero loses nothing. *)
Lemma shr_exact (k : positive) : forall (m M : positive),
  Z.pos M = Z.pos m * 2 ^ Z.pos k ->
  iter_pos shr_1 k {| shr_m := Z.pos M; shr_r := false; shr_s := false |} =
  {| shr_m := Z.pos m; shr_r := false; shr_s := false |}.
Proof.
  induction k using Pos.peano_ind; intros m M E.
  - cbn [iter_pos].
    assert (M = (m~0)%positive) by (change (2 ^ 1) with 2 in E; lia). subst M. reflexivity.
  - rewrite iter_pos_iter, Pos.iter_succ_r, <- iter_pos_iter.
    rewrite Pos2Z.inj_succ, Z.pow_succ_r in E by lia.
    assert (exists M', M = (M'~0)%positive /\ Z.pos M' = Z.pos m * 2 ^ Z.pos k) as (M' & -> & E').
    { destruct M as [M' | M' | ].
      - exfalso. rewrite Pos2Z.inj_xI in E. lia.
      - exists M'. split; [reflexivity|]. rewrite Pos2Z.inj_xO in E. lia.
      - exfalso. assert (0 < 2 ^ Z.pos k) by (apply Z.pow_pos_nonneg; lia). nia. }
    rewrite shr_1_even. apply IHk. exact E'.
Qed.

Lemma digits_bound (n : positive) :
  Z.pos n < 2 ^ 24 -> 1 <= Z.pos (digits2_pos n) <= 24.
Proof.
  intros Hn. pose proof (digits2_pos_bounds n) as B.
  split; [lia|]. destruct (Z_le_gt_dec (Z.pos (digits2_pos n)) 24); auto.
  assert (2 ^ 24 <= 2 ^ (Z.pos (digits2_pos n) - 1)) by (apply Z.pow_le_mono_r; lia). lia.
Qed.

Lemma digits_shift (M n : positive) (k : Z) :
  0 <= k -> Z.pos M = Z.pos n * 2 ^ k ->
  Z.pos (digits2_pos M) = Z.pos (digits2_pos n) + k.
Proof.
  intros Hk E. apply digits2_pos_unique. rewrite E.
  pose proof (digits2_pos_bounds n) as B.
  replace (Z.pos (digits2_pos n) + k - 1) with (Z.pos (digits2_pos n) - 1 + k) by lia.
  rewrite !Z.pow_add_r by lia.
  assert (0 < 2 ^ k) by (apply Z.pow_pos_nonneg; lia). nia.
Qed.

(** Rounding a mantissa whose bits beyond the first 24 are zero loses
    nothing: the result is the same number in canonical form. *)
Lemma round_aux_shift (M n m : positive) (k E : Z) :
  0 <= k -> Z.pos M = Z.pos n * 2 ^ k -> Z.pos n < 2 ^ 24 ->
  24 - Z.pos (digits2_pos n) <= k ->
  Z.pos m = Z.pos n * 2 ^ (24 - Z.pos (digits2_pos n)) ->
  -149 <= E + k + Z.pos (digits2_pos n) - 24 <= 104 ->
  binary_round_aux prec emax false (Z.pos M) E loc_Exact =
  S754_finite false m (E + k + Z.pos (digits2_pos n) - 24).
Proof.
  intros Hk EM Hn Hd Hm HE.
  pose proof (digits_bound n Hn) as Bd.
  pose proof (digits_shift M n k Hk EM) as DM.
  assert (Dm : Z.pos (digits2_pos m) = 24).
  { rewrite (digits_shift m n (24 - Z.pos (digits2_pos n))) by (lia || exact Hm). lia. }
  set (d := Z.pos (digits2_pos n)) in *.
  destruct (Z.eq_dec (d - 24 + k) 0) as [Z0 | NZ].
  - assert (M = m).
    { assert (Z.pos M = Z.pos m) by (rewrite EM, Hm; f_equal; f_equal; lia). congruence. }
    subst M. replace (E + k + d - 24) with E by lia.
    apply binary_round_aux_canonical; [exact Dm | lia].
  - unfold binary_round_aux, shr_fexp, fexp, SpecFloat.emin, prec, emax, Zdigits2.
    cbn [shr_record_of_loc]. rewrite DM.
    replace (Z.max (d + k + E - 24) (3 - 128 - 24) - E) with (d - 24 + k) by lia.
    destruct (d - 24 + k) as [ | p | p] eqn:P; try lia.
    cbn [shr]. rewrite (shr_exact p m M).
    2:{ rewrite EM, Hm, <- Z.mul_assoc, <- Z.pow_add_r by lia. f_equal. f_equal. lia. }
    cbn [shr_m loc_of_shr_record round_nearest_even Zdigits2]. rewrite Dm.
    replace (Z.max (24 + (E + Z.pos p) - 24) (3 - 128 - 24) - (E + Z.pos p)) with 0 by lia.
    cbn [shr shr_m shr_record_of_loc].
    rewrite (proj2 (Z.leb_le (E + Z.pos p) (128 - 24))) by lia.
    f_equal. lia.
Qed.

(** Rounding a mantissa whose low bits are zero is exact. *)
Lemma round_aux_int (M n : positive) (k : Z) :
  0 <= k -> Z.pos M = Z.pos n * 2 ^ k -> Z.pos n < 2 ^ 24 ->
  24 - Z.pos (digits2_pos n) <= k ->
  binary_round_aux prec emax false (Z.pos M) (- k) loc_Exact = of_int (Z.pos n).
Proof.
  intros Hk E Hn Hd.
  destruct (of_int_small n Hn) as (m & Em & Hm & Dm). rewrite Em.
  pose proof (digits_bound n Hn) as Bd.
  rewrite (round_aux_shift M n m k (- k)) by (assumption || lia).
  f_equal. lia.
Qed.

Lemma round_int (M n : positive) (k : Z) :
  0 <= k -> Z.pos M = Z.pos n * 2 ^ k -> Z.pos n < 2 ^ 24 ->
  binary_round prec emax false M (- k) = of_int (Z.pos n).
Proof.
  intros Hk E Hn.
  pose proof (digits_bound n Hn) as Bd.
  pose proof (digits_shift M n k Hk E) as DM.
  unfold binary_round, shl_align, fexp, SpecFloat.emin. rewrite DM.
  set (d := Z.pos (digits2_pos n)) in *.
  unfold prec, emax.
  replace (Z.max (d + k + - k - 24) (3 - 128 - 24) - - k) with (d - 24 + k) by lia.
  replace (Z.max (d + k + - k - 24) (3 - 128 - 24)) with (- (24 - d)) by lia.
  destruct (d - 24 + k) as [ | p | p] eqn:P.
  - apply (round_aux_int M n k); fold d; lia.
  - apply (round_aux_int M n k); fold d; lia.
  - apply (round_aux_int (Pos.iter xO M p) n (24 - d)); fold d; try lia.
    rewrite iter_xO_spec, E, <- Z.mul_assoc, <- Z.pow_add_r by lia.
    f_equal. f_equal. lia.
Qed.

(** An offset that single precision holds exactly, [n * 2^k] with [n] of at
    most 24 bits, comes back from the index map as it went in. *)
Lemma stored_offset_representable (n k : Z) :
  0 <= n < 2 ^ 24 -> 0 <= k -> n * 2 ^ k < 2 ^ 63 ->
  stored_offset (n * 2 ^ k) = n * 2 ^ k.
Proof.
  intros Hn Hk Hv.
  assert (P2 : 0 < 2 ^ k) by (apply Z.pow_pos_nonneg; lia).
  destruct (Z_le_gt_dec (n * 2 ^ k) (2 ^ 24)) as [Sm | Bg].
  { apply stored_offset_small. nia. }
  destruct n as [ | pn | pn]; try lia.
  remember (Z.pos pn * 2 ^ k) as v eqn:Ev.
  destruct v as [ | V | V]; try lia.
  pose proof (digits_bound pn ltac:(lia)) as Bd.
  pose proof (digits_shift V pn k Hk Ev) as DV.
  pose proof (digits2_pos_bounds V) as BV.
  destruct (of_int_small pn ltac:(lia)) as (m & _ & Hm & Dm).
  set (d := Z.pos (digits2_pos pn)) in *.
  assert (D25 : 25 <= d + k).
  { destruct (Z_le_gt_dec 25 (d + k)); [assumption|]. rewrite DV in BV.
    assert (2 ^ (d + k) <= 2 ^ 24) by (apply Z.pow_le_mono_r; lia). lia. }
  assert (D63 : d + k <= 63).
  { destruct (Z_le_gt_dec (d + k) 63); [assumption|]. rewrite DV in BV.
    assert (2 ^ 63 <= 2 ^ (d + k - 1)) by (apply Z.pow_le_mono_r; lia). lia. }
  assert (E : of_int (Z.pos V) = S754_finite false m (0 + k + d - 24)).
  { unfold of_int, binary_normalize, binary_round, shl_align, fexp, SpecFloat.emin.
    rewrite DV. unfold prec, emax.
    replace (Z.max (d + k + 0 - 24) (3 - 128 - 24) - 0) with (d + k - 24) by lia.
    destruct (d + k - 24) as [ | q | q] eqn:Q; try lia.
    apply (round_aux_shift V pn m k 0); fold d; try lia. }
  unfold stored_offset. rewrite E.
  assert (Vd : valid_binary prec emax (S754_finite false m (0 + k + d - 24)) = true).
  { cbn [valid_binary]. unfold bounded, canonical_mantissa, fexp, SpecFloat.emin, prec, emax.
    rewrite Dm. apply andb_true_intro. split; [apply Z.eqb_eq | apply Z.leb_le]; lia. }
  rewrite (decoded_pos_fun _ _ (valid_pos_decoded _ Vd eq_refl)).
  unfold to_long. rewrite (proj2 (Z.leb_le 0 (0 + k + d - 24))) by lia.
  assert (Z.pos m * 2 ^ (0 + k + d - 24) = Z.pos V).
  { rewrite Hm, Ev, <- Z.mul_assoc, <- Z.pow_add_r by lia. f_equal. f_equal. lia. }
  change (2 ^ 63) with 9223372036854775808 in *. lia.
Qed.

Lemma holds_int_of_int (n : Z) : 0 <= n < 2 ^ 24 -> holds_int (of_int n) n.
Proof.
  intros H. destruct (Z.eq_dec n 0) as [-> | N].
  - left. split; [reflexivity|]. exists false. reflexivity.
  - right. split; [lia | reflexivity].
Qed.

Lemma holds_int_range f n : holds_int f n -> 0 <= n < 2 ^ 24.
Proof. intros [[-> _] | [H _]]; [change (2 ^ 24) with 16777216|]; lia. Qed.

(** The shape of a float that holds a positive integer. *)
Lemma holds_int_pos f n :
  holds_int f n -> 0 < n ->
  exists p m, n = Z.pos p /\ f = S754_finite false m (Z.pos (digits2_pos p) - 24) /\
    Z.pos m = Z.pos p * 2 ^ (24 - Z.pos (digits2_pos p)) /\
    Z.pos (digits2_pos m) = 24 /\ 1 <= Z.pos (digits2_pos p) <= 24.
Proof.
  intros [[-> _] | [H ->]] Hn; [lia|].
  destruct n as [ | p | p]; try lia.
  destruct (of_int_small p ltac:(lia)) as (m & E & Hm & Dm).
  exists p, m. split; [reflexivity|]. split; [exact E|]. split; [exact Hm|].
  split; [exact Dm|]. apply digits_bound. lia.
Qed.

Lemma digits_mul (a b : positive) :
  Z.pos (digits2_pos a) + Z.pos (digits2_pos b) - 1 <= Z.pos (digits2_pos (a * b)).
Proof.
  pose proof (digits2_pos_bounds a) as Ba. pose proof (digits2_pos_bounds b) as Bb.
  pose proof (digits2_pos_bounds (a * b)) as Bab.
  set (da := Z.pos (digits2_pos a)) in *. set (db := Z.pos (digits2_pos b)) in *.
  set (dab := Z.pos (digits2_pos (a * b))) in *.
  assert (0 < da) by (unfold da; lia). assert (0 < db) by (unfold db; lia).
  destruct (Z_le_gt_dec (da + db - 1) dab) as [ | G]; [assumption|].
  exfalso.
  assert (2 ^ dab <= 2 ^ (da - 1 + (db - 1))) by (apply Z.pow_le_mono_r; lia).
  rewrite Z.pow_add_r in H1 by lia.
  rewrite Pos2Z.inj_mul in Bab.
  assert (0 < 2 ^ (da - 1)) by (apply Z.pow_pos_nonneg; lia).
  assert (0 < 2 ^ (db - 1)) by (apply Z.pow_pos_nonneg; lia).
  nia.
Qed.

(** The product of two floats that hold integers holds the product. *)
Lemma holds_int_mul fa fb a b :
  holds_int fa a -> holds_int fb b -> a * b < 2 ^ 24 ->
  holds_int (mul fa fb) (a * b).
Proof.
  intros Ha Hb Hab.
  pose proof (holds_int_range _ _ Ha) as Ra. pose proof (holds_int_range _ _ Hb) as Rb.
  destruct (Z.eq_dec a 0) as [-> | Na].
  { left. split; [lia|]. destruct Ha as [[_ [sa ->]] | [? _]]; [|lia].
    destruct (Z.eq_dec b 0) as [-> | Nb].
    - destruct Hb as [[_ [sb ->]] | [? _]]; [|lia]. eexists. reflexivity.
    - destruct (holds_int_pos _ _ Hb ltac:(lia)) as (p & m & _ & -> & _). eexists. reflexivity. }
  destruct (Z.eq_dec b 0) as [-> | Nb].
  { left. split; [lia|]. destruct Hb as [[_ [sb ->]] | [? _]]; [|lia].
    destruct (holds_int_pos _ _ Ha ltac:(lia)) as (p & m & _ & -> & _). eexists. reflexivity. }
  destruct (holds_int_pos _ _ Ha ltac:(lia)) as (pa & ma & -> & -> & Hma & Dma & Bda).
  destruct (holds_int_pos _ _ Hb ltac:(lia)) as (pb & mb & -> & -> & Hmb & Dmb & Bdb).
  right. split; [lia|].
  unfold mul, SFmul. cbn [xorb].
  pose proof (digits_mul pa pb) as Dab.
  set (da := Z.pos (digits2_pos pa)) in *. set (db := Z.pos (digits2_pos pb)) in *.
  replace (da - 24 + (db - 24)) with (- (48 - da - db)) by lia.
  change (Z.pos pa * Z.pos pb) with (Z.pos (pa * pb)).
  apply round_aux_int.
  - lia.
  - rewrite !Pos2Z.inj_mul, Hma, Hmb.
    replace (48 - da - db) with ((24 - da) + (24 - db)) by lia.
    rewrite Z.pow_add_r by lia. ring.
  - rewrite Pos2Z.inj_mul. exact Hab.
  - lia.
Qed.

Lemma shl_align_fst (m : positive) (e ez : Z) :
  ez <= e -> Z.pos (fst (shl_align m e ez)) = Z.pos m * 2 ^ (e - ez).
Proof.
  intros H. unfold shl_align. destruct (ez - e) as [ | p | p] eqn:P; cbn [fst].
  - replace (e - ez) with 0 by lia. cbn. lia.
  - lia.
  - rewrite iter_xO_spec. f_equal. f_equal. lia.
Qed.

(** The sum of two floats that hold integers holds the sum. *)
Lemma holds_int_add fa fb a b :
  holds_int fa a -> holds_int fb b -> a + b < 2 ^ 24 ->
  holds_int (add fa fb) (a + b).
Proof.
  intros Ha Hb Hab.
  pose proof (holds_int_range _ _ Ha) as Ra. pose proof (holds_int_range _ _ Hb) as Rb.
  destruct (Z.eq_dec a 0) as [-> | Na].
  { destruct Ha as [[_ [sa ->]] | [? _]]; [|lia].
    destruct (Z.eq_dec b 0) as [-> | Nb].
    - destruct Hb as [[_ [sb ->]] | [? _]]; [|lia]. left. split; [reflexivity|].
      destruct sa, sb; eexists; reflexivity.
    - destruct (holds_int_pos _ _ Hb ltac:(lia)) as (p & m & Ep & Ef & _).
      rewrite Ef. unfold add. cbn [SFadd]. rewrite <- Ef. exact Hb. }
  destruct (Z.eq_dec b 0) as [-> | Nb].
  { destruct Hb as [[_ [sb ->]] | [? _]]; [|lia].
    destruct (holds_int_pos _ _ Ha ltac:(lia)) as (p & m & Ep & Ef & _).
    rewrite Ef. unfold add. cbn [SFadd]. rewrite <- Ef. rewrite Z.add_0_r. exact Ha. }
  destruct (holds_int_pos _ _ Ha ltac:(lia)) as (pa & ma & -> & -> & Hma & Dma & Bda).
  destruct (holds_int_pos _ _ Hb ltac:(lia)) as (pb & mb & -> & -> & Hmb & Dmb & Bdb).
  right. split; [lia|].
  unfold add, SFadd. cbn [cond_Zopp].
  set (da := Z.pos (digits2_pos pa)) in *. set (db := Z.pos (digits2_pos pb)) in *.
  set (ez := Z.min (da - 24) (db - 24)).
  change (Z.pos ?x + Z.pos ?y) with (Z.pos (x + y)).
  cbn [binary_normalize].
  replace ez with (- (- ez)) at 3 by lia.
  change (Z.pos pa + Z.pos pb) with (Z.pos (pa + pb)).
  apply round_int.
  - unfold ez. lia.
  - rewrite Pos2Z.inj_add, !shl_align_fst by (unfold ez; lia).
    rewrite Hma, Hmb, <- !Z.mul_assoc, <- !Z.pow_add_r by (unfold ez; lia).
    replace (24 - da + (da - 24 - ez)) with (- ez) by lia.
    replace (24 - db + (db - 24 - ez)) with (- ez) by lia.
    rewrite Pos2Z.inj_add. ring.
  - rewrite Pos2Z.inj_add. exact Hab.
Qed.

Lemma holds_int_to_long f n : holds_int f n -> to_long f = n.
Proof.
  intros H. destruct (Z.eq_dec n 0) as [-> | N].
  { destruct H as [[_ [s ->]] | [? _]]; [reflexivity | lia]. }
  pose proof (holds_int_range _ _ H) as R.
  destruct (holds_int_pos _ _ H ltac:(lia)) as (p & m & -> & -> & Hm & Dm & Bd).
  set (d := Z.pos (digits2_pos p)) in *.
  unfold to_long. destruct (Z.leb_spec 0 (d - 24)) as [G | G].
  - assert (Ed : d = 24) by lia. rewrite Ed in *. change (24 - 24) with 0 in *.
    rewrite Hm. change (2 ^ 0) with 1. change (2 ^ 63) with 9223372036854775808.
    change (2 ^ 24) with 16777216 in *. lia.
  - replace (- (d - 24)) with (24 - d) by lia. rewrite Hm.
    rewrite Z.div_mul by (apply Z.pow_nonzero; lia).
    change (2 ^ 63) with 9223372036854775808. change (2 ^ 24) with 16777216 in *. lia.
Qed.

(** The order of floats that hold integers is the order of the integers. *)
Lemma holds_int_ltb f n C :
  holds_int f n -> 0 < C < 2 ^ 24 -> ltb f (of_int C) = true -> n < C.
Proof.
  intros H HC Lt. destruct (Z.eq_dec n 0) as [-> | N]; [lia|].
  pose proof (holds_int_range _ _ H) as R.
  destruct (holds_int_pos _ _ H ltac:(lia)) as (p & m & -> & -> & Hm & Dm & Bd).
  destruct (holds_int_pos _ _ (holds_int_of_int C ltac:(lia)) ltac:(lia))
    as (pc & mc & -> & Ec & Hmc & Dmc & Bdc).
  rewrite Ec in Lt. unfold ltb, SFltb, SFcompare in Lt.
  pose proof (digits2_pos_bounds p) as Bp. pose proof (digits2_pos_bounds pc) as Bc.
  set (d := Z.pos (digits2_pos p)) in *. set (dc := Z.pos (digits2_pos pc)) in *.
  destruct (Z.compare_spec (d - 24) (dc - 24)) as [E | L | G]; try discriminate Lt.
  - rewrite compare_cont_Eq in Lt.
    destruct (Z.compare_spec (Z.pos m) (Z.pos mc)) as [ | L | ]; try discriminate Lt.
    rewrite Hm, Hmc in L. replace dc with d in L by lia.
    assert (0 < 2 ^ (24 - d)) by (apply Z.pow_pos_nonneg; lia). nia.
  - assert (2 ^ d <= 2 ^ (dc - 1)) by (apply Z.pow_le_mono_r; lia). lia.
Qed.

(** The sign of a rounded number is the sign given, and its exponent is not
    below the exponent given nor below the one its magnitude asks for. *)
Lemma binary_round_aux_shape s M E l :
  match binary_round_aux prec emax s M E l with
  | S754_zero s' => s' = s
  | S754_infinity s' => s' = s
  | S754_nan => True
  | S754_finite s' _ e => s' = s /\ E <= e /\ fexp prec emax (Zdigits2 M + E) <= e
  end.
Proof.
  unfold binary_round_aux.
  destruct (shr_fexp prec emax M E l) as [mrs' e'] eqn:S1.
  destruct (shr_fexp prec emax (round_nearest_even (shr_m mrs') (loc_of_shr_record mrs')) e' loc_Exact)
    as [mrs'' e''] eqn:S2.
  assert (B1 : E <= e' /\ fexp prec emax (Zdigits2 M + E) <= e').
  { unfold shr_fexp, shr in S1.
    destruct (fexp prec emax (Zdigits2 M + E) - E) eqn:K; inversion S1; subst; lia. }
  assert (B2 : e' <= e'').
  { unfold shr_fexp, shr in S2.
    match type of S2 with context [match ?k with _ => _ end] => destruct k eqn:K end;
      inversion S2; subst; lia. }
  destruct (shr_m mrs''); [reflexivity | | exact I].
  destruct (e'' <=? emax - prec); [|reflexivity].
  split; [reflexivity | lia].
Qed.

(** A rounded coordinate that passes the bounds test holds an integer below
    the extent. *)
Lemma round_in_range (f : float) (C : Z) :
  0 < C < 2 ^ 23 ->
  leb (of_int 0) (round f) = true -> ltb (round f) (of_int C) = true ->
  exists n, 0 <= n < C /\ holds_int (round f) n.
Proof.
  intros HC Ge Lt.
  assert (HC' : 0 < C < 2 ^ 24) by (change (2 ^ 24) with (2 * 2 ^ 23); lia).
  destruct (holds_int_pos _ _ (holds_int_of_int C ltac:(lia)) ltac:(lia))
    as (pc & mc & EC & Ec & Hmc & Dmc & Bdc).
  assert (Dc : Z.pos (digits2_pos pc) - 24 < 0).
  { pose proof (digits2_pos_bounds pc) as Bc.
    destruct (Z_lt_le_dec (Z.pos (digits2_pos pc)) 24) as [ | G]; [lia|].
    assert (2 ^ 23 <= 2 ^ (Z.pos (digits2_pos pc) - 1)) by (apply Z.pow_le_mono_r; lia). lia. }
  assert (Zero : forall s, round f = S754_zero s -> exists n, 0 <= n < C /\ holds_int (round f) n).
  { intros s E. exists 0. split; [lia|]. left. split; [reflexivity|]. exists s. exact E. }
  assert (Shape : forall s p,
            round f = binary_round prec emax s p 0 ->
            (s = false -> round f = of_int (Z.pos p)) ->
            exists n, 0 <= n < C /\ holds_int (round f) n).
  { intros s p E Ef.
    pose proof (binary_round_aux_shape s) as Sh.
    unfold binary_round in E.
    destruct (shl_align p 0 (fexp prec emax (Z.pos (digits2_pos p) + 0))) as [mz ez] eqn:SA.
    specialize (Sh (Z.pos mz) ez loc_Exact). rewrite <- E in Sh.
    destruct (round f) as [s' | s' | | s' m e] eqn:R.
    - apply (Zero s'). reflexivity.
    - destruct Sh. rewrite Ec in Lt. destruct s'; [discriminate Ge | discriminate Lt].
    - discriminate Ge.
    - destruct Sh as (-> & Le1 & Le2).
      destruct s; [discriminate Ge|].
      specialize (Ef eq_refl).
      destruct (Z_lt_le_dec (Z.pos p) (2 ^ 24)) as [Sm | Bg].
      + exists (Z.pos p). rewrite Ef.
        assert (H : holds_int (of_int (Z.pos p)) (Z.pos p)) by (apply holds_int_of_int; lia).
        split; [|exact H]. split; [lia|].
        apply (holds_int_ltb _ _ C H HC'). rewrite <- Ef. exact Lt.
      + exfalso.
        assert (1 <= e).
        { pose proof (digits2_pos_bounds p) as Bp.
          assert (25 <= Z.pos (digits2_pos p)).
          { destruct (Z_le_gt_dec 25 (Z.pos (digits2_pos p))); [assumption|].
            assert (2 ^ Z.pos (digits2_pos p) <= 2 ^ 24) by (apply Z.pow_le_mono_r; lia). lia. }
          unfold shl_align in SA.
          destruct (fexp prec emax (Z.pos (digits2_pos p) + 0) - 0) eqn:K;
            unfold fexp, SpecFloat.emin, prec, emax in *; inversion SA; subst;
            cbn [Zdigits2] in Le2; lia. }
        rewrite Ec in Lt. unfold ltb, SFltb, SFcompare in Lt.
        destruct (Z.compare_spec e (Z.pos (digits2_pos pc) - 24)); try discriminate Lt; lia. }
  destruct f as [s | s | | s m e].
  - apply (Zero s). reflexivity.
  - exfalso. cbn [round] in *. rewrite Ec in Lt.
    destruct s; [discriminate Ge | discriminate Lt].
  - discriminate Ge.
  - unfold round in *. destruct (Z.leb_spec 0 e) as [He | He].
    + exfalso. destruct s; [discriminate Ge|].
      rewrite Ec in Lt. unfold ltb, SFltb, SFcompare in Lt.
      destruct (Z.compare_spec e (Z.pos (digits2_pos pc) - 24)); try discriminate Lt; lia.
    + set (n := (Z.pos m + 2 ^ (- e - 1)) / 2 ^ (- e)) in *.
      assert (Hn : 0 <= n).
      { apply Z.div_pos; [|apply Z.pow_pos_nonneg; lia].
        assert (0 <= 2 ^ (- e - 1)) by (apply Z.pow_nonneg; lia). lia. }
      destruct (Z.eqb_spec n 0) as [E0 | N0].
      * apply (Zero s). reflexivity.
      * destruct n as [ | p | p] eqn:En; try lia.
        destruct s.
        -- apply (Shape true p); [reflexivity | intros; discriminate].
        -- apply (Shape false p); [reflexivity | intros; reflexivity].
Qed.

(** The offset computed in single precision is the exact one when the
    coordinates hold integers and nothing exceeds 24 bits. *)
Lemma float_offset_exact (b r c s0 s2 s3 : Z) (yr xr : float) :
  holds_int yr r -> holds_int xr c ->
  fits_int (b * s0) -> 0 <= b * s0 -> 0 <= s2 < 2 ^ 24 -> 0 <= s3 < 2 ^ 24 ->
  b * s0 + r * s2 + c * s3 < 2 ^ 24 ->
  float_offset b yr xr s0 s2 s3 = b * s0 + r * s2 + c * s3.
Proof.
  intros Hr Hc Fi H0 H2 H3 Hs.
  pose proof (holds_int_range _ _ Hr) as Rr. pose proof (holds_int_range _ _ Hc) as Rc.
  assert (0 <= r * s2) by nia. assert (0 <= c * s3) by nia.
  unfold float_offset. rewrite wrap32_fits by exact Fi.
  apply holds_int_to_long.
  apply holds_int_add; [apply holds_int_add| |lia].
  - apply holds_int_of_int. lia.
  - apply holds_int_mul; [exact Hr | apply holds_int_of_int; lia | lia].
  - lia.
  - apply holds_int_mul; [exact Hc | apply holds_int_of_int; lia | lia].
Qed.

(** On a grid whose offsets stay below 2^24 the kernels compute every
    target offset exactly, whatever the input. *)
Lemma small_offsets_targets_exact (g : grid) (m : memory) :
  layout_ok g -> small_offsets g -> targets_exact g m.
Proof.
  intros L S [[b r] c] Hx Fx.
  unfold fires in Fx. apply andb_true_iff in Fx. destruct Fx as [_ Bd].
  unfold in_bounds in Bd. rewrite !andb_true_iff in Bd.
  destruct Bd as [[[X0 X1] Y0] Y1].
  pose proof (lo_rows g L) as LR. pose proof (lo_cols g L) as LC.
  pose proof (so_rows g S) as SR. pose proof (so_cols g S) as SC.
  destruct (round_in_range _ (ncols g) ltac:(lia) X0 X1) as (c' & Hc' & Ic).
  destruct (round_in_range _ (nrows g) ltac:(lia) Y0 Y1) as (r' & Hr' & Ir).
  assert (T : target g m (b, r, c) = (b, r', c')).
  { unfold target. rewrite (holds_int_to_long _ _ Ic), (holds_int_to_long _ _ Ir). reflexivity. }
  assert (G : in_grid g (b, r', c')) by (unfold in_grid in *; lia).
  rewrite T. split; [exact G|].
  destruct (so_strides g S) as (S2 & S3 & M2 & M3).
  destruct (so_cell g S b r' c' G) as (B0 & B1 & B2 & B3).
  destruct (lo_cell g L b r' c' G) as (F0 & _).
  destruct (lo_imap g L b r' c' G) as (G0 & _).
  unfold valo, valim, cell_off, imap_off in *.
  split; apply float_offset_exact; assumption.
Qed.

Lemma small_offsets_offsets_exact (g : grid) :
  layout_ok g -> small_offsets g -> offsets_exact g.
Proof.
  intros L S [[b r] c] Hx.
  destruct (so_cell g S b r c Hx) as (_ & B1 & _).
  destruct (lo_cell g L b r c Hx) as (_ & _ & _ & _ & _ & B0).
  apply stored_offset_small. lia.
Qed.

(** *** Runs of the passes and of the host functions *)

Section Runs.
Variable g : grid.
Hypothesis L : layout_ok g.

Lemma run_pass1_mem s d :
  fair s -> mem (run_pass1 g s d) = fold_left (p1_step g) (s (threads_of g)) (mem d).
Proof.
  intros F. unfold run_pass1. apply (launch_mem g); [exact F|].
  intros t d' Ht. apply pass1_mem; assumption.
Qed.

Lemma run_pass2_mem s d :
  fair s -> mem (run_pass2 g s d) = fold_left (p2_step g) (s (threads_of g)) (mem d).
Proof.
  intros F. unfold run_pass2. apply (launch_mem g); [exact F|].
  intros t d' Ht. apply pass2_mem; assumption.
Qed.

Lemma Forward_passes s1 s2 d : Forward g s1 s2 d = run_pass2 g s2 (run_pass1 g s1 d).
Proof. apply forward_exec. exact L. Qed.

Lemma Forward_mem s1 s2 d :
  fair s1 -> fair s2 ->
  mem (Forward g s1 s2 d) =
  fold_left (p2_step g) (s2 (threads_of g))
    (fold_left (p1_step g) (s1 (threads_of g)) (mem d)).
Proof.
  intros F1 F2. rewrite Forward_passes, run_pass2_mem, run_pass1_mem by assumption.
  reflexivity.
Qed.

Lemma Backward_mem s d :
  fair s -> mem (Backward g s d) = fold_left (bw_step g) (s (threads_of g)) (mem d).
Proof.
  intros F. unfold Backward. rewrite (backward_exec g L).
  apply (launch_mem g); [exact F|].
  intros t d' Ht. apply backward_mem; assumption.
Qed.
End Runs.

(** After pass 1 the depth channel of every cell holds the least depth
    among the points that land on the cell, the sentinel when there is
    none (addresses computed exactly). *)
Lemma pass1_depth_minimum g d0 s :
  layout_ok g -> fair s -> depth_prefilled g (mem d0) -> targets_exact g (mem d0) ->
  forall o, in_grid g o ->
    let z := F32.float_of_bits (mem (run_pass1 g s d0) (chan g OutputBuf 2 o)) in
    (forall x, in_grid g x -> lands_on g (mem d0) x o ->
       F32.leb z (point_z g (mem d0) x) = true) /\
    (z = F32.HUGE_VALF \/
     exists x, in_grid g x /\ lands_on g (mem d0) x o /\ z = point_z g (mem d0) x).
Proof.
  intros L F PD E1 o Ho z. unfold z. rewrite (run_pass1_mem g L s d0 F).
  destruct (pass1_cells g (mem d0) s L F PD E1 o Ho) as (D & Lb & Last).
  split; [exact Lb|].
  destruct Last as [E | R]; [left | right; exact R].
  unfold threads_of. rewrite E. reflexivity.
Qed.

(** *** The dense layout is well formed *)

Lemma radix_unique (a c a' c' n : Z) :
  0 <= c < n -> 0 <= c' < n -> a * n + c = a' * n + c' -> a = a' /\ c = c'.
Proof.
  intros Hc Hc' E.
  assert (a = a').
  { destruct (Z.lt_trichotomy a a') as [Lt | [Eq | Gt]]; [|exact Eq|].
    - assert ((a' - a) * n >= n) by nia. lia.
    - assert ((a - a') * n >= n) by nia. lia. }
  subst. lia.
Qed.

Lemma contiguous_layout_ok B R C fy fx cy cx :
  0 <= B -> 0 < R -> 0 < C -> 3 * R * C < 2 ^ 31 -> 3 * B * R * C + 255 < 2 ^ 31 ->
  layout_ok (contiguous B R C fy fx cy cx).
Proof.
  intros HB HR HC HS HN.
  assert (HRC : 0 < R * C) by nia.
  assert (HRl : R <= R * C) by nia.
  assert (HCl : C <= R * C) by nia.
  assert (HBl : B <= B * (R * C)) by nia.
  constructor; unfold npoints, fits_int, in_grid, cell_off, imap_off; cbn [batchSize nrows ncols is0 is1 is2 is3 iMs0 iMs1 iMs2 iMs3 contiguous].
  - nia.
  - lia.
  - lia.
  - nia.
  - repeat split; nia.
  - split; nia.
  - intros b r c (Hb & Hr & Hc).
    assert (b * (R * C) <= (B - 1) * (R * C)) by nia.
    assert (r * C <= (R - 1) * C) by nia.
    assert (0 <= b * (R * C)) by nia. assert (0 <= r * C) by nia.
    repeat split; nia.
  - intros b r c (Hb & Hr & Hc).
    assert (b * (R * C) <= (B - 1) * (R * C)) by nia.
    assert (r * C <= (R - 1) * C) by nia.
    assert (0 <= b * (R * C)) by nia. assert (0 <= r * C) by nia.
    repeat split; nia.
  - intros [[b r] c] [[b' r'] c'] k k' (Hb & Hr & Hc) (Hb' & Hr' & Hc') Hk Hk' E.
    assert (E1 : ((b * 3 + k) * R + r) * C + c = ((b' * 3 + k') * R + r') * C + c') by nia.
    apply radix_unique in E1; try lia. destruct E1 as [E2 ->].
    apply radix_unique in E2; try lia. destruct E2 as [E3 ->].
    apply radix_unique in E3; try lia. destruct E3 as [-> ->]. auto.
  - intros [[b r] c] [[b' r'] c'] (Hb & Hr & Hc) (Hb' & Hr' & Hc') E.
    assert (E1 : (b * R + r) * C + c = (b' * R + r') * C + c') by nia.
    apply radix_unique in E1; try lia. destruct E1 as [E2 ->].
    apply radix_unique in E2; try lia. destruct E2 as [-> ->]. reflexivity.
Qed.

Lemma contiguous_small_offsets B R C fy fx cy cx :
  0 < B -> 0 < R -> 0 < C -> 3 * B * R * C <= 2 ^ 24 ->
  small_offsets (contiguous B R C fy fx cy cx).
Proof.
  intros HB HR HC HS.
  assert (HRC : 0 < R * C) by nia.
  assert (HRl : R <= R * C) by nia.
  assert (HCl : C <= R * C) by nia.
  assert (HBl : R * C <= B * (R * C)) by nia.
  change (2 ^ 24) with 16777216 in *. 
  constructor; unfold in_grid, cell_off, imap_off;
    cbn [batchSize nrows ncols is0 is1 is2 is3 iMs0 iMs1 iMs2 iMs3 contiguous];
    change (2 ^ 24) with 16777216; change (2 ^ 23) with 8388608.
  - nia.
  - nia.
  - repeat split; nia.
  - intros b r c (Hb & Hr & Hc).
    assert (b * (R * C) <= (B - 1) * (R * C)) by nia.
    assert (r * C <= (R - 1) * C) by nia.
    assert (0 <= b * (R * C)) by nia. assert (0 <= r * C) by nia.
    repeat split; nia.
Qed.

(** *** Fair schedules *)

Lemma fair_in_order : fair in_order.
Proof. intros l. apply Permutation_refl. Qed.

Lemma fair_reversed : fair reversed.
Proof. intros l. apply Permutation_sym, Permutation_rev. Qed.

(** *** The order of positive floats *)

Lemma positive_float_word z :
  positive_float z ->
  decoded_pos (bits_of_float z) z /\ to_uint32 (float_as_int z) = bits_of_float z.
Proof.
  intros [V P]. pose proof (valid_pos_decoded z V P) as D.
  split; [exact D|].
  pose proof (decoded_pos_range _ _ D) as R. unfold infbits in R.
  unfold float_as_int. rewrite (proj2 (Z.ltb_lt _ _)) by lia.
  apply to_uint32_small. lia.
Qed.

(** *** Backward on an index map without collisions *)

Section BackwardClaims.
Variables (g : grid) (d0 : device) (s : scheduler).
Hypothesis L : layout_ok g.
Hypothesis F : fair s.
Hypothesis RO : routes_ok g (mem d0).

Lemma Backward_inv :
  bw_inv g (mem d0) (rev (s (threads_of g)) ++ []) (mem (Backward g s d0)).
Proof.
  rewrite (Backward_mem g L s d0 F). apply bw_inv_fold; auto.
  - intros t Ht. apply (fair_in_inv s _ _ F Ht).
  - apply bw_start.
Qed.

Lemma Backward_written o k :
  in_grid g o -> routed g (mem d0) o <> -1 -> 0 <= k <= 2 ->
  mem (Backward g s d0) (grad_ptr g (mem d0) k o) = grad_word g (mem d0) k o.
Proof.
  intros Ho R Hk. pose proof Backward_inv as I.
  destruct (thread_of_spec g L o Ho) as (HIn & Hid & Hc).
  pose proof (bw_done _ _ _ _ I (thread_of g o) k) as D.
  rewrite Hc, Hid in D. apply D; auto.
  - apply in_rev_iff. apply fair_in; assumption.
  - apply (flat_id_bound g L o Ho).
Qed.

Lemma Backward_untouched p :
  (forall o k, in_grid g o -> routed g (mem d0) o <> -1 -> 0 <= k <= 2 ->
     p <> grad_ptr g (mem d0) k o) ->
  mem (Backward g s d0) p = mem d0 p.
Proof.
  intros N. destruct (bw_frame _ _ _ _ Backward_inv p) as [E | (o & k & Ho & R & Hk & E & _)].
  - exact E.
  - exfalso. exact (N o k Ho R Hk E).
Qed.
End BackwardClaims.

(** *** Independence of the schedule *)


Section Pass2Schedules.
Variables (g : grid) (d : device).
Hypothesis L : layout_ok g.
Hypothesis E1 : targets_exact g (mem d).
Hypothesis NI : depths_below_sentinel g (mem d).
Hypothesis NT : no_ties g (mem d).

Lemma run_pass2_inv s :
  fair s -> inv g (mem d) (rev (s (threads_of g)) ++ []) (mem (run_pass2 g s d)).
Proof.
  intros F. rewrite (run_pass2_mem g L s d F). apply inv_fold; auto.
  - intros t Ht. apply (fair_in_inv s _ _ F Ht).
  - apply inv_start.
Qed.

Lemma ran s x : fair s -> in_grid g x -> In (thread_of g x) (rev (s (threads_of g)) ++ []).
Proof.
  intros F Hx. apply in_rev_iff. apply fair_in; [exact F|]. apply (thread_of_spec g L x Hx).
Qed.

Lemma pass2_depth_final s o :
  fair s -> in_grid g o ->
  mem (run_pass2 g s d) (chan g OutputBuf 2 o) =
  if F32.eqb (F32.float_of_bits (mem d (chan g OutputBuf 2 o))) F32.HUGE_VALF
  then 0 else mem d (chan g OutputBuf 2 o).
Proof.
  intros F Ho. pose proof (run_pass2_inv s F) as I.
  destruct (F32.eqb (F32.float_of_bits (mem d (chan g OutputBuf 2 o))) F32.HUGE_VALF) eqn:T.
  - pose proof (inv_done _ _ _ _ I (thread_of g o) (ran s o F Ho)) as Dn.
    destruct (thread_of_spec g L o Ho) as (_ & Hid & Hc). rewrite Hc, Hid in Dn.
    apply Dn; [apply (flat_id_bound g L o Ho) | exact T].
  - destruct (inv_dep _ _ _ _ I o Ho) as [E | [Sn _]]; [exact E|].
    unfold sentinel_at in Sn. congruence.
Qed.

(** What pass 2 leaves in the index map and in the two coordinate
    channels of a cell: the record of a winner that ran, or what was
    there when no point wins the cell. *)
Lemma pass2_record_final s o :
  fair s -> in_grid g o ->
  let m := mem (run_pass2 g s d) in
  (m (imap_at g o) = mem d (imap_at g o) /\
   m (chan g OutputBuf 0 o) = mem d (chan g OutputBuf 0 o) /\
   m (chan g OutputBuf 1 o) = mem d (chan g OutputBuf 1 o) /\
   forall x, in_grid g x -> ~ winner g (mem d) x o)
  \/
  (exists x, in_grid g x /\ winner g (mem d) x o /\
     m (imap_at g o) = F32.bits_of_float (F32.of_int (cell_off g x)) /\
     m (chan g OutputBuf 0 o) = F32.bits_of_float (xpix g (mem d) x) /\
     m (chan g OutputBuf 1 o) = F32.bits_of_float (ypix g (mem d) x)).
Proof.
  intros F Ho m. pose proof (run_pass2_inv s F) as I. fold m in I.
  destruct (inv_idx _ _ _ _ I o Ho) as [(Ei & E0 & E1' & N) | (t & Ht & A & W & R)].
  - left. repeat split; auto. intros x Hx W.
    destruct (thread_of_spec g L x Hx) as (_ & Hid & Hc).
    apply (N (thread_of g x) (ran s x F Hx)).
    + rewrite Hid. apply (flat_id_bound g L x Hx).
    + rewrite Hc. exact W.
  - right. exists (cell_of g t). split; [|split; [exact W | exact R]].
    apply (active_thread g L t (inv_threads _ _ _ _ I t Ht) A).
Qed.

Lemma pass2_schedule_free s s' :
  fair s -> fair s' -> same_memory (run_pass2 g s d) (run_pass2 g s' d).
Proof.
  intros F F' p.
  assert (G : forall o, in_grid g o ->
            mem (run_pass2 g s d) (imap_at g o) = mem (run_pass2 g s' d) (imap_at g o) /\
            mem (run_pass2 g s d) (chan g OutputBuf 0 o) = mem (run_pass2 g s' d) (chan g OutputBuf 0 o) /\
            mem (run_pass2 g s d) (chan g OutputBuf 1 o) = mem (run_pass2 g s' d) (chan g OutputBuf 1 o)).
  { intros o Ho.
    destruct (pass2_record_final s o F Ho) as [(Ei & E0 & E1' & N) | (x & Hx & W & Ei & E0 & E1')];
    destruct (pass2_record_final s' o F' Ho) as [(Ei' & E0' & E1'' & N') | (x' & Hx' & W' & Ei' & E0' & E1'')].
    - rewrite Ei, E0, E1', Ei', E0', E1''. auto.
    - exfalso. exact (N x' Hx' W').
    - exfalso. exact (N' x Hx W).
    - rewrite (NT x x' o Hx Hx' W W') in *. rewrite Ei, E0, E1', Ei', E0', E1''. auto. }
  destruct (inv_frame _ _ _ _ (run_pass2_inv s F) p) as [E | (o & Ho & C)].
  - destruct (inv_frame _ _ _ _ (run_pass2_inv s' F') p) as [E' | (o & Ho & C)].
    + rewrite E, E'. reflexivity.
    + destruct C as [-> | [-> | [-> | ->]]];
        [rewrite !pass2_depth_final by assumption; reflexivity | apply G | apply G | apply G]; exact Ho.
  - destruct C as [-> | [-> | [-> | ->]]];
      [rewrite !pass2_depth_final by assumption; reflexivity | apply G | apply G | apply G]; exact Ho.
Qed.
End Pass2Schedules.


(** *** Forward, cell by cell *)

Lemma routed_no_winner : F32.to_long (F32.float_of_bits no_winner) = -1.
Proof. vm_compute. reflexivity. Qed.

Section ForwardClaims.
Variables (g : grid) (d0 : device) (s1 s2 : scheduler).
Hypothesis R : forward_ready g (mem d0).
Hypothesis F1 : fair s1.
Hypothesis F2 : fair s2.
Let m0 := mem d0.
Let m1 := mem (run_pass1 g s1 d0).
Let m2 := mem (Forward g s1 s2 d0).

Lemma Forward_cells o :
  in_grid g o ->
  (m1 (chan g OutputBuf 2 o) = F32.bits_of_float F32.HUGE_VALF /\
   m2 (chan g OutputBuf 2 o) = 0 /\
   m2 (imap_at g o) = no_winner /\
   routed g m2 o = -1 /\
   forall x, in_grid g x -> ~ lands_on g m0 x o)
  \/
  (exists x, in_grid g x /\ lands_on g m0 x o /\
     m1 (chan g OutputBuf 2 o) = F32.bits_of_float (point_z g m0 x) /\
     F32.float_of_bits (m1 (chan g OutputBuf 2 o)) = point_z g m0 x /\
     F32.float_of_bits (m2 (chan g OutputBuf 2 o)) = point_z g m0 x /\
     (forall x', in_grid g x' -> lands_on g m0 x' o ->
        F32.leb (point_z g m0 x) (point_z g m0 x') = true) /\
     routed g m2 o = cell_off g x /\
     m2 (imap_at g o) = F32.bits_of_float (F32.of_int (cell_off g x)) /\
     m2 (chan g OutputBuf 0 o) = F32.bits_of_float (xpix g m0 x) /\
     m2 (chan g OutputBuf 1 o) = F32.bits_of_float (ypix g m0 x)).
Proof.
  intros Ho. destruct R as [L PD PI NI E1 E2].
  unfold m1, m2, m0. rewrite (run_pass1_mem g L s1 d0 F1), (Forward_mem g L s1 s2 d0 F1 F2).
  destruct (forward_cells g (mem d0) s1 s2 L F1 F2 PD E1 NI o Ho)
    as [(Ew & Ez & Ei & _ & _ & NoL) | (x & Hx & Ld & Eb1 & Eb2 & Ef & Lb & Ei & E0 & E1')].
  - left. unfold threads_of.
    split; [exact Ew|]. split; [exact Ez|].
    assert (Ei' : fold_left (p2_step g) (s2 (grid_threads (numBlocks_of (npoints g)) 256))
              (fold_left (p1_step g) (s1 (grid_threads (numBlocks_of (npoints g)) 256)) (mem d0))
              (imap_at g o) = no_winner) by (etransitivity; [exact Ei | apply PI; exact Ho]).
    split; [exact Ei'|]. split; [|exact NoL].
    unfold routed. rewrite Ei'. apply routed_no_winner.
  - right. exists x. unfold threads_of.
    split; [exact Hx|]. split; [exact Ld|]. split; [exact Eb1|].
    assert (Fx : fires g (mem d0) x = true) by (rewrite fires_projects; apply Ld).
    split.
    { rewrite Eb1. pose proof (depth_word_decoded g (mem d0) x Fx) as D.
      rewrite (bits_of_decoded_pos _ _ D). apply (decoded_pos_fun _ _ D). }
    split; [exact Ef|]. split; [exact Lb|].
    split; [|auto].
    unfold routed. rewrite Ei. apply (E2 x Hx).
Qed.

Lemma cell_off_nonneg x : in_grid g x -> 0 <= cell_off g x.
Proof.
  intros Hx. destruct x as [[b r] c]. apply (lo_cell g (fr_layout _ _ R) b r c Hx).
Qed.

Lemma cell_off_inj x x' : in_grid g x -> in_grid g x' -> cell_off g x = cell_off g x' -> x = x'.
Proof.
  intros Hx Hx' E.
  apply (lo_inj g (fr_layout _ _ R) x x' 0 0 Hx Hx' ltac:(lia) ltac:(lia)). lia.
Qed.

Lemma Forward_routes_ok : routes_ok g m2.
Proof.
  split.
  - intros o Ho. destruct (Forward_cells o Ho) as [(_ & _ & _ & E & _) | (x & Hx & _ & _ & _ & _ & _ & E & _)].
    + left. exact E.
    + right. exists x. auto.
  - intros o o' Ho Ho' N E.
    destruct (Forward_cells o Ho) as [(_ & _ & _ & E1 & _) | (x & Hx & Ld & _ & _ & _ & _ & E1 & _)];
      [contradiction|].
    destruct (Forward_cells o' Ho') as [(_ & _ & _ & E1' & _) | (x' & Hx' & Ld' & _ & _ & _ & _ & E1' & _)];
      [congruence|].
    assert (x = x') by (apply cell_off_inj; auto; congruence). subst x'.
    destruct Ld as [_ T], Ld' as [_ T']. congruence.
Qed.

Lemma Forward_unrouted x :
  in_grid g x -> fires g m0 x = false -> forall o, in_grid g o -> routed g m2 o <> cell_off g x.
Proof.
  intros Hx Fx o Ho E.
  destruct (Forward_cells o Ho) as [(_ & _ & _ & E1 & _) | (x' & Hx' & Ld & _ & _ & _ & _ & E1 & _)].
  - pose proof (cell_off_nonneg x Hx). lia.
  - assert (x' = x) by (apply cell_off_inj; auto; congruence). subst x'.
    destruct Ld as [P _]. rewrite <- fires_projects in P. congruence.
Qed.
End ForwardClaims.


(** *** Points without a projection *)

Lemma excluded_fires g m x : excluded g m x <-> fires g m x = false.
Proof.
  unfold excluded, fires. destruct (F32.leb (point_z g m x) (F32.of_int 0)); cbn [negb andb].
  - tauto.
  - split; [intros [H | H]; [discriminate | exact H] | auto].
Qed.

Section Excluded.
Variables (g : grid) (x : cell).
Hypothesis L : layout_ok g.
Hypothesis Hx : in_grid g x.

Lemma pass1_excluded d :
  fires g (mem d) x = false -> only_read d (exec (pass1 g (thread_of g x)) d).
Proof.
  intros Fx. destruct (thread_of_spec g L x Hx) as (_ & Hid & Hc).
  pose proof (flat_id_bound g L x Hx) as Hb.
  unfold pass1, projectPointsAndDepthTest, exec.
  rewrite Hid. rewrite (proj2 (Z.leb_gt _ _)) by lia.
  rewrite <- Hid. fold (cell_of g (thread_of g x)). rewrite Hc.
  destruct x as [[b r] c].
  rewrite (int_offset_cell g L b r c Hx).
  rewrite !(ptr_chan g L) by lia.
  unfold bind, load, ret, atomicMin. cbn [fst snd mem].
  unfold fires in Fx.
  change (F32.float_of_bits (mem d (InputBuf, 2 * is1 g + cell_off g (b, r, c))))
    with (point_z g (mem d) (b, r, c)).
  destruct (F32.leb (point_z g (mem d) (b, r, c)) (F32.of_int 0)).
  { split; [reflexivity|]. cbn [snd trace].
    eexists [_; _; _]. split; reflexivity. }
  cbn [negb andb] in Fx.
  change (F32.add (F32.mul (F32.div (F32.float_of_bits (mem d (InputBuf, 0 * is1 g + cell_off g (b, r, c))))
           (point_z g (mem d) (b, r, c))) (fx g)) (cx g)) with (xpix g (mem d) (b, r, c)).
  change (F32.add (F32.mul (F32.div (F32.float_of_bits (mem d (InputBuf, 1 * is1 g + cell_off g (b, r, c))))
           (point_z g (mem d) (b, r, c))) (fy g)) (cy g)) with (ypix g (mem d) (b, r, c)).
  fold (in_bounds g (F32.round (xpix g (mem d) (b, r, c))) (F32.round (ypix g (mem d) (b, r, c)))).
  rewrite Fx. split; [reflexivity|]. cbn [snd trace].
  eexists [_; _; _]. split; reflexivity.
Qed.

Lemma pass2_excluded d :
  fires g (mem d) x = false -> only_reset g x d (exec (pass2 g (thread_of g x)) d).
Proof.
  intros Fx. destruct (thread_of_spec g L x Hx) as (HIn & Hid & Hc).
  pose proof (flat_id_bound g L x Hx) as Hb.
  split.
  { rewrite (pass2_mem g L _ d HIn). unfold p2_step.
    rewrite Hid, Hc. rewrite (proj2 (Z.ltb_lt _ _)) by lia. cbv zeta.
    assert (W : wins g (reset_own g (mem d) x) x = false).
    { unfold wins. rewrite <- (same_fires g (mem d) (reset_own g (mem d) x)), Fx; [reflexivity|].
      unfold reset_own. destruct (F32.eqb _ _); [|apply same_input_refl].
      apply same_input_upd. cbn. discriminate. }
    rewrite W. reflexivity. }
  unfold pass2, refineOutput, exec.
  rewrite Hid. rewrite (proj2 (Z.leb_gt _ _)) by lia.
  rewrite <- Hid. fold (cell_of g (thread_of g x)). rewrite Hc.
  destruct x as [[b r] c].
  rewrite (int_offset_cell g L b r c Hx).
  rewrite !(ptr_chan g L) by lia.
  unfold bind at 1. unfold load at 1. cbn [fst snd mem].
  unfold bind at 1.
  change (OutputBuf, 2 * is1 g + cell_off g (b, r, c)) with (chan g OutputBuf 2 (b, r, c)).
  set (d0 := {| mem := mem d; trace := Load (chan g OutputBuf 2 (b, r, c)) :: trace d |}).
  match goal with
  | |- exists _, trace (snd (let (_, d') := ?cm ?dd in _)) = _ /\ _ =>
      assert (E : same_input (mem d) (mem (snd (cm dd))) /\
                  exists acc, trace (snd (cm dd)) = acc ++ trace d /\
                    forall a, In a acc -> is_load a = true \/ a = Store (chan g OutputBuf 2 (b, r, c)) 0);
      [|destruct (cm dd) as [u d1]]
  end.
  { destruct (F32.eqb _ _); cbn [snd store ret mem trace d0].
    - split; [apply same_input_upd; cbn; discriminate|].
      eexists [_; _]. split; [reflexivity|].
      intros a [<- | [<- | []]]; [right; reflexivity | left; reflexivity].
    - split; [apply same_input_refl|].
      eexists [_]. split; [reflexivity|].
      intros a [<- | []]. left. reflexivity. }
  cbn [snd] in E. destruct E as (S & acc & Et & Ha).
  unfold bind, load, ret, store. cbn [fst snd mem].
  unfold fires in Fx. rewrite (same_point_z g _ _ S), (same_xpix g _ _ S), (same_ypix g _ _ S) in Fx.
  change (F32.float_of_bits (mem d1 (InputBuf, 2 * is1 g + cell_off g (b, r, c))))
    with (point_z g (mem d1) (b, r, c)).
  destruct (F32.leb (point_z g (mem d1) (b, r, c)) (F32.of_int 0)).
  { cbn [snd trace]. exists (Load (InputBuf, 2 * is1 g + cell_off g (b, r, c))
                            :: Load (InputBuf, 1 * is1 g + cell_off g (b, r, c))
                            :: Load (InputBuf, 0 * is1 g + cell_off g (b, r, c)) :: acc).
    split; [rewrite Et; reflexivity|].
    intros a [<- | [<- | [<- | Hin]]]; auto. }
  cbn [negb andb] in Fx.
  change (F32.add (F32.mul (F32.div (F32.float_of_bits (mem d1 (InputBuf, 0 * is1 g + cell_off g (b, r, c))))
           (point_z g (mem d1) (b, r, c))) (fx g)) (cx g)) with (xpix g (mem d1) (b, r, c)).
  change (F32.add (F32.mul (F32.div (F32.float_of_bits (mem d1 (InputBuf, 1 * is1 g + cell_off g (b, r, c))))
           (point_z g (mem d1) (b, r, c))) (fy g)) (cy g)) with (ypix g (mem d1) (b, r, c)).
  fold (in_bounds g (F32.round (xpix g (mem d1) (b, r, c))) (F32.round (ypix g (mem d1) (b, r, c)))).
  rewrite Fx. cbn [snd trace].
  exists (Load (InputBuf, 2 * is1 g + cell_off g (b, r, c))
          :: Load (InputBuf, 1 * is1 g + cell_off g (b, r, c))
          :: Load (InputBuf, 0 * is1 g + cell_off g (b, r, c)) :: acc).
  split; [rewrite Et; reflexivity|].
  intros a [<- | [<- | [<- | Hin]]]; auto.
Qed.
End Excluded.

(** *** The 4097 x 4097 grid *)

Lemma g_large_ok : layout_ok g_large.
Proof. apply contiguous_layout_ok; lia. Qed.

Lemma g_large_cell_off b r c : cell_off g_large (b, r, c) = b * 50356227 + r * 4097 + c.
Proof. unfold cell_off. cbn [g_large contiguous is0 is2 is3]. lia. Qed.

Lemma m_large_a_single x :
  in_grid g_large x -> fires g_large m_large_a x = true -> x = (0, 0, 0).
Proof.
  intros Hx F.
  destruct (cell_eq_dec x (0, 0, 0)) as [E | N]; [exact E|]. exfalso.
  assert (O : cell_off g_large x <> 0).
  { intros O. apply N.
    apply (lo_inj g_large g_large_ok x (0, 0, 0) 0 0 Hx); [cbn; lia | lia | lia |].
    rewrite O. reflexivity. }
  destruct x as [[b r] c]. rewrite g_large_cell_off in O.
  unfold in_grid in Hx. cbn [g_large contiguous batchSize nrows ncols] in Hx.
  assert (Z : point_z g_large m_large_a (b, r, c) = S754_zero false).
  { unfold point_z, chan. rewrite g_large_cell_off.
    change (is1 g_large) with 16785409.
    unfold m_large_a, sparse. cbn [find fst snd ptr_eqb buffer_eqb andb].
    rewrite (proj2 (Z.eqb_neq _ _)) by lia.
    rewrite (proj2 (Z.eqb_neq _ _)) by lia.
    rewrite (proj2 (Z.eqb_neq _ _)) by lia.
    reflexivity. }
  unfold fires in F. rewrite Z in F. discriminate F.
Qed.

Lemma m_large_b_single x :
  in_grid g_large x -> fires g_large m_large_b x = true -> x = (0, 4095, 2).
Proof.
  intros Hx F.
  destruct (cell_eq_dec x (0, 4095, 2)) as [E | N]; [exact E|]. exfalso.
  assert (O : cell_off g_large x <> 16777217).
  { intros O. apply N.
    apply (lo_inj g_large g_large_ok x (0, 4095, 2) 0 0 Hx); [cbn; lia | lia | lia |].
    rewrite O. reflexivity. }
  destruct x as [[b r] c]. rewrite g_large_cell_off in O.
  assert (Z : point_z g_large m_large_b (b, r, c) = S754_zero false).
  { unfold point_z, chan. rewrite g_large_cell_off.
    change (is1 g_large) with 16785409.
    unfold m_large_b, sparse. cbn [find fst snd ptr_eqb buffer_eqb andb].
    rewrite (proj2 (Z.eqb_neq _ _)) by lia. reflexivity. }
  unfold fires in F. rewrite Z in F. discriminate F.
Qed.

Lemma m_large_b_targets : targets_exact g_large m_large_b.
Proof.
  intros x Hx F. rewrite (m_large_b_single x Hx F).
  assert (T : target g_large m_large_b (0, 4095, 2) = (0, 0, 0)) by (vm_compute; reflexivity).
  rewrite T. split; [cbn; lia|]. split; vm_compute; reflexivity.
Qed.

Lemma m_large_b_below : depths_below_sentinel g_large m_large_b.
Proof.
  intros x Hx E.
  assert (F : fires g_large m_large_b x = false).
  { destruct (fires g_large m_large_b x) eqn:F; [|reflexivity].
    rewrite (m_large_b_single x Hx F) in E. vm_compute in E. discriminate E. }
  destruct x as [[b r] c].
  destruct (cell_eq_dec (b, r, c) (0, 4095, 2)) as [E' | N].
  - rewrite E' in E. vm_compute in E. discriminate E.
  - assert (O : cell_off g_large (b, r, c) <> 16777217).
    { intros O. apply N.
      apply (lo_inj g_large g_large_ok (b, r, c) (0, 4095, 2) 0 0 Hx); [cbn; lia | lia | lia |].
      rewrite O. reflexivity. }
    rewrite g_large_cell_off in O.
    unfold point_z, chan in E. rewrite g_large_cell_off in E.
    change (is1 g_large) with 16785409 in E.
    unfold m_large_b, sparse in E. cbn [find fst snd ptr_eqb buffer_eqb andb] in E.
    rewrite (proj2 (Z.eqb_neq _ _)) in E by lia. discriminate E.
Qed.

(** On the large grid Forward records for cell (0, 0, 0) the point of
    offset 2^24 + 1, and the index map gives back 2^24. *)
Lemma large_grid_record (s1 s2 : scheduler) :
  fair s1 -> fair s2 ->
  let m2 := mem (Forward g_large s1 s2 (start m_large_b)) in
  m2 (imap_at g_large (0, 0, 0)) = F32.bits_of_float (F32.of_int 16777217) /\
  routed g_large m2 (0, 0, 0) = 16777216.
Proof.
  intros F1 F2. cbv zeta.
  rewrite (Forward_mem g_large g_large_ok s1 s2 _ F1 F2).
  change (mem (start m_large_b)) with m_large_b.
  assert (H0 : in_grid g_large (0, 0, 0)) by (cbn; lia).
  assert (HP : in_grid g_large (0, 4095, 2)) by (cbn; lia).
  assert (LP : lands_on g_large m_large_b (0, 4095, 2) (0, 0, 0))
    by (split; vm_compute; reflexivity).
  destruct (forward_cells g_large m_large_b s1 s2 g_large_ok F1 F2
              (fun x _ => eq_refl) m_large_b_targets m_large_b_below (0, 0, 0) H0)
    as [(_ & _ & _ & _ & _ & NoL) | (x & Hx & Ld & _ & _ & _ & _ & Ei & _)].
  - exfalso. exact (NoL _ HP LP).
  - assert (x = (0, 4095, 2)).
    { apply m_large_b_single; [exact Hx|]. rewrite fires_projects. apply Ld. }
    subst x. unfold threads_of.
    assert (E : forall w, w = F32.bits_of_float (F32.of_int (cell_off g_large (0, 4095, 2))) ->
              w = F32.bits_of_float (F32.of_int 16777217) /\
              F32.to_long (F32.float_of_bits w) = 16777216).
    { intros w ->. split; vm_compute; reflexivity. }
    destruct (E _ Ei) as [E1 E2]. split; [exact E1 | exact E2].
Qed.

(** *** Two batches of 2365 x 2367 cells *)

Lemma ptr_off_neq (b : buffer) (a a' : Z) : a <> a' -> (b, a) <> (b, a').
Proof. intros N H. apply N. exact (f_equal snd H). Qed.

Lemma g_stray_ok : layout_ok g_stray.
Proof. apply contiguous_layout_ok; lia. Qed.

Lemma g_stray_cell_off b r c : cell_off g_stray (b, r, c) = b * 16793865 + r * 2367 + c.
Proof. unfold cell_off. cbn [g_stray contiguous is0 is2 is3]. lia. Qed.

Lemma m_stray_single x :
  in_grid g_stray x -> fires g_stray m_stray x = true -> x = (1, 0, 0).
Proof.
  intros Hx F.
  destruct (cell_eq_dec x (1, 0, 0)) as [E | N]; [exact E|]. exfalso.
  assert (O : cell_off g_stray x <> 16793865).
  { intros O. apply N.
    apply (lo_inj g_stray g_stray_ok x (1, 0, 0) 0 0 Hx); [cbn; lia | lia | lia |].
    rewrite O. reflexivity. }
  destruct x as [[b r] c]. rewrite g_stray_cell_off in O.
  unfold in_grid in Hx. cbn [g_stray contiguous batchSize nrows ncols] in Hx.
  assert (Z : point_z g_stray m_stray (b, r, c) = S754_zero false).
  { unfold point_z, chan. rewrite g_stray_cell_off.
    change (is1 g_stray) with 5597955.
    unfold m_stray, sparse. cbn [find fst snd ptr_eqb buffer_eqb andb].
    rewrite (proj2 (Z.eqb_neq _ _)) by lia.
    rewrite (proj2 (Z.eqb_neq _ _)) by lia.
    reflexivity. }
  unfold fires in F. rewrite Z in F. discriminate F.
Qed.

Lemma stray_step (m : memory) (t : thread) :
  In t (threads_of g_stray) -> stray_inv m ->
  stray_inv (p2_step g_stray m t) /\
  (stray_done m -> stray_done (p2_step g_stray m t)) /\
  (thread_id t < npoints g_stray -> cell_of g_stray t = (1, 0, 0) ->
   stray_done (p2_step g_stray m t)).
Proof.
  intros Ht (S & P1 & Q).
  unfold p2_step.
  destruct (Z.ltb_spec (thread_id t) (npoints g_stray)) as [A | A].
  2:{ split; [exact (conj S (conj P1 Q))|]. split; [auto | intros; lia]. }
  destruct (active_thread g_stray g_stray_ok t Ht A) as [Hx _].
  set (x := cell_of g_stray t) in *.
  set (m1 := reset_own g_stray m x).
  assert (R : stray_inv m1 /\ (stray_done m -> stray_done m1)).
  { unfold m1, reset_own.
    destruct (eqb (float_of_bits (m (chan g_stray OutputBuf 2 x))) HUGE_VALF) eqn:E.
    2:{ split; [exact (conj S (conj P1 Q)) | auto]. }
    destruct x as [[b r] c]. unfold chan in E |- *. rewrite g_stray_cell_off in E |- *.
    change (is1 g_stray) with 5597955 in E |- *.
    unfold in_grid in Hx. cbn [g_stray contiguous batchSize nrows ncols] in Hx.
    split; [split; [|split]|].
    - intros a. rewrite upd_buf by (cbn; discriminate). apply S.
    - rewrite upd_other by (apply ptr_off_neq; lia). exact P1.
    - destruct (Z.eq_dec (2 * 5597955 + (b * 16793865 + r * 2367 + c)) 16793864) as [Eq | Ne].
      + rewrite Eq, upd_same. right. left. reflexivity.
      + rewrite upd_other by (apply ptr_off_neq; lia). exact Q.
    - unfold stray_done. intros D.
      destruct (Z.eq_dec (2 * 5597955 + (b * 16793865 + r * 2367 + c)) 16793864) as [Eq | Ne].
      + exfalso. rewrite Eq, D in E. vm_compute in E. discriminate E.
      + rewrite upd_other by (apply ptr_off_neq; lia). exact D. }
  destruct R as [(S1 & P1' & Q1) K1].
  assert (W : wins g_stray m1 x = true -> x = (1, 0, 0)).
  { unfold wins. intros H. apply andb_true_iff in H. destruct H as [F _].
    rewrite <- (same_fires g_stray m_stray m1 S1) in F.
    apply m_stray_single; assumption. }
  assert (C : x = (1, 0, 0) ->
            wins g_stray m1 x = true /\
            stray_inv (commit g_stray m1 x) /\ stray_done (commit g_stray m1 x)).
  { intros ->. 
    assert (Wt : wins g_stray m1 (1, 0, 0) = true).
    { unfold wins.
      rewrite <- (same_fires g_stray m_stray m1 S1), <- (same_point_z g_stray m_stray m1 S1),
        <- (same_depth_ptr g_stray m_stray m1 S1).
      change (depth_ptr g_stray m_stray (1, 0, 0)) with (OutputBuf, 2 * 5597955 + valo g_stray m_stray (1, 0, 0)).
      replace (valo g_stray m_stray (1, 0, 0)) with 16793864 by (vm_compute; reflexivity).
      change (2 * 5597955 + 16793864) with 27989774. rewrite P1'.
      vm_compute. reflexivity. }
    split; [exact Wt|].
    unfold commit.
    rewrite <- (same_valo g_stray m_stray m1 S1), <- (same_valim g_stray m_stray m1 S1),
      <- (same_xpix g_stray m_stray m1 S1), <- (same_ypix g_stray m_stray m1 S1).
    replace (valo g_stray m_stray (1, 0, 0)) with 16793864 by (vm_compute; reflexivity).
    change (is1 g_stray) with 5597955.
    change (0 * 5597955 + 16793864) with 16793864.
    change (1 * 5597955 + 16793864) with 22391819.
    assert (D : stray_done
      (upd (upd (upd m1 (OutputBuf, 16793864) (bits_of_float (xpix g_stray m_stray (1, 0, 0))))
              (OutputBuf, 22391819) (bits_of_float (ypix g_stray m_stray (1, 0, 0))))
         (IndexMapBuf, valim g_stray m_stray (1, 0, 0))
         (bits_of_float (of_int (cell_off g_stray (1, 0, 0)))))).
    { unfold stray_done. rewrite upd_buf by (cbn; discriminate).
      rewrite upd_other by discriminate. apply upd_same. }
    split; [|exact D].
    split; [|split].
    - intros a. rewrite !upd_buf by (cbn; discriminate). apply S1.
    - rewrite upd_buf by (cbn; discriminate). rewrite !upd_other by discriminate. exact P1'.
    - right. right. exact D. }
  destruct (wins g_stray m1 x) eqn:Wx.
  - destruct (C (W eq_refl)) as (_ & I & D). split; [exact I|]. split; intros; exact D.
  - split; [exact (conj S1 (conj P1' Q1))|]. split; [exact K1|].
    intros _ Ex. destruct (C Ex) as (Wt & _). discriminate Wt.
Qed.

Lemma stray_fold (l : list thread) : forall m,
  (forall t, In t l -> In t (threads_of g_stray)) -> stray_inv m ->
  stray_inv (fold_left (p2_step g_stray) l m) /\
  (stray_done m -> stray_done (fold_left (p2_step g_stray) l m)) /\
  ((exists t, In t l /\ thread_id t < npoints g_stray /\ cell_of g_stray t = (1, 0, 0)) ->
   stray_done (fold_left (p2_step g_stray) l m)).
Proof.
  induction l as [ | t l IH]; intros m Hl I; cbn [fold_left].
  - split; [exact I|]. split; [auto|]. intros (t & [] & _).
  - destruct (stray_step m t (Hl t (or_introl eq_refl)) I) as (I1 & K1 & D1).
    destruct (IH (p2_step g_stray m t) (fun t' H => Hl t' (or_intror H)) I1) as (I2 & K2 & D2).
    split; [exact I2|]. split; [auto|].
    intros (t' & [-> | Ht'] & A & E).
    + apply K2. apply D1; assumption.
    + apply D2. exists t'. auto.
Qed.

(** *** The 2 x 2 grid *)

Lemma g_small_ok : layout_ok g_small.
Proof. apply contiguous_layout_ok; lia. Qed.

Lemma g_small_offsets : small_offsets g_small.
Proof. apply contiguous_small_offsets; lia. Qed.

Lemma g_small_cells x :
  in_grid g_small x -> x = (0, 0, 0) \/ x = (0, 0, 1) \/ x = (0, 1, 0) \/ x = (0, 1, 1).
Proof.
  destruct x as [[b r] c]. unfold in_grid. cbn [g_small contiguous batchSize nrows ncols].
  intros (Hb & Hr & Hc).
  assert (b = 0) by lia. assert (r = 0 \/ r = 1) by lia. assert (c = 0 \/ c = 1) by lia.
  subst b. destruct H0 as [-> | ->], H1 as [-> | ->]; auto.
Qed.

Lemma m_small_ready : forward_ready g_small m_small.
Proof.
  constructor.
  - exact g_small_ok.
  - intros x Hx. reflexivity.
  - intros x Hx. reflexivity.
  - intros x Hx E.
    destruct (g_small_cells x Hx) as [-> | [-> | [-> | ->]]]; vm_compute in E; discriminate E.
  - apply small_offsets_targets_exact; [exact g_small_ok | exact g_small_offsets].
  - apply small_offsets_offsets_exact; [exact g_small_ok | exact g_small_offsets].
Qed.


Lemma one_positive : positive_float one.
Proof. split; vm_compute; reflexivity. Qed.

Lemma half_positive : positive_float half.
Proof. split; vm_compute; reflexivity. Qed.

Lemma in_g_small_000 : in_grid g_small (0, 0, 0).
Proof. cbn. lia. Qed.

Lemma in_g_small_010 : in_grid g_small (0, 1, 0).
Proof. cbn. lia. Qed.

Lemma m_small_routes :
  routes_ok g_small (mem (Forward g_small in_order in_order (start m_small))).
Proof.
  exact (Forward_routes_ok g_small (start m_small) in_order in_order
           m_small_ready fair_in_order fair_in_order).
Qed.


(** *** The buffers a kernel leaves alone *)

Lemma run_threads_rel (R : device -> device -> Prop) (k : thread -> M unit) (l : list thread) :
  (forall d, R d d) -> (forall a b c, R a b -> R b c -> R a c) ->
  (forall t d, In t l -> R d (exec (k t) d)) ->
  forall d, R d (exec (run_threads k l) d).
Proof.
  intros Rr Rt. induction l as [ | t l IH]; intros Hk d.
  - apply Rr.
  - cbn [run_threads]. unfold exec, bind.
    pose proof (Hk t d (or_introl eq_refl)) as H1. unfold exec in H1.
    destruct (k t d) as [u d1]. cbn [snd] in H1.
    apply (Rt _ _ _ H1). apply IH. intros t' d' Ht'. apply Hk. right. exact Ht'.
Qed.

Lemma p1_effect_refl d : p1_effect d d.
Proof. split; intros; [lia | reflexivity]. Qed.

Lemma p1_effect_trans a b c : p1_effect a b -> p1_effect b c -> p1_effect a c.
Proof.
  intros (L1 & F1) (L2 & F2). split; intros p.
  - specialize (L1 p). specialize (L2 p). lia.
  - intros N. rewrite F2, F1 by exact N. reflexivity.
Qed.

Lemma p2_effect_refl d : p2_effect d d.
Proof. intros p _ _. reflexivity. Qed.

Lemma p2_effect_trans a b c : p2_effect a b -> p2_effect b c -> p2_effect a c.
Proof. intros F1 F2 p N N'. rewrite F2, F1 by assumption. reflexivity. Qed.

Lemma bw_effect_refl d : bw_effect d d.
Proof. intros p _. reflexivity. Qed.

Lemma bw_effect_trans a b c : bw_effect a b -> bw_effect b c -> bw_effect a c.
Proof. intros F1 F2 p N. rewrite F2, F1 by assumption. reflexivity. Qed.

Lemma projectPointsAndDepthTest_effect i0 o0 fy fx cy cx B R C N s0 s1 s2 s3 t d :
  p1_effect d (exec (projectPointsAndDepthTest (InputBuf, i0) (OutputBuf, o0)
                       fy fx cy cx B R C N s0 s1 s2 s3 t) d).
Proof.
  unfold projectPointsAndDepthTest, exec.
  destruct (N <=? thread_id t); [apply p1_effect_refl|].
  destruct (getCoordinates_1 (thread_id t) R C) as [[b r] c].
  unfold bind, load, ret, atomicMin, padd. cbn [fst snd mem trace].
  match goal with |- context [if ?c then _ else _] => destruct c end.
  { cbn [snd]. split; intros; [cbn; lia | reflexivity]. }
  match goal with |- context [if ?c then _ else _] => destruct c end.
  2:{ cbn [snd]. split; intros; [cbn; lia | reflexivity]. }
  cbn [snd fst mem trace].
  split; intros p.
  - cbn [mem]. unfold upd. destruct (ptr_eqb p _) eqn:E; [|lia].
    apply ptr_eqb_eq in E. subst p. lia.
  - intros Np. cbn [mem]. apply upd_buf. exact Np.
Qed.

Lemma refineOutput_effect i0 o0 m0 fy fx cy cx B R C N s0 s1 s2 s3 t0 t1 t2 t3 t d :
  p2_effect d (exec (refineOutput (InputBuf, i0) (OutputBuf, o0) (IndexMapBuf, m0)
                       fy fx cy cx B R C N s0 s1 s2 s3 t0 t1 t2 t3 t) d).
Proof.
  unfold refineOutput, exec.
  destruct (N <=? thread_id t); [apply p2_effect_refl|].
  destruct (getCoordinates_1 (thread_id t) R C) as [[b r] c].
  unfold bind at 1. unfold load at 1. cbn [fst snd mem].
  unfold bind at 1.
  set (d0 := {| mem := mem d; trace := Load ((OutputBuf, o0) +p wrap32 (2 * s1) +p int_offset b r c s0 s2 s3) :: trace d |}).
  assert (E0 : p2_effect d d0) by (intros p _ _; reflexivity).
  match goal with
  | |- p2_effect d (snd (let (_, d') := ?c d0 in _)) =>
      assert (E1 : p2_effect d0 (snd (c d0)));
      [ | destruct (c d0) as [u d1] ]
  end.
  { destruct (eqb _ _).
    - unfold store, padd. cbn [fst snd].
      intros p Np _. cbn [mem]. apply upd_buf. exact Np.
    - apply p2_effect_refl. }
  cbn [snd] in E1.
  apply (p2_effect_trans _ _ _ E0). apply (p2_effect_trans _ _ _ E1). clear E0 E1 d0.
  unfold bind, load, ret, store, padd. cbn [fst snd mem trace].
  match goal with |- context [if ?c then _ else _] => destruct c end.
  { cbn [snd]. intros p _ _. reflexivity. }
  match goal with |- context [if ?c then _ else _] => destruct c end.
  2:{ cbn [snd]. intros p _ _. reflexivity. }
  cbn [snd fst mem trace].
  match goal with |- context [if ?c then _ else _] => destruct c end.
  2:{ cbn [snd]. intros p _ _. reflexivity. }
  cbn [snd fst mem trace].
  intros p Np Nq. cbn [mem].
  rewrite upd_buf by exact Nq. rewrite !upd_buf by exact Np. reflexivity.
Qed.

Lemma projectionGradient_effect i0 g0 m0 r0 fy fx B R C N s0 s1 s2 s3 t0 t1 t2 t3 t d :
  bw_effect d (exec (projectionGradient (InputBuf, i0) (GradOutputBuf, g0) (IndexMapBuf, m0)
                       (GradInputBuf, r0) fy fx B R C N s0 s1 s2 s3 t0 t1 t2 t3 t) d).
Proof.
  unfold projectionGradient, exec.
  destruct (N <=? thread_id t); [apply bw_effect_refl|].
  destruct (getCoordinates_1 (thread_id t) R C) as [[b r] c].
  unfold bind, load, ret, store, padd. cbn [fst snd mem trace].
  match goal with |- context [if ?c then _ else _] => destruct c end.
  { cbn [snd]. intros p _. reflexivity. }
  cbn [snd fst mem trace].
  intros p Np. cbn [mem]. rewrite !upd_buf by exact Np. reflexivity.
Qed.

Lemma launch_rel (R : device -> device -> Prop) (k : thread -> M unit) nb bd s :
  (forall d, R d d) -> (forall a b c, R a b -> R b c -> R a c) ->
  (forall t d, R d (exec (k t) d)) ->
  forall d, R d (exec (launch k nb bd s) d).
Proof. intros Rr Rt Hk d. unfold launch. apply run_threads_rel; auto. Qed.

Lemma run_pass1_effect (g : grid) (s : scheduler) (d : device) : p1_effect d (run_pass1 g s d).
Proof.
  unfold run_pass1. apply (launch_rel p1_effect); [apply p1_effect_refl | apply p1_effect_trans|].
  intros t d'. apply projectPointsAndDepthTest_effect.
Qed.

Lemma run_pass2_effect (g : grid) (s : scheduler) (d : device) : p2_effect d (run_pass2 g s d).
Proof.
  unfold run_pass2. apply (launch_rel p2_effect); [apply p2_effect_refl | apply p2_effect_trans|].
  intros t d'. apply refineOutput_effect.
Qed.

Lemma Forward_keeps_other_buffers (g : grid) (s1 s2 : scheduler) (d : device) (p : ptr) :
  layout_ok g -> fst p <> OutputBuf -> fst p <> IndexMapBuf ->
  mem (Forward g s1 s2 d) p = mem d p.
Proof.
  intros L N N'. rewrite (Forward_passes g L).
  rewrite (run_pass2_effect g s2 _ p N N').
  apply (proj2 (run_pass1_effect g s1 d) p N).
Qed.

Lemma Backward_keeps_other_buffers (g : grid) (s : scheduler) (d : device) (p : ptr) :
  layout_ok g -> fst p <> GradInputBuf -> mem (Backward g s d) p = mem d p.
Proof.
  intros L N. unfold Backward. rewrite (backward_exec g L).
  revert p N. fold (bw_effect d (exec (launch (backward g) (numBlocks_of (npoints g)) 256 s) d)).
  apply (launch_rel bw_effect); [apply bw_effect_refl | apply bw_effect_trans|].
  intros t d'. apply projectionGradient_effect.
Qed.


(** *** The 4097 x 4097 grid, through Forward and Backward *)

Lemma large_grid_forward (s1 s2 : scheduler) :
  fair s1 -> fair s2 ->
  let m2 := mem (Forward g_large s1 s2 (start m_large_b)) in
  (forall o, in_grid g_large o -> o <> (0, 0, 0) -> routed g_large m2 o = -1) /\
  (forall p, fst p <> OutputBuf -> fst p <> IndexMapBuf -> m2 p = m_large_b p) /\
  routes_ok g_large m2.
Proof.
  intros F1 F2. cbv zeta.
  destruct (large_grid_record s1 s2 F1 F2) as [_ R0]. cbv zeta in R0.
  assert (K : forall p, fst p <> OutputBuf -> fst p <> IndexMapBuf ->
            mem (Forward g_large s1 s2 (start m_large_b)) p = m_large_b p).
  { intros p N N'. apply (Forward_keeps_other_buffers g_large s1 s2 (start m_large_b) p g_large_ok N N'). }
  assert (U : forall o, in_grid g_large o -> o <> (0, 0, 0) ->
            routed g_large (mem (Forward g_large s1 s2 (start m_large_b))) o = -1).
  { intros o Ho No. unfold routed.
    rewrite (Forward_mem g_large g_large_ok s1 s2 _ F1 F2).
    change (mem (start m_large_b)) with m_large_b.
    destruct (forward_cells g_large m_large_b s1 s2 g_large_ok F1 F2
                (fun x _ => eq_refl) m_large_b_targets m_large_b_below o Ho)
      as [(_ & _ & Ei & _) | (x & Hx & Ld & _)].
    - unfold threads_of. rewrite Ei. reflexivity.
    - exfalso. apply No.
      assert (x = (0, 4095, 2)).
      { apply m_large_b_single; [exact Hx|]. rewrite fires_projects. apply Ld. }
      subst x. destruct Ld as [_ T]. rewrite <- T. vm_compute. reflexivity. }
  split; [exact U|]. split; [exact K|].
  split.
  - intros o Ho. destruct (cell_eq_dec o (0, 0, 0)) as [-> | No].
    + right. exists (0, 4095, 1). split; [cbn; lia|]. rewrite R0. reflexivity.
    + left. apply U; assumption.
  - intros o o' Ho Ho' N E.
    destruct (cell_eq_dec o (0, 0, 0)) as [-> | No]; [|exfalso; apply N; apply U; assumption].
    destruct (cell_eq_dec o' (0, 0, 0)) as [-> | No']; [reflexivity|].
    exfalso. apply N. rewrite E. apply U; assumption.
Qed.

(** Backward, run on what Forward left, writes the gradient of cell
    (0, 0, 0) at offset 2^24, where the point of cell (0, 4095, 1) is, whose
    depth is 0, and leaves the gradient at offset 2^24 + 1 as it was. *)
Lemma large_grid_backward (s1 s2 s3 : scheduler) :
  fair s1 -> fair s2 -> fair s3 ->
  let d2 := Forward g_large s1 s2 (start m_large_b) in
  let d3 := Backward g_large s3 d2 in
  mem d3 (chan g_large GradInputBuf 0 (0, 4095, 1)) = F32.bits_of_float F32.HUGE_VALF /\
  mem d2 (chan g_large GradInputBuf 0 (0, 4095, 1)) = 0 /\
  forall k, 0 <= k <= 2 -> mem d3 (chan g_large GradInputBuf k (0, 4095, 2)) = 0.
Proof.
  intros F1 F2 F3. cbv zeta.
  destruct (large_grid_record s1 s2 F1 F2) as [_ R0]. cbv zeta in R0.
  destruct (large_grid_forward s1 s2 F1 F2) as (U & K & RO). cbv zeta in U, K, RO.
  set (d2 := Forward g_large s1 s2 (start m_large_b)) in *.
  assert (H0 : in_grid g_large (0, 0, 0)) by (cbn; lia).
  assert (N0 : routed g_large (mem d2) (0, 0, 0) <> -1) by (rewrite R0; discriminate).
  split; [|split].
  - pose proof (Backward_written g_large d2 s3 g_large_ok F3 RO (0, 0, 0) 0 H0 N0 ltac:(lia)) as W.
    unfold grad_ptr in W. rewrite R0 in W.
    change (chan g_large GradInputBuf 0 (0, 4095, 1))
      with (GradInputBuf, 0 * is1 g_large + 16777216).
    rewrite W. unfold grad_word. cbn [Z.eqb]. unfold grad0, in_at, gout. rewrite R0.
    rewrite !K by (cbn; discriminate). vm_compute. reflexivity.
  - rewrite K by (cbn; discriminate). reflexivity.
  - intros k Hk.
    rewrite (Backward_untouched g_large d2 s3 g_large_ok F3 RO).
    + rewrite K by (cbn; discriminate).
      assert (k = 0 \/ k = 1 \/ k = 2) as [-> | [-> | ->]] by lia; reflexivity.
    + intros o k' Ho N Hk' E.
      destruct (cell_eq_dec o (0, 0, 0)) as [-> | No]; [|apply N; apply U; assumption].
      unfold grad_ptr in E. rewrite R0 in E. unfold chan in E.
      rewrite g_large_cell_off in E. change (is1 g_large) with 16785409 in E.
      apply (f_equal snd) in E. cbn [snd] in E. lia.
Qed.



(** * The claims *)

(** ** C1: the depth test of pass 1 *)

(** Claim C1, at an input on which the code departs from it. On the
    4097 x 4097 grid, with the depth channel pre-filled with the sentinel,
    the only point with a projection, (1, 4096, 1) stored in cell (0, 0, 0),
    lands on cell (0, 4096, 1). The offset of that cell, 4096 * 4097 + 1,
    is above 2^24 and the single-precision sum that computes it gives
    4096 * 4097: under every schedule pass 1 leaves the sentinel in the
    depth channel of cell (0, 4096, 1) and the depth 1 in that of cell
    (0, 4096, 0), on which no point lands. *)
Theorem pass1_misplaces_depth_on_large_grid (s : scheduler) :
  fair s ->
  let d1 := run_pass1 g_large s (start m_large_a) in
  depth_prefilled g_large m_large_a /\
  lands_on g_large m_large_a (0, 0, 0) (0, 4096, 1) /\
  mem d1 (chan g_large OutputBuf 2 (0, 4096, 1)) = F32.bits_of_float F32.HUGE_VALF /\
  mem d1 (chan g_large OutputBuf 2 (0, 4096, 0)) = F32.bits_of_float (F32.of_int 1) /\
  forall x, in_grid g_large x -> ~ lands_on g_large m_large_a x (0, 4096, 0).
Proof.
  intros F. cbv zeta. rewrite (run_pass1_mem g_large g_large_ok s _ F).
  destruct (pass1_fold g_large (s (threads_of g_large)) (mem (start m_large_a)))
    as (_ & _ & _ & Of & Ex).
  change (mem (start m_large_a)) with m_large_a in *.
  set (m1 := fold_left (p1_step g_large) (s (threads_of g_large)) m_large_a) in *.
  assert (H0 : in_grid g_large (0, 0, 0)) by (cbn; lia).
  assert (Only : forall t p w, In t (s (threads_of g_large)) -> offers g_large m_large_a t p w ->
            p = (OutputBuf, 50352130) /\ w = 1065353216).
  { intros t p w Ht (A & Fi & P & W).
    apply (fair_in_inv s _ _ F) in Ht.
    destruct (active_thread g_large g_large_ok t Ht A) as [Hx _].
    rewrite (m_large_a_single _ Hx Fi) in P, W.
    split; [rewrite <- P | rewrite <- W]; vm_compute; reflexivity. }
  split; [intros x Hx; reflexivity|].
  split; [split; vm_compute; reflexivity|].
  split.
  { destruct (Ex (chan g_large OutputBuf 2 (0, 4096, 1))) as [E | (t & w & Ht & O & E)].
    - rewrite E. reflexivity.
    - destruct (Only t _ w Ht O) as [P _]. vm_compute in P. discriminate P. }
  split.
  { assert (O : offers g_large m_large_a (thread_of g_large (0, 0, 0)) (OutputBuf, 50352130) 1065353216).
    { destruct (thread_of_spec g_large g_large_ok (0, 0, 0) H0) as (_ & Hid & Hc).
      unfold offers. rewrite Hc, Hid. repeat split; vm_compute; reflexivity. }
    pose proof (Of _ _ _ (fair_in s _ _ F (proj1 (thread_of_spec g_large g_large_ok (0, 0, 0) H0))) O) as Le.
    change (chan g_large OutputBuf 2 (0, 4096, 0)) with (OutputBuf, 50352130).
    destruct (Ex (OutputBuf, 50352130)) as [E | (t & w & Ht & O' & E)].
    - rewrite E in Le. vm_compute in Le. contradiction Le. reflexivity.
    - destruct (Only t _ w Ht O') as [_ ->]. rewrite E. reflexivity. }
  intros x Hx [P T].
  rewrite <- fires_projects in P. rewrite (m_large_a_single x Hx P) in T.
  vm_compute in T. discriminate T.
Qed.

(** Under the schedule that runs the threads in launch order. *)
Lemma pass1_misplaces_depth_on_large_grid_witness :
  mem (run_pass1 g_large in_order (start m_large_a)) (chan g_large OutputBuf 2 (0, 4096, 1)) =
    F32.bits_of_float F32.HUGE_VALF /\
  mem (run_pass1 g_large in_order (start m_large_a)) (chan g_large OutputBuf 2 (0, 4096, 0)) =
    F32.bits_of_float (F32.of_int 1).
Proof.
  pose proof (pass1_misplaces_depth_on_large_grid in_order fair_in_order) as H.
  exact (conj (proj1 (proj2 (proj2 H))) (proj1 (proj2 (proj2 (proj2 H))))).
Defined.

(** ** C2: the order of positive floats is the order of their words *)

(** Claim C2. For positive single-precision numbers [a] and [b], finite or
    infinite, the word of [a] read as an unsigned integer is at most that
    of [b] exactly when [a <= b]. So the integer minimum of pass 1 is a
    minimum of depths: an element of the output that holds a positive
    number [z0], the sentinel for one, when pass 1 starts holds, when pass 1
    ends, whatever the order of the threads, the word of a positive number
    [z] that is at most [z0], at most the depth of every point whose thread
    applied [atomicMin] to the element, each of them a positive number, and
    that is [z0] or the depth of one of these points. *)
Theorem float_order_is_word_order :
  (forall a b, positive_float a -> positive_float b ->
     (bits_of_float a <=? bits_of_float b) = F32.leb a b) /\
  (forall g s d p z0, layout_ok g -> fair s ->
     positive_float z0 -> mem d p = bits_of_float z0 ->
     let w := mem (run_pass1 g s d) p in
     let z := float_of_bits w in
     positive_float z /\ w = bits_of_float z /\
     F32.leb z z0 = true /\
     (forall x, in_grid g x -> fires g (mem d) x = true -> depth_ptr g (mem d) x = p ->
        positive_float (point_z g (mem d) x) /\
        depth_word g (mem d) x = bits_of_float (point_z g (mem d) x) /\
        F32.leb z (point_z g (mem d) x) = true) /\
     (z = z0 \/
      exists x, in_grid g x /\ fires g (mem d) x = true /\
        depth_ptr g (mem d) x = p /\ z = point_z g (mem d) x)).
Proof.
  split.
  { intros a b A B. destruct (positive_float_word a A) as [Da _].
    destruct (positive_float_word b B) as [Db _].
    symmetry. apply (leb_decoded _ _ _ _ Da Db). }
  intros g s d p z0 L F P0 E. cbv zeta.
  rewrite (run_pass1_mem g L s d F).
  destruct (pass1_fold g (s (threads_of g)) (mem d)) as (_ & _ & Le & Of & Ex).
  set (m1 := fold_left (p1_step g) (s (threads_of g)) (mem d)) in *.
  assert (PZ : forall x, fires g (mem d) x = true -> positive_float (point_z g (mem d) x)).
  { intros x Fx. split; [apply float_of_bits_valid | apply (fires_positive _ _ _ Fx)]. }
  destruct (positive_float_word z0 P0) as [D0 _].
  assert (Pm : exists z, positive_float z /\ m1 p = bits_of_float z /\
            (z = z0 \/
             exists x, in_grid g x /\ fires g (mem d) x = true /\
               depth_ptr g (mem d) x = p /\ z = point_z g (mem d) x)).
  { destruct (Ex p) as [E1 | (t & w & Ht & (A & Fi & P & W) & E1)].
    - exists z0. split; [exact P0|]. split; [rewrite E1; exact E|]. left. reflexivity.
    - apply (fair_in_inv s _ _ F) in Ht.
      destruct (active_thread g L t Ht A) as [Hx _].
      exists (point_z g (mem d) (cell_of g t)).
      split; [apply PZ; exact Fi|].
      split.
      + rewrite E1, <- W. unfold depth_word.
        apply (proj2 (positive_float_word _ (PZ _ Fi))).
      + right. exists (cell_of g t). auto. }
  destruct Pm as (z & Pz & Ez & Wz).
  destruct (positive_float_word z Pz) as [Dz _].
  assert (Fz : float_of_bits (m1 p) = z) by (rewrite Ez; apply (decoded_pos_fun _ _ Dz)).
  rewrite Fz.
  split; [exact Pz|]. split; [exact Ez|].
  split.
  { rewrite (leb_decoded _ _ _ _ Dz D0). apply Z.leb_le.
    rewrite <- Ez, <- E. apply Le. }
  split; [|exact Wz].
  intros x Hx Fx Px. split; [apply PZ; exact Fx|].
  destruct (positive_float_word _ (PZ _ Fx)) as [Dx Wx].
  split; [exact Wx|].
  destruct (thread_of_spec g L x Hx) as (HIn & Hid & Hc).
  assert (O : offers g (mem d) (thread_of g x) p (depth_word g (mem d) x)).
  { unfold offers. rewrite Hc, Hid. repeat split; auto. apply (flat_id_bound g L x Hx). }
  pose proof (Of _ _ _ (fair_in s _ _ F HIn) O) as Le'.
  fold m1 in Le'. unfold depth_word in Le'. rewrite Wx in Le'.
  rewrite (leb_decoded _ _ _ _ Dz Dx). rewrite <- Ez. apply Z.leb_le. exact Le'.
Qed.

(** On the 2 x 2 grid, for the depth of cell (0, 0, 0), which holds the
    sentinel and on which the points of depth 1 and 0.5 land. *)
Lemma float_order_is_word_order_witness :
  (bits_of_float one <=? bits_of_float half) = F32.leb one half /\
  let w := mem (run_pass1 g_small in_order (start m_small)) (chan g_small OutputBuf 2 (0, 0, 0)) in
  w = bits_of_float (float_of_bits w) /\
  F32.leb (float_of_bits w) (point_z g_small m_small (0, 0, 1)) = true.
Proof.
  split.
  - exact (proj1 float_order_is_word_order one half one_positive half_positive).
  - destruct (proj2 float_order_is_word_order g_small in_order (start m_small)
                (chan g_small OutputBuf 2 (0, 0, 0)) HUGE_VALF g_small_ok fair_in_order
                (conj eq_refl eq_refl) eq_refl)
      as (_ & A & _ & B & _).
    split; [exact A|].
    exact (proj2 (proj2 (B (0, 0, 1) ltac:(cbn; lia) eq_refl eq_refl))).
Defined.

(** ** C3: index map and depth channel after Forward *)




(** ** C4: the reset of unclaimed cells *)

(** Claim C4. On the input [m_stray] cell (0, 2364, 2366) is the target of
    no point and holds the sentinel when pass 2 starts, and under every
    schedule Forward leaves in its depth channel the column coordinate 0.25
    of the point of cell (1, 0, 0), not 0. *)
Theorem stray_commit_overwrites_depth (s1 s2 : scheduler) :
  fair s1 -> fair s2 ->
  let d1 := run_pass1 g_stray s1 (start m_stray) in
  let d2 := Forward g_stray s1 s2 (start m_stray) in
  depth_prefilled g_stray m_stray /\
  (forall x, in_grid g_stray x -> ~ lands_on g_stray m_stray x (0, 2364, 2366)) /\
  sentinel_at g_stray (mem d1) (0, 2364, 2366) /\
  mem d2 (chan g_stray OutputBuf 2 (0, 2364, 2366)) =
    F32.bits_of_float (xpix g_stray m_stray (1, 0, 0)) /\
  mem d2 (chan g_stray OutputBuf 2 (0, 2364, 2366)) <> 0.
Proof.
  intros F1 F2. cbv zeta.
  rewrite (Forward_mem g_stray g_stray_ok s1 s2 _ F1 F2).
  rewrite (run_pass1_mem g_stray g_stray_ok s1 _ F1).
  destruct (pass1_fold g_stray (s1 (threads_of g_stray)) (mem (start m_stray)))
    as (Si & _ & _ & Of & Ex).
  change (mem (start m_stray)) with m_stray in *.
  set (m1 := fold_left (p1_step g_stray) (s1 (threads_of g_stray)) m_stray) in *.
  assert (HP : in_grid g_stray (1, 0, 0)) by (cbn; lia).
  assert (Only : forall t p w, In t (s1 (threads_of g_stray)) -> offers g_stray m_stray t p w ->
            p = (OutputBuf, 27989774) /\ w = 1082130432).
  { intros t p w Ht (A & Fi & P & W).
    apply (fair_in_inv s1 _ _ F1) in Ht.
    destruct (active_thread g_stray g_stray_ok t Ht A) as [Hx _].
    rewrite (m_stray_single _ Hx Fi) in P, W.
    split; [rewrite <- P | rewrite <- W]; vm_compute; reflexivity. }
  assert (E1 : m1 (OutputBuf, 27989774) = bits_of_float (of_int 4)).
  { assert (O : offers g_stray m_stray (thread_of g_stray (1, 0, 0)) (OutputBuf, 27989774) 1082130432).
    { destruct (thread_of_spec g_stray g_stray_ok (1, 0, 0) HP) as (_ & Hid & Hc).
      unfold offers. rewrite Hc, Hid. repeat split; vm_compute; reflexivity. }
    pose proof (Of _ _ _ (fair_in s1 _ _ F1 (proj1 (thread_of_spec g_stray g_stray_ok (1, 0, 0) HP))) O) as Le.
    destruct (Ex (OutputBuf, 27989774)) as [E | (t & w & Ht & O' & E)].
    - rewrite E in Le. vm_compute in Le. contradiction Le. reflexivity.
    - destruct (Only t _ w Ht O') as [_ ->]. rewrite E. reflexivity. }
  assert (E2 : m1 (OutputBuf, 16793864) = bits_of_float HUGE_VALF).
  { destruct (Ex (OutputBuf, 16793864)) as [E | (t & w & Ht & O & E)].
    - rewrite E. reflexivity.
    - destruct (Only t _ w Ht O) as [P _]. discriminate P. }
  assert (I : stray_inv m1).
  { split; [exact Si|]. split; [exact E1|]. left. exact E2. }
  destruct (stray_fold (s2 (threads_of g_stray)) m1
              (fun t H => fair_in_inv s2 _ _ F2 H) I) as (_ & _ & D).
  assert (Dn : stray_done (fold_left (p2_step g_stray) (s2 (threads_of g_stray)) m1)).
  { apply D. exists (thread_of g_stray (1, 0, 0)).
    destruct (thread_of_spec g_stray g_stray_ok (1, 0, 0) HP) as (Hin & Hid & Hc).
    split; [apply (fair_in s2 _ _ F2 Hin)|]. split; [|exact Hc].
    rewrite Hid. vm_compute. reflexivity. }
  change (chan g_stray OutputBuf 2 (0, 2364, 2366)) with (OutputBuf, 16793864).
  split; [intros x Hx; reflexivity|].
  split.
  { intros x Hx [P T]. rewrite <- fires_projects in P.
    rewrite (m_stray_single x Hx P) in T. vm_compute in T. discriminate T. }
  split; [unfold sentinel_at; change (chan g_stray OutputBuf 2 (0, 2364, 2366)) with (OutputBuf, 16793864); rewrite E2; vm_compute; reflexivity|].
  split; [exact Dn|].
  rewrite Dn. vm_compute. discriminate.
Qed.

(** Under the schedule that runs the threads in launch order. *)
Lemma stray_commit_overwrites_depth_witness :
  mem (Forward g_stray in_order in_order (start m_stray)) (chan g_stray OutputBuf 2 (0, 2364, 2366)) =
    F32.bits_of_float (xpix g_stray m_stray (1, 0, 0)) /\
  mem (Forward g_stray in_order in_order (start m_stray)) (chan g_stray OutputBuf 2 (0, 2364, 2366)) <> 0.
Proof.
  exact (proj2 (proj2 (proj2
           (stray_commit_overwrites_depth in_order in_order fair_in_order fair_in_order)))).
Defined.

(** ** C5: what the index map records *)




(** ** C6: the gradient Backward writes *)




(** ** C7: points without a projection *)

(** On the large grid the point of cell (0, 4095, 1) has depth 0, and the
    index map that Forward leaves names it for cell (0, 0, 0). *)
Lemma large_grid_routes_to_excluded :
  excluded g_large m_large_b (0, 4095, 1) /\
  ~ never_routed g_large
      (mem (Forward g_large in_order in_order (start m_large_b)))
      (mem (Backward g_large in_order (Forward g_large in_order in_order (start m_large_b))))
      (0, 4095, 1).
Proof.
  split; [left; vm_compute; reflexivity|].
  intros [H _].
  destruct (large_grid_record in_order in_order fair_in_order fair_in_order) as [_ Er].
  cbv zeta in Er. apply (H (0, 0, 0)); [cbn; lia|].
  rewrite Er. reflexivity.
Qed.

(** Claim C7, amended. On a well-formed grid ([layout_ok]), for a point
    with [z <= 0], or whose rounded projection lies out of bounds, whatever
    the memory holds otherwise: its thread of pass 1 only
    reads memory, and its thread of pass 2 writes nothing but, possibly, the
    0 that resets the depth channel of its own cell. When, moreover, the
    caller has pre-filled the depth channel and the index map, no input
    depth is infinite and the single-precision arithmetic on offsets is
    exact, no entry of the index map names the point after Forward and
    Backward leaves its gradient as it was. *)
Theorem excluded_points_have_no_effect (g : grid) (x : cell) :
  layout_ok g -> in_grid g x ->
  (forall d, excluded g (mem d) x ->
     only_read d (exec (pass1 g (thread_of g x)) d) /\
     only_reset g x d (exec (pass2 g (thread_of g x)) d)) /\
  (forall d0 s1 s2 s3,
     forward_ready g (mem d0) -> fair s1 -> fair s2 -> fair s3 ->
     excluded g (mem d0) x ->
     let d2 := Forward g s1 s2 d0 in
     let d3 := Backward g s3 d2 in
     never_routed g (mem d2) (mem d3) x).
Proof.
  intros L Hx. split.
  { intros d Ex. apply excluded_fires in Ex.
    split; [apply pass1_excluded | apply pass2_excluded]; assumption. }
  intros d0 s1 s2 s3 R F1 F2 F3 Ex. apply excluded_fires in Ex. cbv zeta.
  pose proof (Forward_unrouted g d0 s1 s2 R F1 F2 x Hx Ex) as U.
  pose proof (Forward_routes_ok g d0 s1 s2 R F1 F2) as RO.
  split; [exact U|].
  intros k Hk. apply Backward_untouched; auto.
  intros o k' Ho N Hk' E.
  destruct RO as [R1 _]. destruct (R1 o Ho) as [? | (x' & Hx' & Ex')]; [contradiction|].
  unfold grad_ptr in E. rewrite Ex' in E.
  change (GradInputBuf, k' * is1 g + cell_off g x') with (chan g GradInputBuf k' x') in E.
  apply chan_inj in E; auto. destruct E as (_ & _ & ->).
  exact (U o Ho Ex').
Qed.

(** On the 2 x 2 grid, for the point of cell (0, 1, 0), which has depth 0,
    and on the large grid, for the point of cell (0, 4095, 1). *)
Lemma excluded_points_have_no_effect_witness :
  only_read (start m_small) (exec (pass1 g_small (thread_of g_small (0, 1, 0))) (start m_small)) /\
  only_reset g_small (0, 1, 0) (start m_small)
    (exec (pass2 g_small (thread_of g_small (0, 1, 0))) (start m_small)) /\
  never_routed g_small
    (mem (Forward g_small in_order in_order (start m_small)))
    (mem (Backward g_small in_order (Forward g_small in_order in_order (start m_small))))
    (0, 1, 0) /\
  only_read (start m_large_b)
    (exec (pass1 g_large (thread_of g_large (0, 4095, 1))) (start m_large_b)).
Proof.
  assert (E : excluded g_small (mem (start m_small)) (0, 1, 0)).
  { left. vm_compute. reflexivity. }
  assert (E' : excluded g_large (mem (start m_large_b)) (0, 4095, 1)).
  { left. vm_compute. reflexivity. }
  destruct (excluded_points_have_no_effect g_small (0, 1, 0) g_small_ok in_g_small_010)
    as [A B].
  destruct (excluded_points_have_no_effect g_large (0, 4095, 1) g_large_ok ltac:(cbn; lia))
    as [A' _].
  split; [exact (proj1 (A (start m_small) E))|].
  split; [exact (proj2 (A (start m_small) E))|].
  split; [|exact (proj1 (A' (start m_large_b) E'))].
  exact (B (start m_small) in_order in_order in_order
           m_small_ready fair_in_order fair_in_order fair_in_order E).
Defined.

(** ** C8: independence of the schedule *)




(** ** C9: the size of a launch and the guard *)

(** For a grid of one cell [OccMap_cuda_forward] runs each pass over 256
    threads, of which 255 have an index that is not below the number of
    points. *)
Lemma launch_not_exact :
  Forward g_one in_order in_order (start m_one) =
    exec (run_threads (pass2 g_one) (threads_of g_one))
      (exec (run_threads (pass1 g_one) (threads_of g_one)) (start m_one)) /\
  length (threads_of g_one) = 256%nat /\
  ~ launch_exact g_one.
Proof.
  split; [apply (Forward_passes g_one); apply contiguous_layout_ok; lia|].
  split; [reflexivity|].
  intros H.
  specialize (H {| blockIdx := 0; blockDim := 256; threadIdx := 1 |}).
  assert (I : In {| blockIdx := 0; blockDim := 256; threadIdx := 1 |} (threads_of g_one)).
  { apply in_grid_threads. cbn. lia. }
  specialize (H I). vm_compute in H. destruct H as [_ H]. discriminate H.
Qed.

(** Claim C9, amended. The grid is well formed ([layout_ok]): in
    particular the extents, the strides and [npoints + 255], with
    [npoints = batch*rows*cols], fit an [int], so that the product the
    host computes does not wrap. Then [OccMap_cuda_forward] runs pass 1
    and then pass 2, and
    [OccMap_cuda_backward] runs the gradient kernel, each over the threads
    of [numBlocks] blocks of 256 threads, where [numBlocks * 256] reaches
    [npoints] and stays below [npoints + 256]; the indices of these threads
    are exactly the integers of [0, numBlocks*256), each the index of one
    thread only; and a thread whose index is [npoints] or more returns from
    each of the three kernels with the device as it found it, memory and
    trace of accesses alike. *)
Theorem launch_covers_and_guards (g : grid) (L : layout_ok g) :
  (forall s1 s2 d,
     Forward g s1 s2 d =
     exec (run_threads (pass2 g) (s2 (threads_of g)))
       (exec (run_threads (pass1 g) (s1 (threads_of g))) d)) /\
  (forall s d,
     Backward g s d = exec (run_threads (backward g) (s (threads_of g))) d) /\
  threads_of g = grid_threads (numBlocks_of (npoints g)) 256 /\
  npoints g <= numBlocks_of (npoints g) * 256 < npoints g + 256 /\
  (forall id, 0 <= id < numBlocks_of (npoints g) * 256 <->
     exists t, In t (threads_of g) /\ thread_id t = id) /\
  (forall t t', In t (threads_of g) -> In t' (threads_of g) ->
     thread_id t = thread_id t' -> t = t') /\
  (forall t d, npoints g <= thread_id t ->
     pass1 g t d = (tt, d) /\ pass2 g t d = (tt, d) /\ backward g t d = (tt, d)).
Proof.
  pose proof (nb_bound g L) as [Hnb Hn].
  pose proof (numBlocks_of_bounds _ (npoints_nonneg g L)) as [Bn Bp].
  split; [intros s1 s2 d; apply (Forward_passes g L)|].
  split; [intros s d; unfold Backward; apply (backward_exec g L)|].
  split; [reflexivity|].
  split; [lia|].
  split.
  { intros id. split.
    - intros Hid.
      pose proof (Z.div_mod id 256 ltac:(lia)) as E.
      pose proof (Z.mod_pos_bound id 256 ltac:(lia)) as Bm.
      set (t := {| blockIdx := id / 256; blockDim := 256; threadIdx := id mod 256 |}).
      assert (HIn : In t (threads_of g)).
      { apply in_grid_threads. unfold t. cbn [blockIdx blockDim threadIdx].
        split; [reflexivity|].
        split; [split; [apply Z.div_pos; lia | apply Z.div_lt_upper_bound; lia] | lia]. }
      exists t. split; [exact HIn|].
      destruct (thread_id_grid _ t Hnb HIn) as [-> _].
      unfold t. cbn [blockIdx blockDim threadIdx]. lia.
    - intros (t & Ht & <-). apply (thread_id_grid _ t Hnb Ht). }
  split.
  { intros t t' Ht Ht' E.
    destruct (thread_id_grid _ t Hnb Ht) as [Et _].
    destruct (thread_id_grid _ t' Hnb Ht') as [Et' _].
    apply in_grid_threads in Ht, Ht'.
    destruct t as [bi bd ti], t' as [bi' bd' ti']. cbn [blockIdx blockDim threadIdx] in *.
    assert (bi = bi' /\ ti = ti') as [-> ->] by (apply (radix_unique bi ti bi' ti' 256); lia).
    f_equal. lia. }
  intros t d Hge.
  unfold pass1, pass2, backward, projectPointsAndDepthTest, refineOutput, projectionGradient.
  rewrite (proj2 (Z.leb_le _ _) Hge). auto.
Qed.

(** On the 2 x 2 grid: 4 points, one block of 256 threads. *)
Lemma launch_covers_and_guards_witness :
  Forward g_small in_order reversed (start m_small) =
    exec (run_threads (pass2 g_small) (reversed (threads_of g_small)))
      (exec (run_threads (pass1 g_small) (in_order (threads_of g_small))) (start m_small)) /\
  npoints g_small <= numBlocks_of (npoints g_small) * 256 < npoints g_small + 256 /\
  (exists t, In t (threads_of g_small) /\ thread_id t = 255) /\
  (forall t d, npoints g_small <= thread_id t ->
     pass1 g_small t d = (tt, d) /\ pass2 g_small t d = (tt, d) /\ backward g_small t d = (tt, d)).
Proof.
  destruct (launch_covers_and_guards g_small g_small_ok) as (A & _ & _ & B & C & _ & D).
  split; [exact (A in_order reversed (start m_small))|].
  split; [exact B|].
  split; [apply (proj1 (C 255)); vm_compute; split; [discriminate | reflexivity]|].
  exact D.
Defined.

(** ** C10: offsets through the index map *)

(** Claim C10. A thread of pass 2 whose point wins stores, as the index map
    entry of the target, the offset of its point converted to [float]. A
    thread of Backward that finds in its entry the float of the offset [v]
    reads the input point and makes its three stores at the offset
    [stored_offset v], the truncation of that float. The round trip gives back every non-negative offset that
    single precision holds exactly, [n * 2^k] with [n] below 2^24, and so
    every offset up to 2^24. On the 4097 x 4097 grid, pass 2 records for
    cell (0, 0, 0) the offset 2^24 + 1 of the point of cell (0, 4095, 2),
    Backward reads 2^24, writes the gradient of the point of cell
    (0, 4095, 1), which was 0, and leaves that of cell (0, 4095, 2) at 0. *)
Theorem index_map_round_trip :
  (forall g x d, layout_ok g -> in_grid g x ->
     let m1 := reset_own g (mem d) x in
     wins g m1 x = true ->
     mem (exec (pass2 g (thread_of g x)) d) (IndexMapBuf, valim g m1 x) =
       bits_of_float (of_int (cell_off g x))) /\
  (forall g o d v, layout_ok g -> in_grid g o ->
     mem d (imap_at g o) = bits_of_float (of_int v) ->
     stored_offset v <> -1 ->
     exists w0 w1 w2,
       trace (exec (backward g (thread_of g o)) d) =
         [ Store (GradInputBuf, 2 * is1 g + stored_offset v) w2;
           Store (GradInputBuf, 1 * is1 g + stored_offset v) w1;
           Store (GradInputBuf, 0 * is1 g + stored_offset v) w0;
           Load (chan g GradOutputBuf 2 o);
           Load (chan g GradOutputBuf 1 o);
           Load (chan g GradOutputBuf 0 o);
           Load (InputBuf, 2 * is1 g + stored_offset v);
           Load (InputBuf, 1 * is1 g + stored_offset v);
           Load (InputBuf, 0 * is1 g + stored_offset v);
           Load (imap_at g o) ] ++ trace d /\
       mem (exec (backward g (thread_of g o)) d) =
         upd (upd (upd (mem d) (GradInputBuf, 0 * is1 g + stored_offset v) w0)
                  (GradInputBuf, 1 * is1 g + stored_offset v) w1)
             (GradInputBuf, 2 * is1 g + stored_offset v) w2) /\
  (forall n k, 0 <= n < 2 ^ 24 -> 0 <= k -> n * 2 ^ k < 2 ^ 63 ->
     stored_offset (n * 2 ^ k) = n * 2 ^ k) /\
  (forall v, 0 <= v <= 2 ^ 24 -> stored_offset v = v) /\
  (forall s1 s2 s3, fair s1 -> fair s2 -> fair s3 ->
     let d2 := Forward g_large s1 s2 (start m_large_b) in
     let d3 := Backward g_large s3 d2 in
     cell_off g_large (0, 4095, 2) = 2 ^ 24 + 1 /\
     cell_off g_large (0, 4095, 1) = 2 ^ 24 /\
     mem d2 (imap_at g_large (0, 0, 0)) =
       bits_of_float (of_int (cell_off g_large (0, 4095, 2))) /\
     routed g_large (mem d2) (0, 0, 0) = 2 ^ 24 /\
     mem d2 (chan g_large GradInputBuf 0 (0, 4095, 1)) = 0 /\
     mem d3 (chan g_large GradInputBuf 0 (0, 4095, 1)) = bits_of_float HUGE_VALF /\
     forall k, 0 <= k <= 2 -> mem d3 (chan g_large GradInputBuf k (0, 4095, 2)) = 0).
Proof.
  split.
  { intros g x d L Hx m1 W.
    destruct (thread_of_spec g L x Hx) as (HIn & Hid & Hc).
    rewrite (pass2_mem g L _ d HIn). unfold p2_step. rewrite Hid, Hc.
    rewrite (proj2 (Z.ltb_lt _ _)) by apply (flat_id_bound g L x Hx).
    cbv zeta. fold m1. rewrite W. unfold commit. apply upd_same. }
  split.
  { intros g o d v L Ho E N.
    destruct (thread_of_spec g L o Ho) as (HIn & Hid & Hc).
    pose proof (flat_id_bound g L o Ho) as Hb.
    assert (R : routed g (mem d) o = stored_offset v)
      by (unfold routed, stored_offset; rewrite E; reflexivity).
    unfold backward, projectionGradient, exec.
    rewrite Hid. rewrite (proj2 (Z.leb_gt _ _)) by lia.
    rewrite <- Hid. fold (cell_of g (thread_of g o)). rewrite Hc.
    destruct o as [[b r] c].
    rewrite (int_offset_cell g L b r c Ho), (int_offset_imap g L b r c Ho).
    unfold bind, load, ret, store. cbn [fst snd mem].
    change ((IndexMapBuf, 0) +p imap_off g (b, r, c)) with (imap_at g (b, r, c)).
    fold (routed g (mem d) (b, r, c)). rewrite R.
    rewrite (proj2 (Z.eqb_neq _ _) N).
    cbn [snd mem trace]. rewrite !(ptr_chan g L) by lia.
    eexists _, _, _. split; reflexivity. }
  split; [exact stored_offset_representable|].
  split; [exact stored_offset_small|].
  intros s1 s2 s3 F1 F2 F3. cbv zeta.
  destruct (large_grid_record s1 s2 F1 F2) as [A B].
  destruct (large_grid_backward s1 s2 s3 F1 F2 F3) as (C & D & E).
  split; [reflexivity|]. split; [reflexivity|].
  split; [exact A|]. split; [exact B|]. split; [exact D|]. split; [exact C | exact E].
Qed.

(** For the offsets 2^24 and 2^24 + 2 of cells (0, 4095, 1) and
    (0, 4095, 3) of the 4097 x 4097 grid, for an entry that holds 2^24 + 1
    and for Forward and Backward in launch order. *)
Lemma index_map_round_trip_witness :
  stored_offset (cell_off g_large (0, 4095, 1)) = cell_off g_large (0, 4095, 1) /\
  stored_offset (cell_off g_large (0, 4095, 3)) = cell_off g_large (0, 4095, 3) /\
  (exists w0 w1 w2,
     mem (exec (backward g_small (thread_of g_small (0, 0, 0)))
            (Forward g_small in_order in_order (start m_small))) =
       upd (upd (upd (mem (Forward g_small in_order in_order (start m_small)))
                     (GradInputBuf, 0 * is1 g_small + stored_offset 1) w0)
                (GradInputBuf, 1 * is1 g_small + stored_offset 1) w1)
           (GradInputBuf, 2 * is1 g_small + stored_offset 1) w2) /\
  routed g_large (mem (Forward g_large in_order in_order (start m_large_b))) (0, 0, 0) = 2 ^ 24 /\
  mem (Backward g_large in_order (Forward g_large in_order in_order (start m_large_b)))
      (chan g_large GradInputBuf 0 (0, 4095, 1)) = bits_of_float HUGE_VALF.
Proof.
  destruct index_map_round_trip as (_ & R & A & B & C).
  split; [apply B; vm_compute; split; discriminate|].
  split; [apply (A 8388609 1); [lia | lia | reflexivity]|].
  split.
  { destruct (R g_small (0, 0, 0) (Forward g_small in_order in_order (start m_small)) 1
                g_small_ok in_g_small_000) as (w0 & w1 & w2 & _ & M).
    - vm_compute. reflexivity.
    - vm_compute. discriminate.
    - exists w0, w1, w2. exact M. }
  destruct (C in_order in_order in_order fair_in_order fair_in_order fair_in_order)
    as (_ & _ & _ & C1 & _ & C2 & _).
  split; [exact C1 | exact C2].
Defined.

(** * Further properties of the code *)

(** ** Accesses within the tensors *)







Section InBounds.
Variable g : grid.
Hypothesis L : layout_ok g.
Hypothesis S : small_offsets g.



End InBounds.


Section Frames.
Variable g : grid.
Hypothesis L : layout_ok g.



End Frames.











(** ** Threads and cells *)

(** [getCoordinates_1] splits an index below [B*R*C] into a batch below [B],
    a row below [R] and a column below [C] of which it is the row-major
    index, and gives back the batch, row and column of the row-major index
    of any cell. *)
Theorem getCoordinates_1_round_trip (B R C : Z) :
  0 < R -> 0 < C ->
  (forall id, 0 <= id < B * R * C ->
     let '(b, r, c) := getCoordinates_1 id R C in
     0 <= b < B /\ 0 <= r < R /\ 0 <= c < C /\ (b * R + r) * C + c = id) /\
  (forall b r c, 0 <= b -> 0 <= r < R -> 0 <= c < C ->
     getCoordinates_1 ((b * R + r) * C + c) R C = (b, r, c)).
Proof.
  intros HR HC. split.
  - intros id Hid.
    destruct (getCoordinates_1_inv B R C id HR HC Hid) as (b & r & c & E & Hb & Hr & Hc & Ei).
    rewrite E. auto.
  - intros b r c Hb Hr Hc. apply getCoordinates_1_spec; assumption.
Qed.

(** For 2 batches of 3 x 4 cells: the index 17 and the cell (1, 2, 3). *)
Lemma getCoordinates_1_round_trip_witness :
  (let '(b, r, c) := getCoordinates_1 17 3 4 in
   0 <= b < 2 /\ 0 <= r < 3 /\ 0 <= c < 4 /\ (b * 3 + r) * 4 + c = 17) /\
  getCoordinates_1 ((1 * 3 + 2) * 4 + 3) 3 4 = (1, 2, 3).
Proof.
  destruct (getCoordinates_1_round_trip 2 3 4 ltac:(lia) ltac:(lia)) as [A B].
  split.
  - exact (A 17 ltac:(lia)).
  - apply B; lia.
Defined.

Lemma thread_id_inj (nb : Z) (t t' : thread) :
  nb * 256 <= 2 ^ 31 -> In t (grid_threads nb 256) -> In t' (grid_threads nb 256) ->
  thread_id t = thread_id t' -> t = t'.
Proof.
  intros Hn Ht Ht' E.
  destruct (thread_id_grid nb t Hn Ht) as [E1 _].
  destruct (thread_id_grid nb t' Hn Ht') as [E2 _].
  apply in_grid_threads in Ht. apply in_grid_threads in Ht'.
  destruct t as [bi bd ti], t' as [bi' bd' ti']. cbn [blockIdx blockDim threadIdx] in *.
  rewrite E1, E2 in E.
  assert (bi = bi') by lia. assert (ti = ti') by lia.
  destruct Ht as (-> & _), Ht' as (-> & _). subst. reflexivity.
Qed.

(** Every cell of the grid is the cell of exactly one of the threads of a
    launch that pass the guard [id >= npoints], and every such thread works
    for a cell of the grid. *)
Theorem one_thread_per_cell (g : grid) :
  layout_ok g ->
  (forall x, in_grid g x ->
     exists t, In t (threads_of g) /\ thread_id t < npoints g /\ cell_of g t = x /\
       forall t', In t' (threads_of g) -> thread_id t' < npoints g ->
                  cell_of g t' = x -> t' = t) /\
  (forall t, In t (threads_of g) -> thread_id t < npoints g -> in_grid g (cell_of g t)).
Proof.
  intros L. split.
  - intros x Hx. exists (thread_of g x).
    destruct (thread_of_spec g L x Hx) as (Hin & Hid & Hc).
    split; [exact Hin|]. split; [rewrite Hid; apply (flat_id_bound g L x Hx)|].
    split; [exact Hc|].
    intros t' Ht' A' Ec.
    destruct (active_thread g L t' Ht' A') as [_ Ef].
    apply (thread_id_inj (numBlocks_of (npoints g))); auto.
    + apply (nb_bound g L).
    + rewrite Hid, <- Ef, Ec. reflexivity.
  - intros t Ht A. apply (active_thread g L t Ht A).
Qed.

(** On the 2 x 2 grid, for cell (0, 1, 0). *)
Lemma one_thread_per_cell_witness :
  exists t, In t (threads_of g_small) /\ thread_id t < npoints g_small /\
    cell_of g_small t = (0, 1, 0) /\
    forall t', In t' (threads_of g_small) -> thread_id t' < npoints g_small ->
               cell_of g_small t' = (0, 1, 0) -> t' = t.
Proof. exact (proj1 (one_thread_per_cell g_small g_small_ok) (0, 1, 0) in_g_small_010). Defined.

(** ** Pass 1 again, the empty batch, an index map without winners *)

(** Running pass 1 a second time, in any order, changes nothing: every word
    it would offer has been offered already. *)
Theorem pass1_is_idempotent (g : grid) (s s' : scheduler) (d : device) :
  layout_ok g -> fair s -> fair s' ->
  same_memory (run_pass1 g s' (run_pass1 g s d)) (run_pass1 g s d).
Proof.
  intros L F F' p.
  rewrite (run_pass1_mem g L s' _ F'), (run_pass1_mem g L s d F).
  destruct (pass1_fold g (s (threads_of g)) (mem d)) as (S1 & _ & _ & Of1 & _).
  set (m1 := fold_left (p1_step g) (s (threads_of g)) (mem d)) in *.
  destruct (pass1_fold g (s' (threads_of g)) m1) as (_ & _ & Le2 & _ & Ex2).
  destruct (Ex2 p) as [E | (t & w & Ht & O & E)]; [exact E|].
  apply (offers_same g m1 (mem d) t p w (same_input_sym _ _ S1)) in O.
  assert (Ht1 : In t (s (threads_of g))).
  { apply (fair_in s _ _ F). apply (fair_in_inv s' _ _ F' Ht). }
  pose proof (Of1 t p w Ht1 O). specialize (Le2 p). lia.
Qed.

(** On the 2 x 2 grid, in launch order and then in the reverse order. *)
Lemma pass1_is_idempotent_witness :
  same_memory (run_pass1 g_small reversed (run_pass1 g_small in_order (start m_small)))
              (run_pass1 g_small in_order (start m_small)).
Proof.
  exact (pass1_is_idempotent g_small in_order reversed (start m_small)
           g_small_ok fair_in_order fair_reversed).
Defined.


Section Outcome.
Variable g : grid.
Hypothesis L : layout_ok g.


End Outcome.



(** When no entry of the index map names a point, that is when every entry
    reads as -1, [OccMap_cuda_backward] writes nothing: the input gradient
    keeps what the caller put there. *)
Theorem backward_without_winners_writes_nothing (g : grid) (s : scheduler) (d : device) :
  layout_ok g -> fair s ->
  (forall o, in_grid g o -> routed g (mem d) o = -1) ->
  forall p, mem (Backward g s d) p = mem d p.
Proof.
  intros L F NW p. rewrite (Backward_mem g L s d F).
  assert (G : forall l, (forall t, In t l -> In t (threads_of g)) ->
            fold_left (bw_step g) l (mem d) = mem d).
  { induction l as [ | t l IH]; intros Hl; [reflexivity|].
    cbn [fold_left].
    assert (E : bw_step g (mem d) t = mem d).
    { unfold bw_step. destruct (Z.ltb_spec (thread_id t) (npoints g)) as [A | A]; [|reflexivity].
      destruct (active_thread g L t (Hl t (or_introl eq_refl)) A) as [Hx _].
      rewrite (NW _ Hx). reflexivity. }
    rewrite E. apply IH. intros t' Ht'. apply Hl. right. exact Ht'. }
  rewrite G; [reflexivity|]. intros t Ht. apply (fair_in_inv s _ _ F Ht).
Qed.

(** On the 2 x 2 grid, with the index map as the caller fills it. *)
Lemma backward_without_winners_writes_nothing_witness :
  mem (Backward g_small in_order (start m_small)) (chan g_small GradInputBuf 0 (0, 0, 1)) =
  m_small (chan g_small GradInputBuf 0 (0, 0, 1)).
Proof.
  apply (backward_without_winners_writes_nothing g_small in_order (start m_small)
           g_small_ok fair_in_order).
  intros o Ho. reflexivity.
Defined.

(** ** Grids whose offsets stay below 2^24 *)

(** On a grid whose extents are below 2^23 and whose offsets are below 2^24,
    whatever the input: a point that passes the guards is aimed at a cell of
    the grid, in its own batch, and the four addresses the kernels compute
    for that cell in single precision are the addresses of its depth, of its
    two coordinates and of its index map entry. *)
Theorem small_grid_addresses_are_exact (g : grid) (m : memory) (x : cell) :
  layout_ok g -> small_offsets g -> in_grid g x -> fires g m x = true ->
  in_grid g (target g m x) /\
  fst (fst (target g m x)) = fst (fst x) /\
  (OutputBuf, 2 * is1 g + valo g m x) = chan g OutputBuf 2 (target g m x) /\
  (OutputBuf, 0 * is1 g + valo g m x) = chan g OutputBuf 0 (target g m x) /\
  (OutputBuf, 1 * is1 g + valo g m x) = chan g OutputBuf 1 (target g m x) /\
  (IndexMapBuf, valim g m x) = imap_at g (target g m x).
Proof.
  intros L S Hx Fx.
  destruct (small_offsets_targets_exact g m L S x Hx Fx) as (Ht & Ev & Ei).
  split; [exact Ht|].
  split; [destruct x as [[b r] c]; reflexivity|].
  unfold chan, imap_at. rewrite Ev, Ei. repeat split; reflexivity.
Qed.

(** On the 2 x 2 grid, for the point of cell (0, 0, 1). *)
Lemma small_grid_addresses_are_exact_witness :
  in_grid g_small (target g_small m_small (0, 0, 1)) /\
  fst (fst (target g_small m_small (0, 0, 1))) = 0 /\
  (OutputBuf, 2 * is1 g_small + valo g_small m_small (0, 0, 1)) =
    chan g_small OutputBuf 2 (target g_small m_small (0, 0, 1)) /\
  (OutputBuf, 0 * is1 g_small + valo g_small m_small (0, 0, 1)) =
    chan g_small OutputBuf 0 (target g_small m_small (0, 0, 1)) /\
  (OutputBuf, 1 * is1 g_small + valo g_small m_small (0, 0, 1)) =
    chan g_small OutputBuf 1 (target g_small m_small (0, 0, 1)) /\
  (IndexMapBuf, valim g_small m_small (0, 0, 1)) =
    imap_at g_small (target g_small m_small (0, 0, 1)).
Proof.
  apply (small_grid_addresses_are_exact g_small m_small (0, 0, 1) g_small_ok g_small_offsets).
  - cbn. lia.
  - vm_compute. reflexivity.
Defined.







(** ** Forward, then Backward *)

Lemma compare_antisym (a b : float) :
  SFcompare b a = option_map CompOpp (SFcompare a b).
Proof.
  destruct a as [sa | sa | | sa ma ea], b as [sb | sb | | sb mb eb];
    try destruct sa; try destruct sb; try reflexivity; cbn [SFcompare option_map];
    pose proof (Pos.compare_cont_antisym ma mb Eq) as P; cbn [CompOpp] in P;
    rewrite (Z.compare_antisym ea eb), <- P;
    destruct (ea ?= eb); cbn [CompOpp]; try reflexivity;
    destruct (Pos.compare_cont Eq ma mb); reflexivity.
Qed.

Lemma leb_not_ltb (a b : float) : leb a b = true -> ltb b a = true -> False.
Proof.
  unfold leb, ltb, SFleb, SFltb. rewrite (compare_antisym a b).
  destruct (SFcompare a b) as [[ | | ] | ]; cbn; discriminate.
Qed.



(** The caller has pre-filled the depth channel and the index map, no
    input depth is infinite and the arithmetic on offsets is exact. Then a
    point that lands on a cell on which a strictly nearer point lands too
    receives no gradient: after [OccMap_cuda_forward] and
    [OccMap_cuda_backward] the three gradient channels of its cell hold
    what they held before. *)
Theorem hidden_points_receive_no_gradient
    (g : grid) (d0 : device) (s1 s2 s3 : scheduler) (o x x' : cell) :
  forward_ready g (mem d0) -> fair s1 -> fair s2 -> fair s3 ->
  in_grid g o -> in_grid g x -> in_grid g x' ->
  lands_on g (mem d0) x o -> lands_on g (mem d0) x' o ->
  F32.ltb (point_z g (mem d0) x') (point_z g (mem d0) x) = true ->
  forall k, 0 <= k <= 2 ->
    mem (Backward g s3 (Forward g s1 s2 d0)) (chan g GradInputBuf k x) =
    mem d0 (chan g GradInputBuf k x).
Proof.
  intros R F1 F2 F3 Ho Hx Hx' Ld Ld' Lt k Hk.
  pose proof (fr_layout _ _ R) as L.
  pose proof (Forward_routes_ok g d0 s1 s2 R F1 F2) as RO.
  rewrite (Backward_untouched g _ s3 L F3 RO).
  - apply Forward_keeps_other_buffers; [exact L | cbn; discriminate | cbn; discriminate].
  - intros o1 k1 Ho1 N1 Hk1 E.
    destruct (Forward_cells g d0 s1 s2 R F1 F2 o1 Ho1)
      as [(_ & _ & _ & E1 & _) | (x1 & Hx1 & Ld1 & _ & _ & _ & Lb1 & E1 & _)];
      [contradiction|].
    unfold grad_ptr in E. rewrite E1 in E.
    change (GradInputBuf, k1 * is1 g + cell_off g x1) with (chan g GradInputBuf k1 x1) in E.
    apply (chan_inj g L) in E; auto. destruct E as (_ & _ & ->).
    assert (o1 = o) by (destruct Ld1 as [_ T1], Ld as [_ T]; congruence). subst o1.
    exact (leb_not_ltb _ _ (Lb1 x' Hx' Ld') Lt).
Qed.

(** On the 2 x 2 grid: the point of cell (0, 0, 0), of depth 1, is hidden by
    the point of cell (0, 0, 1), of depth 0.5. *)
Lemma hidden_points_receive_no_gradient_witness :
  mem (Backward g_small in_order (Forward g_small in_order in_order (start m_small)))
      (chan g_small GradInputBuf 0 (0, 0, 0)) =
  m_small (chan g_small GradInputBuf 0 (0, 0, 0)).
Proof.
  apply (hidden_points_receive_no_gradient g_small (start m_small)
           in_order in_order in_order (0, 0, 0) (0, 0, 0) (0, 0, 1)
           m_small_ready fair_in_order fair_in_order fair_in_order
           in_g_small_000 in_g_small_000).
  - cbn. lia.
  - split; vm_compute; reflexivity.
  - split; vm_compute; reflexivity.
  - vm_compute. reflexivity.
  - lia.
Defined.

(** ** Points that are not numbers *)

Lemma div_nan_l z : F32.div S754_nan z = S754_nan.
Proof. destruct z; reflexivity. Qed.

Lemma fires_nan (g : grid) (m : memory) (x : cell) :
  point_x g m x = S754_nan \/ point_y g m x = S754_nan \/ point_z g m x = S754_nan ->
  fires g m x = false.
Proof.
  intros H. unfold fires.
  assert (B : in_bounds g (F32.round (xpix g m x)) (F32.round (ypix g m x)) = false).
  { destruct H as [E | [E | E]].
    - unfold xpix. rewrite E, div_nan_l.
      destruct (fx g), (cx g); reflexivity.
    - assert (Y : F32.round (ypix g m x) = S754_nan).
      { unfold ypix. rewrite E, div_nan_l. destruct (fy g), (cy g); reflexivity. }
      rewrite Y. unfold in_bounds.
      change (F32.leb (F32.of_int 0) S754_nan) with false.
      rewrite andb_false_r. reflexivity.
    - unfold xpix. rewrite E, nan_projection. apply in_bounds_nan. }
  rewrite B. apply andb_false_r.
Qed.

(** A point one of whose coordinates is not a number is left out: its
    thread of pass 1 only reads memory and its thread of pass 2 writes
    nothing but, possibly, the 0 that resets the depth of its own cell. A
    depth that is not a number passes the test [z <= 0] and is stopped by
    the bounds test. *)
Theorem nan_points_are_left_out (g : grid) (x : cell) (d : device) :
  layout_ok g -> in_grid g x ->
  point_x g (mem d) x = S754_nan \/ point_y g (mem d) x = S754_nan \/
  point_z g (mem d) x = S754_nan ->
  F32.leb (S754_nan) (F32.of_int 0) = false /\
  only_read d (exec (pass1 g (thread_of g x)) d) /\
  only_reset g x d (exec (pass2 g (thread_of g x)) d).
Proof.
  intros L Hx H. pose proof (fires_nan g (mem d) x H) as Fx.
  split; [reflexivity|].
  split; [apply pass1_excluded | apply pass2_excluded]; assumption.
Qed.

(** On the 2 x 2 grid, for the point of cell (0, 0, 0) of [m_nan]. *)
Lemma nan_points_are_left_out_witness :
  only_read (start m_nan) (exec (pass1 g_small (thread_of g_small (0, 0, 0))) (start m_nan)) /\
  only_reset g_small (0, 0, 0) (start m_nan)
    (exec (pass2 g_small (thread_of g_small (0, 0, 0))) (start m_nan)).
Proof.
  apply (nan_points_are_left_out g_small (0, 0, 0) (start m_nan) g_small_ok in_g_small_000).
  right. right. vm_compute. reflexivity.
Defined.

(** ** Pass 1 and Backward, address by address *)

(** Pass 1, on any well-formed grid: the word it leaves at an address is the
    least of the word it found there and of the depth words of the points
    that pass the guards and for which the kernel computes that address. *)
Theorem pass1_is_a_minimum_per_address (g : grid) (s : scheduler) (d : device) (p : ptr) :
  layout_ok g -> fair s ->
  let w := mem (run_pass1 g s d) p in
  w <= mem d p /\
  (forall x, in_grid g x -> fires g (mem d) x = true -> depth_ptr g (mem d) x = p ->
     w <= depth_word g (mem d) x) /\
  (w = mem d p \/
   exists x, in_grid g x /\ fires g (mem d) x = true /\ depth_ptr g (mem d) x = p /\
             w = depth_word g (mem d) x).
Proof.
  intros L F w. unfold w. rewrite (run_pass1_mem g L s d F).
  destruct (pass1_fold g (s (threads_of g)) (mem d)) as (_ & _ & Le & Of & Ex).
  split; [apply Le|]. split.
  - intros x Hx Fx Px.
    destruct (thread_of_spec g L x Hx) as (Hin & Hid & Hc).
    apply (Of (thread_of g x)).
    + apply (fair_in s _ _ F Hin).
    + unfold offers. rewrite Hc, Hid. split; [apply (flat_id_bound g L x Hx)|]. auto.
  - destruct (Ex p) as [E | (t & w' & Ht & (A & Ft & Pt & Wt) & E)]; [left; exact E|].
    right. exists (cell_of g t).
    destruct (active_thread g L t (fair_in_inv s _ _ F Ht) A) as [Hx _].
    split; [exact Hx|]. split; [exact Ft|]. split; [exact Pt|]. rewrite E. symmetry. exact Wt.
Qed.

(** On the 2 x 2 grid, at the depth of cell (0, 0, 0). *)
Lemma pass1_is_a_minimum_per_address_witness :
  mem (run_pass1 g_small in_order (start m_small)) (chan g_small OutputBuf 2 (0, 0, 0)) <=
  m_small (chan g_small OutputBuf 2 (0, 0, 0)).
Proof.
  exact (proj1 (pass1_is_a_minimum_per_address g_small in_order (start m_small)
                  (chan g_small OutputBuf 2 (0, 0, 0)) g_small_ok fair_in_order)).
Defined.

(** [OccMap_cuda_backward] overwrites and does not accumulate: on an index
    map that names points of the grid, none of them twice, a second run, in
    any order, leaves the memory that the first run left. *)
Theorem backward_is_idempotent (g : grid) (s s' : scheduler) (d : device) :
  layout_ok g -> fair s -> fair s' -> routes_ok g (mem d) ->
  same_memory (Backward g s' (Backward g s d)) (Backward g s d).
Proof.
  intros L F F' RO p.
  pose proof (Backward_inv g d s L F RO) as I1.
  pose proof (bw_src _ _ _ _ I1) as S1.
  assert (Er : forall o, routed g (mem (Backward g s d)) o = routed g (mem d) o).
  { intros o. apply same_sources_routed. exact S1. }
  assert (RO1 : routes_ok g (mem (Backward g s d))).
  { destruct RO as [R1 R2]. split.
    - intros o Ho. rewrite Er. apply R1. exact Ho.
    - intros o o' Ho Ho'. rewrite !Er. apply R2; assumption. }
  destruct (bw_frame _ _ _ _ (Backward_inv g _ s' L F' RO1) p)
    as [E | (o & k & Ho & R & Hk & Ep & E)]; [exact E|].
  rewrite E. rewrite Ep. unfold grad_ptr. rewrite Er.
  rewrite (same_sources_grad g (mem d) _ k o S1).
  rewrite Er in R.
  symmetry. apply (Backward_written g d s L F RO o k Ho R Hk).
Qed.

(** On the 2 x 2 grid, after Forward. *)
Lemma backward_is_idempotent_witness :
  same_memory
    (Backward g_small reversed
       (Backward g_small in_order (Forward g_small in_order in_order (start m_small))))
    (Backward g_small in_order (Forward g_small in_order in_order (start m_small))).
Proof.
  exact (backward_is_idempotent g_small in_order reversed _
           g_small_ok fair_in_order fair_reversed m_small_routes).
Defined.
